(** * beanseye: the scheduling subsystem of the memcache proxy

    A shallow embedding of the schedulers of package [memcache]: bucket addressing
    ([getBucketByKey], [hextoi]), the modulo, consistent-hash, manual and
    auto schedulers, the feedback re-ranking of the auto scheduler, the
    [Stats] methods and the probing loop of [check].

    Conventions of the embedding:
    - a Go [string] / [[]byte] is a [string] (a sequence of 8-bit [ascii]);
    - [uint32], [uint64] and [int32] values are [Z] with the wrap-around
      written out ([uint32], [uint64], [int32]);
    - positions and host indices stored in slices are [nat]; an [int] that
      the code computes and then uses as an index is a [Z], and the bounds
      check of the indexing is explicit;
    - [float64] is the kernel's binary64 [float];
    - a run-time panic is a value of [result]. *)

From Stdlib Require Import ZArith Lia List Ascii String DecimalString Floats.
From Stdlib Require Import Sorting.Sorted Sorting.Permutation.
From stdpp Require Import base option list sorting.
From Equations Require Import Equations.

Local Open Scope string_scope.
Local Open Scope Z_scope.

(** ** Run-time panics *)

Inductive panic : Type :=
| IndexOutOfRange
| DivideByZero
| MakeSliceLen
| SortFailed.

Inductive result (A : Type) : Type :=
| Ok (a : A)
| Panic (p : panic).

Arguments Ok {A} a.
Arguments Panic {A} p.

#[global] Instance result_ret : MRet result := fun _ a => Ok a.
#[global] Instance result_bind : MBind result := fun _ _ f m =>
  match m with
  | Ok a => f a
  | Panic p => Panic p
  end.

(** [l[i]] for a slice: out of range is a panic. *)
Definition item {A} (l : list A) (i : nat) : result A :=
  match l !! i with
  | Some a => Ok a
  | None => Panic IndexOutOfRange
  end.

(** [l[i]] for an [int] index, which may be negative. *)
Definition itemZ {A} (l : list A) (i : Z) : result A :=
  if i <? 0 then Panic IndexOutOfRange else item l (Z.to_nat i).

(** ** Machine integers *)

Definition uint32 (z : Z) : Z := z mod 2 ^ 32.
Definition uint64 (z : Z) : Z := z mod 2 ^ 64.
Definition int32 (z : Z) : Z := (z + 2 ^ 31) mod 2 ^ 32 - 2 ^ 31.

(** ** Strings as byte sequences *)

Definition byte_of (c : ascii) : Z := Z.of_N (N_of_ascii c).

Definition bytes_of (s : string) : list Z := map byte_of (list_ascii_of_string s).

Definition len (s : string) : Z := Z.of_nat (String.length s).

(** [s[0]], when there is one. *)
Definition first_byte (s : string) : option Z :=
  match s with
  | EmptyString => None
  | String c _ => Some (byte_of c)
  end.

(** [s[1:]] of a non-empty string. *)
Definition tail (s : string) : string :=
  match s with
  | EmptyString => EmptyString
  | String _ r => r
  end.

(** ** Hash methods

    [type HashMethod func(v []byte) uint32]. The registry [hashMethods] and
    its functions live in another file of the package; a hash method is any
    function into the 32-bit range. *)

Record HashMethod : Type := {
  hash_fn :> string -> Z;
  hash_range : forall s, 0 <= hash_fn s < 2 ^ 32
}.

(** An instance to run the model on: 32-bit FNV-1a. *)
Definition fnv1a_step (h : Z) (c : ascii) : Z :=
  uint32 (Z.lxor h (byte_of c) * 16777619).

Definition fnv1a_fn (s : string) : Z :=
  fold_left fnv1a_step (list_ascii_of_string s) 2166136261.

Lemma fnv1a_fn_range s : 0 <= fnv1a_fn s < 2 ^ 32.
Proof.
  unfold fnv1a_fn.
  assert (H : 0 <= 2166136261 < 2 ^ 32) by lia.
  revert H. generalize 2166136261.
  induction (list_ascii_of_string s) as [|c l IH]; intros h Hh; simpl.
  - exact Hh.
  - apply IH. unfold fnv1a_step, uint32. apply Z.mod_pos_bound. lia.
Qed.

Definition fnv1a : HashMethod :=
  {| hash_fn := fnv1a_fn; hash_range := fnv1a_fn_range |}.

(** A degenerate instance: every key hashes to the same value. *)
Lemma uint32_range z : 0 <= uint32 z < 2 ^ 32.
Proof. unfold uint32. apply Z.mod_pos_bound. lia. Qed.

Definition const_hash (v : Z) : HashMethod :=
  {| hash_fn := fun _ => uint32 v; hash_range := fun _ => uint32_range v |}.

(** ** UTF-8 decoding, as [for _, c := range s] performs it

    Modelled from the Go language specification and [unicode/utf8]: a
    [range] over a string yields the runes of the string; a byte that does
    not start a well-formed encoding yields U+FFFD and advances by one
    byte. [decodeRune] returns the rune and the number of bytes it takes. *)

Definition RuneError : Z := 65533.

Definition in_range (lo hi b : Z) : bool := (lo <=? b) && (b <=? hi).

Definition cont (b : Z) : Z := Z.land b 63.

Definition decodeRune (bs : list Z) : Z * nat :=
  match bs with
  | [] => (RuneError, 0%nat)
  | p0 :: rest =>
    if p0 <? 128 then (p0, 1%nat)
    else
      (* size of the encoding and accepted range of the second byte *)
      let '(sz, lo, hi) :=
        if in_range 194 223 p0 then (2, 128, 191)
        else if p0 =? 224 then (3, 160, 191)
        else if in_range 225 236 p0 then (3, 128, 191)
        else if p0 =? 237 then (3, 128, 159)
        else if in_range 238 239 p0 then (3, 128, 191)
        else if p0 =? 240 then (4, 144, 191)
        else if in_range 241 243 p0 then (4, 128, 191)
        else if p0 =? 244 then (4, 128, 143)
        else (0, 0, 0) in
      if sz =? 0 then (RuneError, 1%nat)
      else
        match rest with
        | [] => (RuneError, 1%nat)
        | b1 :: rest1 =>
          if negb (in_range lo hi b1) then (RuneError, 1%nat)
          else if sz =? 2 then
            (Z.lor (Z.shiftl (Z.land p0 31) 6) (cont b1), 2%nat)
          else
            match rest1 with
            | [] => (RuneError, 1%nat)
            | b2 :: rest2 =>
              if negb (in_range 128 191 b2) then (RuneError, 1%nat)
              else if sz =? 3 then
                (Z.lor (Z.lor (Z.shiftl (Z.land p0 15) 12) (Z.shiftl (cont b1) 6))
                       (cont b2), 3%nat)
              else
                match rest2 with
                | [] => (RuneError, 1%nat)
                | b3 :: _ =>
                  if negb (in_range 128 191 b3) then (RuneError, 1%nat)
                  else
                    (Z.lor (Z.lor (Z.lor (Z.shiftl (Z.land p0 7) 18)
                                         (Z.shiftl (cont b1) 12))
                                  (Z.shiftl (cont b2) 6))
                           (cont b3), 4%nat)
                end
            end
        end
  end.

(** ** [hextoi]

    The accumulator [r] is a [rune], a 32-bit signed integer. *)

Definition hexdigit_step (r c : Z) : Z :=
  let r := int32 (r * 16) in
  if in_range 48 57 c then int32 (r + (c - 48))            (* '0'..'9' *)
  else if in_range 65 70 c then int32 (r + (10 + c - 65))  (* 'A'..'F' *)
  else if in_range 97 102 c then int32 (r + (10 + c - 97)) (* 'a'..'f' *)
  else r.

(** The loop over the runes of [bs]; [skip] counts the bytes of the current
    rune that are still to be stepped over. *)
Fixpoint hextoi_loop (bs : list Z) (skip : nat) (r : Z) : Z :=
  match bs with
  | [] => r
  | _ :: rest =>
    match skip with
    | S k => hextoi_loop rest k r
    | O =>
      let '(c, width) := decodeRune bs in
      hextoi_loop rest (Nat.pred width) (hexdigit_step r c)
    end
  end.

Definition hextoi (hex : string) : Z := hextoi_loop (bytes_of hex) 0 0.

(** ** [getBucketByKey] *)

(** [for bs > 1 { bucketWidth++; bs /= 2 }]: each round drops the lowest
    binary digit of [bs]. *)
Fixpoint bucketWidth_loop (bs : positive) : Z :=
  match bs with
  | xH => 0
  | xO q | xI q => 1 + bucketWidth_loop q
  end.

Definition bucketWidthOf (bs : Z) : Z :=
  match bs with
  | Zpos p => bucketWidth_loop p
  | _ => 0
  end.

(** [h >> s] for a [uint32] [h] and a [uint] count [s]: a count of 32 or
    more gives 0. *)
Definition shr32 (h s : Z) : Z := if s <? 32 then Z.shiftr h s else 0.

Definition getBucketByKey (hash_func : HashMethod) (bs : Z) (key : string) : Z :=
  let bucketWidth := bucketWidthOf bs in
  if (bucketWidth / 4 <? len key) && bool_decide (first_byte key = Some 64) then
    hextoi (substring 1 (Z.to_nat (bucketWidth / 4)) key)
  else
    let key :=
      if (1 <=? len key) && bool_decide (first_byte key = Some 63)
      then tail key else key in
    let h := hash_func key in
    shr32 h (uint64 (32 - bucketWidth)).

(** The base-16 reading of a digit string, byte by byte: the value the
    specification of the administrative override describes. *)
Definition hex_value (c : Z) : Z :=
  if in_range 48 57 c then c - 48
  else if in_range 65 70 c then c - 55
  else if in_range 97 102 c then c - 87
  else 0.

Definition base16 (s : string) : Z :=
  fold_left (fun acc c => acc * 16 + hex_value c) (bytes_of s) 0.

(** ** Library routines

    The Go standard library is outside the package; the routines the
    schedulers call are modelled from their documentation. *)

(** [fmt.Sprintf("%d", j)] for a non-negative [j]. *)
Definition itoa (j : nat) : string := NilEmpty.string_of_uint (Nat.to_uint j).

(** [fmt.Sprintf("%s-%d", h, j)]. *)
Definition Sprintf_s_d (h : string) (j : nat) : string := h ++ "-" ++ itoa j.

(** [strings.SplitN(s, sep, n)] and [bytes.SplitN(s, sep, n)] for a
    one-byte separator and [n >= 0]: at most [n] pieces, the last one the
    unsplit remainder. *)
Fixpoint SplitN (s : string) (sep : ascii) (n : nat) : list string :=
  match n with
  | O => []
  | S O => [s]
  | S ((S _) as n') =>
    match s with
    | EmptyString => [EmptyString]
    | String c r =>
      if Ascii.eqb c sep then EmptyString :: SplitN r sep n'
      else
        match SplitN r sep n with
        | hd :: tl => String c hd :: tl
        | [] => [String c EmptyString]
        end
    end
  end.

(** [bytes.Count(s, sep)] for a one-byte separator. *)
Fixpoint Count (s : string) (sep : ascii) : Z :=
  match s with
  | EmptyString => 0
  | String c r => (if Ascii.eqb c sep then 1 else 0) + Count r sep
  end.

(** [sort.Sort] on a [uint64Slice]: the data in ascending order. The keys
    are integers, so the ascending arrangement is unique and the sorting
    algorithm does not matter; insertion sort stands for it. *)
Fixpoint insert_sorted (x : Z) (l : list Z) : list Z :=
  match l with
  | [] => [x]
  | y :: t => if x <=? y then x :: l else y :: insert_sorted x t
  end.

Definition sort_Sort (l : list Z) : list Z := foldr insert_sorted [] l.

(** [sort.IsSorted] on a [uint64Slice]: no element is less than the one
    before it. *)
Fixpoint sort_IsSorted (l : list Z) : bool :=
  match l with
  | x :: ((y :: _) as t) => negb (y <? x) && sort_IsSorted t
  | _ => true
  end.

(** [sort.Search(n, f)]: binary search for the smallest index in [0, n)
    at which [f] is true, [n] if there is none:
    [i, j := 0, n; for i < j { h := int(uint(i+j) >> 1);
       if !f(h) { i = h + 1 } else { j = h } }; return i]. *)
Equations? Search_loop (f : nat -> result bool) (i j : nat) : result nat
  by wf (j - i)%nat lt :=
Search_loop f i j with decide (i < j)%nat := {
  | right _ => Ok i
  | left _ with f ((i + j) / 2)%nat := {
    | Panic p => Panic p
    | Ok false => Search_loop f ((i + j) / 2 + 1)%nat j
    | Ok true => Search_loop f i ((i + j) / 2)%nat } }.
Proof.
  all: change ((Nat.divmod (i + j) 1 0 1).1) with ((i + j) / 2)%nat;
       pose proof (Nat.div_mod_eq (i + j) 2);
       pose proof (Nat.mod_upper_bound (i + j) 2 ltac:(lia)); lia.
Qed.

Definition sort_Search (n : nat) (f : nat -> result bool) : result nat :=
  Search_loop f 0 n.

(** [strconv.ParseFloat(s, 64)] returns a value and an error; the pair
    keeps the value and whether the error is non-nil. *)
Definition ParseFloatFn : Type := string -> float * bool.

(** An instance of [ParseFloatFn] to run the model on. It reads the
    unsigned decimal integers of up to 18 digits (the counts a node
    reports) and answers any other text as a syntax error with value 0,
    which is what [strconv.ParseFloat] does for text such as ["abc"]; it
    does not cover signed, fractional or exponent forms. *)
Definition digit_of (c : ascii) : option Z :=
  let b := byte_of c in if in_range 48 57 b then Some (b - 48) else None.

Fixpoint parse_digits (s : string) (acc : Z) : option Z :=
  match s with
  | EmptyString => Some acc
  | String c r =>
    match digit_of c with
    | Some d => parse_digits r (acc * 10 + d)
    | None => None
    end
  end.

Definition parseDecimal : ParseFloatFn := fun s =>
  match s with
  | EmptyString => (0%float, true)
  | _ =>
    if (String.length s <=? 18)%nat then
      match parse_digits s 0 with
      | Some v => (PrimFloat.of_uint63 (Uint63.of_Z v), false)
      | None => (0%float, true)
      end
    else (0%float, true)
  end.

(** ** Hosts

    A [Host] is a connection handle; the schedulers use its address only. *)

Record Host : Type := { Addr : string }.

Definition NewHost (addr : string) : Host := {| Addr := addr |}.

(** [h % n] on [uint32]. *)
Definition urem32 (h n : Z) : result Z :=
  if n =? 0 then Panic DivideByZero else Ok (h mod n).

(** [rs[h] = append(rs[h], key)]. *)
Definition append_key (rs : list (list string)) (h : Z) (key : string)
  : result (list (list string)) :=
  g ← itemZ rs h; Ok (<[Z.to_nat h := (g ++ [key])%list]> rs).

(** The loop of the [DivideKeysByBucket] methods:
    [for _, key := range keys { h := owner(key); rs[h] = append(rs[h], key) }]. *)
Fixpoint group_keys (owner : string -> result Z) (keys : list string)
    (rs : list (list string)) : result (list (list string)) :=
  match keys with
  | [] => Ok rs
  | key :: keys' =>
    h ← owner key;
    rs' ← append_key rs h key;
    group_keys owner keys' rs'
  end.

(** ** ModScheduler *)

Record ModScheduler : Type := {
  mod_hosts : list Host;
  mod_hashMethod : HashMethod
}.

Definition NewModScheduler (hosts : list string) (hashMethod : HashMethod)
  : ModScheduler :=
  {| mod_hosts := map NewHost hosts; mod_hashMethod := hashMethod |}.

Definition ModScheduler_GetHostsByKey (c : ModScheduler) (key : string)
  : result (list Host) :=
  let h := mod_hashMethod c key in
  i ← urem32 h (uint32 (Z.of_nat (length (mod_hosts c))));
  r0 ← itemZ (mod_hosts c) i;
  Ok [r0].

Definition ModScheduler_DivideKeysByBucket (c : ModScheduler) (keys : list string)
  : result (list (list string)) :=
  let n := length (mod_hosts c) in
  group_keys
    (fun key => urem32 (mod_hashMethod c key) (uint32 (Z.of_nat n)))
    keys (replicate n []).

(** ** ConsistantHashScheduler *)

Record ConsistantHashScheduler : Type := {
  ch_hosts : list Host;
  ch_index : list Z;
  ch_hashMethod : HashMethod
}.

Definition VIRTUAL_NODES : nat := 100.

(** The body of the inner loop: the entry of virtual node [j] of host [i]. *)
Definition ring_entry (hashMethod : HashMethod) (i : nat) (h : string) (j : nat)
  : result Z :=
  let v := hashMethod (Sprintf_s_d h j) in
  let ps := SplitN h ":" 2 in
  host ← item ps 0;
  port ← item ps 1;
  let v := if String.eqb port "11211" then hashMethod (Sprintf_s_d host j) else v in
  Ok (uint64 (uint64 (Z.shiftl v 32) + uint64 (Z.of_nat i))).

(** [for j := 0; j < VIRTUAL_NODES; j++]: [count] rounds are left. *)
Fixpoint virtual_nodes (hashMethod : HashMethod) (i : nat) (h : string)
    (j count : nat) : result (list Z) :=
  match count with
  | O => Ok []
  | S count' =>
    e ← ring_entry hashMethod i h j;
    es ← virtual_nodes hashMethod i h (S j) count';
    Ok (e :: es)
  end.

(** [for i, h := range hosts]: the entries [index[i*VIRTUAL_NODES+j]] in
    the order of their positions. *)
Fixpoint ring_entries (hashMethod : HashMethod) (i : nat) (hosts : list string)
  : result (list Z) :=
  match hosts with
  | [] => Ok []
  | h :: rest =>
    es ← virtual_nodes hashMethod i h 0 VIRTUAL_NODES;
    more ← ring_entries hashMethod (S i) rest;
    Ok (es ++ more)%list
  end.

Definition NewConsistantHashScheduler (hosts : list string) (hashMethod : HashMethod)
  : result ConsistantHashScheduler :=
  idx ← ring_entries hashMethod 0 hosts;
  let idx := sort_Sort idx in
  if negb (sort_IsSorted idx) then Panic SortFailed
  else Ok {| ch_hosts := map NewHost hosts; ch_index := idx;
             ch_hashMethod := hashMethod |}.

Definition getHostIndex (c : ConsistantHashScheduler) (key : string) : result Z :=
  let h := uint64 (Z.shiftl (ch_hashMethod c key) 32) in
  let N := length (ch_index c) in
  i ← sort_Search N (fun k => e ← item (ch_index c) k; Ok (h <=? e));
  let i := if decide (i = N) then O else i in
  e ← item (ch_index c) i;
  Ok (Z.land e 4294967295).

Definition ConsistantHashScheduler_GetHostsByKey (c : ConsistantHashScheduler)
    (key : string) : result (list Host) :=
  i ← getHostIndex c key;
  r0 ← itemZ (ch_hosts c) i;
  Ok [r0].

Definition ConsistantHashScheduler_DivideKeysByBucket (c : ConsistantHashScheduler)
    (keys : list string) : result (list (list string)) :=
  let n := length (ch_hosts c) in
  group_keys (getHostIndex c) keys (replicate n []).

(** ** ManualScheduler

    [config] is a Go map; it is given as the list of its entries in the
    order in which the dispatch loop ranges over it. *)

Record ManualScheduler : Type := {
  man_hosts : list (string * Host);
  man_buckets : list (list string);
  man_hashMethod : HashMethod
}.

(** [if b >= count { count = b + 1 }] over all configured bucket numbers.
    [count] is an [int]; the sum is taken on unbounded integers here,
    which is exact for bucket numbers below [2 ^ 63 - 1]. *)
Definition bucket_count (config : list (string * list Z)) : Z :=
  fold_left
    (fun count entry =>
       fold_left (fun count b => if count <=? b then b + 1 else count)
                 (snd entry) count)
    config 1.

(** [for _, bi := range bs { c.buckets[bi] = append(c.buckets[bi], addr) }]. *)
Fixpoint dispatch_host (addr : string) (bs : list Z) (buckets : list (list string))
  : result (list (list string)) :=
  match bs with
  | [] => Ok buckets
  | bi :: bs' =>
    buckets' ← append_key buckets bi addr;
    dispatch_host addr bs' buckets'
  end.

Fixpoint dispatch (config : list (string * list Z)) (buckets : list (list string))
  : result (list (list string)) :=
  match config with
  | [] => Ok buckets
  | (addr, bs) :: config' =>
    buckets' ← dispatch_host addr bs buckets;
    dispatch config' buckets'
  end.

(** [fnv1a1], the hash method of the manual and auto schedulers, is a
    parameter. *)
Definition NewManualScheduler (fnv1a1 : HashMethod) (config : list (string * list Z))
  : result ManualScheduler :=
  let count := bucket_count config in
  buckets ← dispatch config (replicate (Z.to_nat count) []);
  Ok {| man_hosts := map (fun entry => (fst entry, NewHost (fst entry))) config;
        man_buckets := buckets;
        man_hashMethod := fnv1a1 |}.

(** [c.hosts[addr]]: [None] is the nil pointer of a missing key. *)
Fixpoint host_of (hosts : list (string * Host)) (addr : string) : option Host :=
  match hosts with
  | [] => None
  | (a, h) :: hosts' => if String.eqb a addr then Some h else host_of hosts' addr
  end.

(** [hs[i] = x] on a slice. *)
Definition store {A} (l : list A) (i : Z) (x : A) : result (list A) :=
  if (i <? 0) || (Z.of_nat (length l) <=? i) then Panic IndexOutOfRange
  else Ok (<[Z.to_nat i := x]> l).

(** [for j, addr := range c.buckets[i] { hs[(j+rnd)%N] = c.hosts[addr] }]. *)
Fixpoint place_hosts (hosts : list (string * Host)) (N rnd : Z) (j : nat)
    (addrs : list string) (hs : list (option Host)) : result (list (option Host)) :=
  match addrs with
  | [] => Ok hs
  | addr :: addrs' =>
    hs' ← store hs (Z.rem (Z.of_nat j + rnd) N) (host_of hosts addr);
    place_hosts hosts N rnd (S j) addrs' hs'
  end.

Definition ManualScheduler_GetHostsByKey (c : ManualScheduler) (key : string)
  : result (list (option Host)) :=
  let i := getBucketByKey (man_hashMethod c) (Z.of_nat (length (man_buckets c))) key in
  bucket ← itemZ (man_buckets c) i;
  let N := length bucket in
  let hs := replicate N None in
  rnd ← urem32 (man_hashMethod c key) (uint32 (Z.of_nat N));
  place_hosts (man_hosts c) (Z.of_nat N) rnd 0 bucket hs.

Definition divideKeysByBucket (hash_func : HashMethod) (bs : Z) (keys : list string)
  : result (list (list string)) :=
  if bs <? 0 then Panic MakeSliceLen
  else group_keys (fun key => Ok (getBucketByKey hash_func bs key)) keys
                  (replicate (Z.to_nat bs) []).

Definition ManualScheduler_DivideKeysByBucket (c : ManualScheduler)
    (keys : list string) : result (list (list string)) :=
  divideKeysByBucket (man_hashMethod c) (Z.of_nat (length (man_buckets c))) keys.

(** ** AutoScheduler

    [buckets[b]] is the preference sequence of bucket [b] (host indices,
    most preferred first) and [stats[b][h]] the weight of host [h] in
    bucket [b]. *)

Record AutoScheduler : Type := {
  auto_n : nat;
  auto_hosts : list Host;
  auto_buckets : list (list nat);
  auto_stats : list (list float);
  auto_hashMethod : HashMethod
}.

(** The state that the constructor builds before it starts the workers:
    [c.buckets[j][i] = i] and [c.stats[j][i] = 0]. *)
Definition NewAutoScheduler (fnv1a1 : HashMethod) (config : list string) (bs : Z)
  : result AutoScheduler :=
  if bs <? 0 then Panic MakeSliceLen
  else
    let n := length config in
    Ok {| auto_n := n;
          auto_hosts := map NewHost config;
          auto_buckets := replicate (Z.to_nat bs) (seq 0 n);
          auto_stats := replicate (Z.to_nat bs) (replicate n 0%float);
          auto_hashMethod := fnv1a1 |}.

Definition AutoScheduler_GetHostsByKey (c : AutoScheduler) (key : string)
  : result (list Host) :=
  let i := getBucketByKey (auto_hashMethod c) (Z.of_nat (length (auto_buckets c))) key in
  let cnt := length (auto_hosts c) in
  mapM (fun j =>
          bucket ← itemZ (auto_buckets c) i;
          h ← item bucket j;
          item (auto_hosts c) h)
       (seq 0 cnt).

Definition AutoScheduler_DivideKeysByBucket (c : AutoScheduler) (keys : list string)
  : result (list (list string)) :=
  divideKeysByBucket (auto_hashMethod c) (Z.of_nat (length (auto_buckets c))) keys.

(** [a[j], a[k] = a[k], a[j]]. *)
Definition swap (a : list nat) (j k : nat) : result (list nat) :=
  aj ← item a j;
  ak ← item a k;
  Ok (<[k := aj]> (<[j := ak]> a)).

(** A message of the feedback channel. [Feedback] sends one only for a
    host it knows, so [hostIndex] is not negative. *)
Record Feedback : Type := {
  hostIndex : nat;
  bucketIndex : nat;
  adjust : float
}.

(** The weight update of [feedback]. *)
Definition update_weight (old adjust : float) : float :=
  if (0 <=? adjust)%float then ((old + adjust) / 2)%float else (old + adjust)%float.

(** [for k = 0; k < len(c.hosts); k++ { if buckets[k] == i { break } }]:
    [rounds] is [len(c.hosts) - k]. *)
Fixpoint find_host (buckets : list nat) (i k rounds : nat) : result nat :=
  match rounds with
  | O => Ok k
  | S rounds' =>
    bk ← item buckets k;
    if decide (bk = i) then Ok k else find_host buckets i (S k) rounds'
  end.

(** [for k > 0 && stats[buckets[k]] > stats[buckets[k-1]]
       { swap(buckets, k, k-1); k-- }]. *)
Fixpoint bubble_left (stats : list float) (buckets : list nat) (k : nat)
  : result (list nat * nat) :=
  match k with
  | O => Ok (buckets, O)
  | S k' =>
    bk ← item buckets k;
    sk ← item stats bk;
    bk' ← item buckets k';
    sk' ← item stats bk';
    if (sk' <? sk)%float then
      buckets' ← swap buckets k k';
      bubble_left stats buckets' k'
    else Ok (buckets, k)
  end.

(** [for k < len(c.hosts)-1 && stats[buckets[k]] < stats[buckets[k+1]]
       { swap(buckets, k, k+1); k++ }]: [rounds] is [len(c.hosts) - 1 - k]. *)
Fixpoint bubble_right (stats : list float) (buckets : list nat) (k rounds : nat)
  : result (list nat * nat) :=
  match rounds with
  | O => Ok (buckets, k)
  | S rounds' =>
    bk ← item buckets k;
    sk ← item stats bk;
    bk' ← item buckets (S k);
    sk' ← item stats bk';
    if (sk <? sk')%float then
      buckets' ← swap buckets k (S k);
      bubble_right stats buckets' (S k) rounds'
    else Ok (buckets, k)
  end.

(** [feedback]. The slices [stats] and [buckets] alias [c.stats[index]]
    and [c.buckets[index]]: their updates are updates of [c]. *)
Definition feedback (c : AutoScheduler) (i index : nat) (adjust : float)
  : result AutoScheduler :=
  stats ← item (auto_stats c) index;
  old ← item stats i;
  let stats := <[i := update_weight old adjust]> stats in
  buckets ← item (auto_buckets c) index;
  k ← find_host buckets i 0 (length (auto_hosts c));
  new ← item stats i;
  '(buckets, _) ←
    (if (0 <? new - old)%float then bubble_left stats buckets k
     else bubble_right stats buckets k (length (auto_hosts c) - 1 - k));
  Ok {| auto_n := auto_n c;
        auto_hosts := auto_hosts c;
        auto_buckets := <[index := buckets]> (auto_buckets c);
        auto_stats := <[index := stats]> (auto_stats c);
        auto_hashMethod := auto_hashMethod c |}.

(** [procFeedback] applies the messages of the channel one at a time, in
    the order in which they were sent. *)
Fixpoint procFeedback (c : AutoScheduler) (msgs : list Feedback)
  : result AutoScheduler :=
  match msgs with
  | [] => Ok c
  | fb :: msgs' =>
    c' ← feedback c (hostIndex fb) (bucketIndex fb) (adjust fb);
    procFeedback c' msgs'
  end.

(** [listHost]: the calls [c.Feedback(host, key, adjust)] that one probe of
    [host] makes, as the list of their [(key, adjust)]. [response] is the
    body of the answer of [host.Get(dir)], [None] when the call failed or
    returned nothing. *)
Definition second_byte (s : string) : result Z :=
  match s with
  | String _ (String c _) => Ok (byte_of c)
  | _ => Panic IndexOutOfRange
  end.

Definition listHost_line (ParseFloat : ParseFloatFn) (dir line : string)
  : result (list (string * float)) :=
  if Count line " " <? 2 then Ok []
  else
    c1 ← second_byte line;
    if negb (c1 =? 47) then Ok []
    else
      let vv := SplitN line " " 3 in
      vv2 ← item vv 2;
      let cnt := fst (ParseFloat vv2) in
      let adjust := PrimFloat.sqrt cnt in
      vv0 ← item vv 0;
      Ok [((dir ++ vv0)%string, adjust)].

Fixpoint listHost_lines (ParseFloat : ParseFloatFn) (dir : string)
    (lines : list string) : result (list (string * float)) :=
  match lines with
  | [] => Ok []
  | line :: lines' =>
    calls ← listHost_line ParseFloat dir line;
    more ← listHost_lines ParseFloat dir lines';
    Ok (calls ++ more)%list
  end.

Definition listHost (ParseFloat : ParseFloatFn) (response : option string)
    (dir : string) : result (list (string * float)) :=
  match response with
  | None => Ok []
  | Some body => listHost_lines ParseFloat dir (SplitN body "010"%char 17)
  end.

(** ** Ranking *)

Definition weight (stats : list float) (h : nat) : float := nth h stats nan.

(** [ws] is in descending order: no element is followed by one that is
    not less than or equal to it. *)
Fixpoint descending (ws : list float) : bool :=
  match ws with
  | a :: ((b :: _) as t) => (b <=? a)%float && descending t
  | _ => true
  end.

(** The preference sequence [bucket] is sorted by descending weight. *)
Definition ranked (stats : list float) (bucket : list nat) : bool :=
  descending (map (weight stats) bucket).

Definition nan_free (stats : list float) : Prop :=
  Forall (fun w => is_nan w = false) stats.

(** The shape of the state of an [AutoScheduler] with [n] hosts: every
    bucket lists each host index once and has one weight per host. *)
Definition well_formed (c : AutoScheduler) : Prop :=
  length (auto_buckets c) = length (auto_stats c) /\
  Forall (fun b => Permutation b (seq 0 (length (auto_hosts c)))) (auto_buckets c) /\
  Forall (fun s => length s = length (auto_hosts c)) (auto_stats c).

Definition all_ranked (c : AutoScheduler) : Prop :=
  Forall2 (fun s b => ranked s b = true) (auto_stats c) (auto_buckets c).

Definition all_nan_free (c : AutoScheduler) : Prop :=
  Forall nan_free (auto_stats c).

(** A message for a host and a bucket of the scheduler, with an adjustment
    that is a finite number (neither NaN nor an infinity). *)
Definition valid_message (c : AutoScheduler) (fb : Feedback) : Prop :=
  (hostIndex fb < length (auto_hosts c))%nat /\
  (bucketIndex fb < length (auto_buckets c))%nat /\
  is_finite (adjust fb) = true.

(** * Vocabulary of the statements

    What the theorems below talk about: the entries of the ring as the
    specification describes them, the order of hosts by weight, and the
    sample inputs on which the statements are run. *)

(** A key whose override digits hold a two-byte rune: ["@1é2"], the bytes
    [40 31 C3 A9 32]. *)
Definition two_byte_key : string :=
  String "@" (String "1" (String "195" (String "169" "2"))).

#[global] Instance panic_eq_dec : EqDecision panic.
Proof. solve_decision. Defined.

#[global] Instance result_eq_dec {A} `{EqDecision A} : EqDecision (result A).
Proof. solve_decision. Defined.

(** An address of the form [host:port]. *)
Definition has_colon (h : string) : Prop := 0 < Count h ":".

(** The address of the host [fst p] at the port [snd p]. *)
Definition address (p : string * string) : string := fst p ++ String ":" (snd p).

(** The string that is hashed for virtual node [j] of the host [p]: the
    bare host name when the port is the default one, the address
    otherwise. *)
Definition vnode_name (p : string * string) (j : nat) : string :=
  Sprintf_s_d (if String.eqb (snd p) "11211" then fst p else address p) j.

(** [(uint64(v) << 32) + uint64(i)]. *)
Definition packed (v : Z) (i : nat) : Z :=
  uint64 (uint64 (Z.shiftl v 32) + uint64 (Z.of_nat i)).

(** The entries of the virtual nodes [j], ..., [j + count - 1] of host [i],
    and the entries of all hosts from index [i] on. *)
Definition host_ring (hashMethod : HashMethod) (i : nat) (p : string * string)
  (j count : nat) : list Z :=
  map (fun j => packed (hashMethod (vnode_name p j)) i) (seq j count).

Fixpoint ring_from (hashMethod : HashMethod) (i : nat) (ps : list (string * string))
  : list Z :=
  match ps with
  | [] => []
  | p :: ps' => (host_ring hashMethod i p 0 VIRTUAL_NODES ++ ring_from hashMethod (S i) ps')%list
  end.

(** The test of the binary search of [getHostIndex]. *)
Definition ring_probe (l : list Z) (h : Z) (k : nat) : result bool :=
  e ← item l k; Ok (h <=? e).

(** The low 32 bits of the first ring entry at or above [h], the entry at
    index 0 when there is none. *)
Definition ring_owner (l : list Z) (h : Z) : result Z :=
  match find (fun e => h <=? e) l with
  | Some e => Ok (Z.land e 4294967295)
  | None => e0 ← item l 0; Ok (Z.land e0 4294967295)
  end.

(** Sample inputs. *)
Definition sample_hosts : list string := ["a:11211"; "b:11211"; "c:7900"].
Definition sample_keys : list string := ["k1"; "k2"; "k3"; "k4"; "k5"].

(** The hosts of [sample_hosts], each as its name and its port. *)
Definition sample_addresses : list (string * string) :=
  [("a", "11211"); ("b", "11211"); ("c", "7900")].

(** The lines of a response body, joined by newlines. *)
Fixpoint join_lines (ls : list string) : string :=
  match ls with
  | [] => EmptyString
  | [l] => l
  | l :: ls' => (l ++ String "010" (join_lines ls'))%string
  end.

(** A record [name flags count]. *)
Definition record (name flags count : string) : string :=
  (name ++ String " " (flags ++ String " " count))%string.

Definition sample_body : string :=
  join_lines ["0/ 1 16"; "1/ 3 x"; "short"; "2/ 4 25"]%string.

Section RankingVocabulary.

Local Open Scope nat_scope.
Local Open Scope list_scope.

(** Host [a] has at least the weight of host [b]. *)
Definition outranks (stats : list float) (a b : nat) : Prop :=
  (weight stats b <=? weight stats a)%float = true.

(** The sequence that the loops leave: [i] moved left past [L2] when its
    weight went up ([up = true]), right past [R1] otherwise. *)
Inductive reranked (stats : list float) (i : nat) (L R : list nat)
  : bool -> list nat -> Prop :=
| moved_left L1 L2 :
    L = L1 ++ L2 ->
    Forall (fun h => (weight stats h <? weight stats i)%float = true) L2 ->
    (forall L1' x, L1 = L1' ++ [x] ->
       (weight stats x <? weight stats i)%float = false) ->
    reranked stats i L R true (L1 ++ i :: L2 ++ R)
| moved_right R1 R2 :
    R = R1 ++ R2 ->
    Forall (fun h => (weight stats i <? weight stats h)%float = true) R1 ->
    (forall y R2', R2 = y :: R2' ->
       (weight stats i <? weight stats y)%float = false) ->
    reranked stats i L R false (L ++ R1 ++ i :: R2).

(** The message [(i, b, a)]. *)
Definition message (i b : nat) (a : float) : Feedback :=
  {| hostIndex := i; bucketIndex := b; adjust := a |}.

Definition three_hosts : list string := ["a:11211"; "b:11211"; "c:11211"].
Definition two_hosts : list string := ["a:11211"; "b:11211"].

(** The buckets and weights after [msgs] are drained from the initial
    state of [hosts] with [bs] buckets. *)
Definition drained (hosts : list string) (bs : Z) (msgs : list Feedback)
  : result (list (list nat) * list (list float)) :=
  c0 ← NewAutoScheduler fnv1a hosts bs;
  c' ← procFeedback c0 msgs;
  Ok (auto_buckets c', auto_stats c').

Definition sample_messages : list Feedback :=
  [message 1 0 16%float; message 0 0 20%float; message 2 1 9%float;
   message 0 0 (-30)%float; message 1 0 2%float].

Definition sample_state : AutoScheduler :=
  {| auto_n := 3;
     auto_hosts := map NewHost three_hosts;
     auto_buckets := [[0; 1; 2]; [0; 1; 2]];
     auto_stats := [[0; 0; 0]%float; [0; 0; 0]%float];
     auto_hashMethod := fnv1a |}.

End RankingVocabulary.

(** * Further routines of the package

    The routines of the schedulers that the sections above leave out:
    [abs], the [Stats] methods, [hostIndex], the [Feedback] method of the
    auto scheduler and the probing loop of [check]. *)

(** ** [abs] *)

Definition abs (x : float) : float :=
  if (x <? 0)%float then (- x)%float else x.

(** ** The [Stats] methods

    A [map[string][]float64] is the function from a key to the slice
    stored under it, [None] for a key that is absent: indexing the map
    with an absent key gives the nil slice. *)

Definition StatsMap : Type := string -> option (list float).

(** [make(map[string][]float64)]. *)
Definition stats_empty : StatsMap := fun _ => None.

(** [r[addr] = v]. *)
Definition stats_set (r : StatsMap) (addr : string) (v : list float) : StatsMap :=
  fun a => if String.eqb a addr then Some v else r a.

(** [r[addr][i] = w]: the slice under [addr] is written in place; in the
    nil slice of an absent key every index is out of range. *)
Definition stats_store (r : StatsMap) (addr : string) (i : nat) (w : float)
  : result StatsMap :=
  match r addr with
  | Some v =>
    if decide (i < length v)%nat then Ok (stats_set r addr (<[i := w]> v))
    else Panic IndexOutOfRange
  | None => Panic IndexOutOfRange
  end.

(** [for i, h := range c.hosts
       { r[h.Addr] = make([]float64, len(c.hosts)); r[h.Addr][i] = 1 }],
    from index [i] on; [n] is [len(c.hosts)]. *)
Fixpoint ModScheduler_Stats_loop (n : nat) (hosts : list Host) (i : nat)
    (r : StatsMap) : result StatsMap :=
  match hosts with
  | [] => Ok r
  | h :: hosts' =>
    let r := stats_set r (Addr h) (replicate n 0%float) in
    r ← stats_store r (Addr h) i 1%float;
    ModScheduler_Stats_loop n hosts' (S i) r
  end.

Definition ModScheduler_Stats (c : ModScheduler) : result StatsMap :=
  ModScheduler_Stats_loop (length (mod_hosts c)) (mod_hosts c) 0 stats_empty.

(** [for _, h := range hs { r[h][i] = 1 }]. *)
Fixpoint mark_hosts (i : nat) (hs : list string) (r : StatsMap) : result StatsMap :=
  match hs with
  | [] => Ok r
  | h :: hs' => r' ← stats_store r h i 1%float; mark_hosts i hs' r'
  end.

(** [for i, hs := range c.buckets { ... }], from bucket [i] on. *)
Fixpoint mark_buckets (buckets : list (list string)) (i : nat) (r : StatsMap)
  : result StatsMap :=
  match buckets with
  | [] => Ok r
  | hs :: buckets' => r' ← mark_hosts i hs r; mark_buckets buckets' (S i) r'
  end.

(** [for ... { r[addr] = make([]float64, n) }] over the addresses [addrs]:
    every address gets a fresh vector of [n] zeros. *)
Definition zero_rows (addrs : list string) (n : nat) : StatsMap :=
  foldl (fun r addr => stats_set r addr (replicate n 0%float)) stats_empty addrs.

(** The first loop ranges over the keys of the map [c.hosts]; they are
    distinct, so the order of the range does not matter. *)
Definition ManualScheduler_Stats (c : ManualScheduler) : result StatsMap :=
  let r := zero_rows (map fst (man_hosts c)) (length (man_buckets c)) in
  mark_buckets (man_buckets c) 0 r.

(** [for j, w := range st { r[c.hosts[j].Addr][i] = w }], from host [j]
    on. *)
Fixpoint copy_weights (hosts : list Host) (i : nat) (st : list float) (j : nat)
    (r : StatsMap) : result StatsMap :=
  match st with
  | [] => Ok r
  | w :: st' =>
    h ← item hosts j;
    r' ← stats_store r (Addr h) i w;
    copy_weights hosts i st' (S j) r'
  end.

(** [for i, st := range c.stats { ... }], from bucket [i] on. *)
Fixpoint copy_stats (hosts : list Host) (stats : list (list float)) (i : nat)
    (r : StatsMap) : result StatsMap :=
  match stats with
  | [] => Ok r
  | st :: stats' =>
    r' ← copy_weights hosts i st 0 r;
    copy_stats hosts stats' (S i) r'
  end.

(** The first loop gives the address of every host a vector of
    [len(c.buckets)] zeros, the second copies the weights. *)
Definition AutoScheduler_Stats (c : AutoScheduler) : result StatsMap :=
  let r := zero_rows (map Addr (auto_hosts c)) (length (auto_buckets c)) in
  copy_stats (auto_hosts c) (auto_stats c) 0 r.

(** ** [hostIndex] and the [Feedback] method

    [c.hosts] holds pointers and [h == host] compares pointers, not the
    hosts they point to. [P] is the type of the pointers; the methods read
    the pointers held in [c.hosts] as the list [hosts]. *)

Section HostPointers.

Context {P : Type} `{EqDecision P}.

(** [for i, h := range c.hosts { if h == host { return i } }; return -1],
    from index [i] on. *)
Fixpoint hostIndex_from (hosts : list P) (host : P) (i : Z) : Z :=
  match hosts with
  | [] => -1
  | h :: hosts' =>
    if decide (h = host) then i else hostIndex_from hosts' host (i + 1)
  end.

Definition AutoScheduler_hostIndex (hosts : list P) (host : P) : Z :=
  hostIndex_from hosts host 0.

(** The [Feedback] method: the fields [(hostIndex, bucketIndex, adjust)]
    of the message that it sends to the feedback channel, [None] when it
    returns without sending. The send itself, which waits while the
    channel is full, is not part of the model. *)
Definition AutoScheduler_Feedback (c : AutoScheduler) (hosts : list P)
    (host : P) (key : string) (adjust : float) : option (Z * Z * float) :=
  let index := getBucketByKey (auto_hashMethod c)
                 (Z.of_nat (length (auto_buckets c))) key in
  let i := AutoScheduler_hostIndex hosts host in
  if i <? 0 then None else Some (i, index, adjust).

End HostPointers.

(** ** The probing loop of [check] *)

Definition int64 (z : Z) : Z := (z + 2 ^ 63) mod 2 ^ 64 - 2 ^ 63.

(** [1 << s] on [int] for a [uint] count [s]: a count of 64 or more gives
    0. *)
Definition shl1 (s : Z) : Z := if s <? 64 then int64 (Z.shiftl 1 s) else 0.

(** The digit [d] of [%x]. *)
Definition hex_digit (d : Z) : ascii :=
  ascii_of_N (Z.to_N (if d <? 10 then 48 + d else 87 + d)).

(** The base-16 digits of [i >= 0], most significant first, in front of
    [acc]; [fuel] bounds the number of digits. *)
Fixpoint hex_digits (fuel : nat) (i : Z) (acc : string) : string :=
  match fuel with
  | O => acc
  | S fuel' =>
    let acc := String (hex_digit (i mod 16)) acc in
    if i <? 16 then acc else hex_digits fuel' (i / 16) acc
  end.

(** [fmt.Sprintf("%x", i)] for [i >= 0]. *)
Definition hex (i : Z) : string :=
  hex_digits (S (Z.to_nat (Z.log2 i))) i EmptyString.

(** Padding with zeros on the left up to the width [w]. *)
Fixpoint zeros (n : nat) (s : string) : string :=
  match n with
  | O => s
  | S n' => String "0" (zeros n' s)
  end.

(** [fmt.Sprintf(format, i)] for [format = fmt.Sprintf("@%%0%dx", w)],
    that is ["@%0<w>x"], [w >= 1] and [i >= 0]: an ['@'] and the
    hexadecimal digits of [i], padded with zeros to at least [w] digits. *)
Definition Sprintf_at_0x (w : Z) (i : Z) : string :=
  let digits := hex i in
  String "@" (zeros (Z.to_nat w - String.length digits) digits).

(** The directories that [check] probes on each host, in order. *)
Definition check_dirs (bs : Z) : list string :=
  let bucketWidth := bucketWidthOf bs in
  let count := shl1 (uint64 (bucketWidth - 4)) in
  let w := bucketWidth / 4 - 1 in
  if w <? 1 then ["@"]
  else map (fun i => Sprintf_at_0x w (Z.of_nat i)) (seq 0 (Z.to_nat count)).

Section Probing.

Context {P : Type} `{EqDecision P}.

(** What [check] sends to the feedback channel for one host: for every
    probed directory, the messages of the [Feedback] calls that [listHost]
    makes on the answer [Get dir] of the host. *)
Fixpoint check_host (ParseFloat : ParseFloatFn) (c : AutoScheduler)
    (hosts : list P) (host : P) (Get : string -> option string)
    (dirs : list string) : result (list (Z * Z * float)) :=
  match dirs with
  | [] => Ok []
  | dir :: dirs' =>
    calls ← listHost ParseFloat (Get dir) dir;
    more ← check_host ParseFloat c hosts host Get dirs';
    Ok (omap (fun call => AutoScheduler_Feedback c hosts host (fst call) (snd call))
             calls ++ more)%list
  end.

(** [for _, host := range c.hosts { ... }] over the hosts from position
    [k] on; [Get k dir] is the answer of the host at position [k] to the
    probe of [dir]. *)
Fixpoint check_hosts (ParseFloat : ParseFloatFn) (c : AutoScheduler)
    (hosts : list P) (Get : nat -> string -> option string)
    (k : nat) (rest : list P) : result (list (Z * Z * float)) :=
  match rest with
  | [] => Ok []
  | host :: rest' =>
    msgs ← check_host ParseFloat c hosts host (Get k)
             (check_dirs (Z.of_nat (length (auto_buckets c))));
    more ← check_hosts ParseFloat c hosts Get (S k) rest';
    Ok (msgs ++ more)%list
  end.

(** The messages of one run of [check]. *)
Definition check (ParseFloat : ParseFloatFn) (c : AutoScheduler)
    (hosts : list P) (Get : nat -> string -> option string)
  : result (list (Z * Z * float)) :=
  check_hosts ParseFloat c hosts Get 0 hosts.

End Probing.

(** ** Vocabulary of the statements about the further routines *)

#[global] Instance string_eq_dec : EqDecision string := string_dec.

(** The bucket numbers of a configuration, in the order of the dispatch
    loop. *)
Definition bucket_numbers (config : list (string * list Z)) : list Z :=
  flat_map snd config.

(** The addresses that a configuration assigns to bucket [b], in the order
    of the dispatch loop: the address of an entry once for every
    occurrence of [b] among its bucket numbers. *)
Definition assigned (config : list (string * list Z)) (b : Z) : list string :=
  flat_map (fun entry => map (fun _ => fst entry) (filter (fun bi => bi = b) (snd entry)))
           config.

(** A message [(hostIndex, bucketIndex, adjust)] that names a host and a
    bucket of the scheduler. *)
Definition sendable (c : AutoScheduler) (m : Z * Z * float) : Prop :=
  0 <= fst (fst m) < Z.of_nat (length (auto_hosts c)) /\
  0 <= snd (fst m) < Z.of_nat (length (auto_buckets c)).

(** The message as the feedback worker receives it. *)
Definition received (m : Z * Z * float) : Feedback :=
  {| hostIndex := Z.to_nat (fst (fst m));
     bucketIndex := Z.to_nat (snd (fst m));
     adjust := snd m |}.

(** [e] is the entry of the ring [l] that serves the point [h]: the least
    entry at or above [h], or the least entry of all when no entry is at
    or above [h]. *)
Definition serves (l : list Z) (h e : Z) : Prop :=
  e ∈ l /\
  ((h <= e /\ forall e', e' ∈ l -> h <= e' -> e <= e') \/
   ((forall e', e' ∈ l -> e' < h) /\ forall e', e' ∈ l -> e <= e')).

(** * Facts about binary64 arithmetic

    The operations of [float] are specified by [SpecFloat] (the axioms of
    [FloatAxioms] relate the two). What the ranking needs is proved on
    [spec_float] and carried over. *)

Module Float64.
Definition sf_nan (x : spec_float) : bool :=
  match x with S754_nan => true | _ => false end.

(** *** The order of [SFcompare] *)

Lemma compare_cont_Eq p q : Pos.compare_cont Eq p q = (p ?= q)%positive.
Proof. reflexivity. Qed.

Lemma SFcompare_antisym x y :
  SFcompare y x = option_map CompOpp (SFcompare x y).
Proof.
  destruct x as [sx|sx| |sx mx ex], y as [sy|sy| |sy my ey]; simpl;
    try destruct sx; try destruct sy; simpl; try reflexivity.
  all: rewrite !compare_cont_Eq, (Z.compare_antisym ex ey), (Pos.compare_antisym mx my).
  all: destruct (ex ?= ey); simpl; try reflexivity.
  all: destruct (mx ?= my)%positive; reflexivity.
Qed.

Lemma SFltb_negb_leb x y :
  sf_nan x = false -> sf_nan y = false -> SFltb x y = negb (SFleb y x).
Proof.
  intros Hx Hy. unfold SFltb, SFleb. rewrite (SFcompare_antisym x y).
  destruct (SFcompare x y) as [[]|] eqn:E; simpl; try reflexivity.
  destruct x, y; simpl in *; try discriminate.
Qed.

Lemma SFleb_not_nan x y : SFleb x y = true -> sf_nan x = false /\ sf_nan y = false.
Proof. destruct x, y; simpl; try discriminate; auto. Qed.

Lemma SFltb_not_nan x y : SFltb x y = true -> sf_nan x = false /\ sf_nan y = false.
Proof. destruct x, y; simpl; try discriminate; auto. Qed.

Lemma SFltb_leb x y : SFltb x y = true -> SFleb x y = true.
Proof. unfold SFltb, SFleb. destruct (SFcompare x y) as [[]|]; congruence. Qed.

(** Case analysis on every comparison of exponents and mantissas. *)
Ltac cmp_cases :=
  repeat match goal with
  | |- context [Pos.compare_cont Eq ?p ?q] => rewrite (compare_cont_Eq p q)
  | H : context [Pos.compare_cont Eq ?p ?q] |- _ => rewrite (compare_cont_Eq p q) in H
  end;
  repeat match goal with
  | |- context [(?a ?= ?b)%Z] => destruct (Z.compare_spec a b)
  | H : context [(?a ?= ?b)%Z] |- _ => destruct (Z.compare_spec a b)
  | |- context [(?a ?= ?b)%positive] => destruct (Pos.compare_spec a b)
  | H : context [(?a ?= ?b)%positive] |- _ => destruct (Pos.compare_spec a b)
  end; simpl in *; try congruence; try lia.

Lemma SFleb_trans x y z :
  SFleb x y = true -> SFleb y z = true -> SFleb x z = true.
Proof.
  unfold SFleb.
  destruct x as [sx|sx| |sx mx ex], y as [sy|sy| |sy my ey], z as [sz|sz| |sz mz ez];
    simpl; try discriminate; try reflexivity;
    try destruct sx; try destruct sy; try destruct sz; simpl;
    try discriminate; try reflexivity; intros H1 H2; cmp_cases.
Qed.


Lemma digits2_pos_bounds p :
  2 ^ (Zpos (digits2_pos p) - 1) <= Zpos p < 2 ^ Zpos (digits2_pos p).
Proof.
  induction p as [p IH|p IH|]; simpl digits2_pos.
  - rewrite Pos2Z.inj_succ.
    replace (Z.succ (Z.pos (digits2_pos p)) - 1) with (Z.succ (Z.pos (digits2_pos p) - 1)) by lia.
    rewrite !Z.pow_succ_r by lia. lia.
  - rewrite Pos2Z.inj_succ.
    replace (Z.succ (Z.pos (digits2_pos p)) - 1) with (Z.succ (Z.pos (digits2_pos p) - 1)) by lia.
    rewrite !Z.pow_succ_r by lia. lia.
  - simpl. lia.
Qed.

(** What [bounded] says for binary64. *)
Lemma bounded_inv m e :
  bounded prec emax m e = true ->
  -1074 <= e <= 971 /\ Zpos (digits2_pos m) <= 53 /\
  (-1074 < e -> Zpos (digits2_pos m) = 53).
Proof.
  unfold bounded, canonical_mantissa, fexp, SpecFloat.emin, prec, emax.
  intros H. apply andb_prop in H as [H1 H2].
  apply Z.eqb_eq in H1. apply Z.leb_le in H2. lia.
Qed.

Lemma iter_xO_pow m d : Zpos (Pos.iter xO m d) = Zpos m * 2 ^ Zpos d.
Proof.
  revert m. induction d using Pos.peano_ind; intros m.
  - simpl. lia.
  - rewrite Pos.iter_succ, Pos2Z.inj_succ, Z.pow_succ_r by lia.
    rewrite Pos2Z.inj_xO, IHd. lia.
Qed.

Lemma shl_align_fst mx ex ez :
  ez <= ex -> Zpos (fst (shl_align mx ex ez)) = Zpos mx * 2 ^ (ex - ez).
Proof.
  intros H. unfold shl_align.
  destruct (ez - ex) as [|d|d] eqn:E; simpl.
  - replace (ex - ez) with 0 by lia. rewrite Z.pow_0_r. lia.
  - lia.
  - rewrite iter_xO_pow. replace (ex - ez) with (Zpos d) by lia. reflexivity.
Qed.

Lemma shl_align_snd mx ex ez :
  snd (shl_align mx ex ez) = Z.min ex ez.
Proof.
  unfold shl_align. destruct (ez - ex) as [|d|d] eqn:E; simpl; lia.
Qed.

(** [shr_1] halves a non-negative mantissa. *)
Lemma shr_1_m mrs : 0 <= shr_m mrs -> shr_m (shr_1 mrs) = shr_m mrs / 2.
Proof.
  destruct mrs as [m r s]. simpl. intros Hm.
  destruct m as [|[p|p|]|p]; simpl; try reflexivity; try lia.
  - rewrite Pos2Z.inj_xI. Z.div_mod_to_equations. lia.
  - rewrite Pos2Z.inj_xO. Z.div_mod_to_equations. lia.
Qed.

Lemma iter_shr_1_m p : forall mrs,
  0 <= shr_m mrs -> shr_m (SpecFloat.iter_pos shr_1 p mrs) = shr_m mrs / 2 ^ Zpos p.
Proof.
  induction p as [p IH|p IH|]; intros mrs Hm; simpl SpecFloat.iter_pos.
  - assert (H1 : 0 <= shr_m (shr_1 mrs)).
    { rewrite shr_1_m by assumption. apply Z.div_pos; lia. }
    assert (H2 : 0 <= shr_m (SpecFloat.iter_pos shr_1 p (shr_1 mrs))).
    { rewrite IH by assumption. apply Z.div_pos; lia. }
    rewrite IH, IH, shr_1_m by assumption.
    rewrite !Z.div_div by lia.
    f_equal.
    replace (Z.pos p~1) with (1 + Z.pos p + Z.pos p) by lia.
    rewrite !Z.pow_add_r by lia. ring.
  - assert (H2 : 0 <= shr_m (SpecFloat.iter_pos shr_1 p mrs)).
    { rewrite IH by assumption. apply Z.div_pos; lia. }
    rewrite IH, IH by assumption.
    rewrite !Z.div_div by lia.
    f_equal.
    replace (Z.pos p~0) with (Z.pos p + Z.pos p) by lia.
    rewrite Z.pow_add_r by lia. ring.
  - rewrite shr_1_m by assumption. reflexivity.
Qed.

Lemma shr_record_of_loc_m m l : shr_m (shr_record_of_loc m l) = m.
Proof. destruct l as [|[]]; reflexivity. Qed.

Lemma Zdigits2_bounds m :
  0 < m -> 2 ^ (Zdigits2 m - 1) <= m < 2 ^ Zdigits2 m /\ 0 < Zdigits2 m.
Proof.
  destruct m as [|p|p]; try lia. intros _. simpl. split; [apply digits2_pos_bounds | lia].
Qed.

(** Rounding a positive mantissa whose exponent is at least [emin] neither
    loses it nor goes below [emin]. *)
Lemma shr_fexp_pos m e l :
  0 < m -> -1074 <= e ->
  0 < shr_m (fst (shr_fexp prec emax m e l)) /\
  -1074 <= snd (shr_fexp prec emax m e l).
Proof.
  intros Hm He. unfold shr_fexp, shr, fexp, SpecFloat.emin, prec, emax.
  destruct (Zdigits2_bounds m Hm) as [[Hlo Hhi] Hd].
  set (d := Zdigits2 m) in *.
  destruct (Z.max (d + e - 53) (3 - 1024 - 53) - e) as [|n|n] eqn:En; simpl;
    rewrite ?shr_record_of_loc_m; try (split; lia).
  rewrite iter_shr_1_m by (rewrite shr_record_of_loc_m; lia).
  rewrite shr_record_of_loc_m. split; [|lia].
  assert (Hn : Zpos n <= d - 1) by lia.
  apply Z.div_str_pos. split; [lia|].
  apply Z.le_trans with (2 ^ (d - 1)); [|assumption].
  apply Z.pow_le_mono_r; lia.
Qed.

Lemma shr_fexp_nonneg m e l :
  0 <= m -> 0 <= shr_m (fst (shr_fexp prec emax m e l)).
Proof.
  intros Hm. unfold shr_fexp, shr.
  destruct (fexp prec emax (Zdigits2 m + e) - e) as [|n|n]; simpl;
    rewrite ?shr_record_of_loc_m; try lia.
  rewrite iter_shr_1_m by (rewrite shr_record_of_loc_m; lia).
  rewrite shr_record_of_loc_m. apply Z.div_pos; lia.
Qed.

Lemma round_nearest_even_ge m l : m <= round_nearest_even m l.
Proof. destruct l as [|[]]; simpl; try lia. destruct (Z.even m); lia. Qed.

Definition signed_number (s : bool) (x : spec_float) : Prop :=
  match x with
  | S754_finite s' _ _ | S754_infinity s' => s' = s
  | _ => False
  end.

Lemma binary_round_aux_signed s m e l :
  0 < m -> -1074 <= e -> signed_number s (binary_round_aux prec emax s m e l).
Proof.
  intros Hm He. unfold binary_round_aux.
  pose proof (shr_fexp_pos m e l Hm He) as [H1 H2].
  destruct (shr_fexp prec emax m e l) as [mrs' e'] eqn:E1. simpl in H1, H2.
  pose proof (round_nearest_even_ge (shr_m mrs') (loc_of_shr_record mrs')) as Hr.
  set (m2 := round_nearest_even (shr_m mrs') (loc_of_shr_record mrs')) in *.
  pose proof (shr_fexp_pos m2 e' loc_Exact ltac:(lia) H2) as [H3 H4].
  destruct (shr_fexp prec emax m2 e' loc_Exact) as [mrs'' e''] eqn:E2. simpl in H3, H4.
  destruct (shr_m mrs'') as [|p|p]; try lia.
  destruct (e'' <=? emax - prec); reflexivity.
Qed.

Lemma binary_round_aux_not_nan s m e l :
  0 <= m -> binary_round_aux prec emax s m e l <> S754_nan.
Proof.
  intros Hm. unfold binary_round_aux.
  pose proof (shr_fexp_nonneg m e l Hm) as H1.
  destruct (shr_fexp prec emax m e l) as [mrs' e'] eqn:E1. simpl in H1.
  pose proof (round_nearest_even_ge (shr_m mrs') (loc_of_shr_record mrs')) as Hr.
  set (m2 := round_nearest_even (shr_m mrs') (loc_of_shr_record mrs')) in *.
  pose proof (shr_fexp_nonneg m2 e' loc_Exact ltac:(lia)) as H3.
  destruct (shr_fexp prec emax m2 e' loc_Exact) as [mrs'' e''] eqn:E2. simpl in H3.
  destruct (shr_m mrs'') as [|p|p]; try lia; try discriminate.
  destruct (e'' <=? emax - prec); discriminate.
Qed.

Lemma binary_round_signed s m e :
  -1074 <= e -> signed_number s (binary_round prec emax s m e).
Proof.
  intros He. unfold binary_round.
  pose proof (shl_align_snd m e (fexp prec emax (Zpos (digits2_pos m) + e))) as Hs.
  destruct (shl_align m e (fexp prec emax (Z.pos (digits2_pos m) + e))) as [mz ez].
  simpl in Hs. apply binary_round_aux_signed; [lia|].
  subst ez. unfold fexp, SpecFloat.emin, prec, emax. lia.
Qed.

Lemma binary_round_not_nan s m e : binary_round prec emax s m e <> S754_nan.
Proof.
  unfold binary_round.
  destruct (shl_align m e (fexp prec emax (Z.pos (digits2_pos m) + e))) as [mz ez].
  apply binary_round_aux_not_nan. lia.
Qed.

Lemma binary_normalize_not_nan m e sz : binary_normalize prec emax m e sz <> S754_nan.
Proof. destruct m; simpl; [discriminate | apply binary_round_not_nan..]. Qed.

(** The sign of a normalised number is the sign of its mantissa. *)
Lemma binary_normalize_pos m e :
  -1074 <= e ->
  SFltb (S754_zero false) (binary_normalize prec emax m e false) = (0 <? m).
Proof.
  intros He. destruct m as [|p|p]; simpl binary_normalize.
  - reflexivity.
  - pose proof (binary_round_signed false p e He) as H.
    destruct (binary_round prec emax false p e) as [| | |]; simpl in *; try contradiction; subst; reflexivity.
  - pose proof (binary_round_signed true p e He) as H.
    destruct (binary_round prec emax true p e) as [| | |]; simpl in *; try contradiction; subst; reflexivity.
Qed.


(** *** Comparison of valid numbers through aligned mantissas *)

Lemma aligned_compare m1 e1 m2 e2 :
  bounded prec emax m1 e1 = true -> bounded prec emax m2 e2 = true ->
  (Zpos m1 * 2 ^ (e1 - Z.min e1 e2) ?= Zpos m2 * 2 ^ (e2 - Z.min e1 e2)) =
  match e1 ?= e2 with
  | Lt => Lt
  | Gt => Gt
  | Eq => (m1 ?= m2)%positive
  end.
Proof.
  intros B1 B2.
  apply bounded_inv in B1 as (He1 & Hd1 & Hn1), B2 as (He2 & Hd2 & Hn2).
  pose proof (digits2_pos_bounds m1) as [Lo1 Hi1].
  pose proof (digits2_pos_bounds m2) as [Lo2 Hi2].
  assert (P53 : forall d, d <= 53 -> 2 ^ d <= 2 ^ 53)
    by (intros; apply Z.pow_le_mono_r; lia).
  destruct (Z.compare_spec e1 e2) as [E|E|E].
  - subst e2. rewrite Z.min_id, Z.sub_diag, Z.pow_0_r, !Z.mul_1_r. reflexivity.
  - rewrite Z.min_l by lia. rewrite Z.sub_diag, Z.pow_0_r, Z.mul_1_r.
    apply Z.compare_lt_iff.
    rewrite Hn2 in Lo2 by lia.
    assert (2 ^ 1 <= 2 ^ (e2 - e1)) by (apply Z.pow_le_mono_r; lia).
    specialize (P53 _ Hd1). change (2 ^ (53 - 1)) with 4503599627370496 in Lo2.
    change (2 ^ 53) with 9007199254740992 in P53. change (2 ^ 1) with 2 in H. nia.
  - rewrite Z.min_r by lia. rewrite Z.sub_diag, Z.pow_0_r, Z.mul_1_r.
    apply Z.compare_gt_iff.
    rewrite Hn1 in Lo1 by lia.
    assert (2 ^ 1 <= 2 ^ (e1 - e2)) by (apply Z.pow_le_mono_r; lia).
    specialize (P53 _ Hd2). change (2 ^ (53 - 1)) with 4503599627370496 in Lo1.
    change (2 ^ 53) with 9007199254740992 in P53. change (2 ^ 1) with 2 in H. nia.
Qed.

Definition aligned (s : bool) (m : positive) (e ez : Z) : Z :=
  cond_Zopp s (Zpos (fst (shl_align m e ez))).

Lemma SFcompare_aligned sx mx ex sy my ey :
  bounded prec emax mx ex = true -> bounded prec emax my ey = true ->
  SFcompare (S754_finite sx mx ex) (S754_finite sy my ey) =
  Some (aligned sx mx ex (Z.min ex ey) ?= aligned sy my ey (Z.min ex ey)).
Proof.
  intros Bx By. unfold aligned.
  rewrite !shl_align_fst by lia.
  pose proof (aligned_compare mx ex my ey Bx By) as H.
  assert (Px : 0 < Zpos mx * 2 ^ (ex - Z.min ex ey))
    by (apply Z.mul_pos_pos; [lia | apply Z.pow_pos_nonneg; lia]).
  assert (Py : 0 < Zpos my * 2 ^ (ey - Z.min ex ey))
    by (apply Z.mul_pos_pos; [lia | apply Z.pow_pos_nonneg; lia]).
  revert H Px Py.
  generalize (Zpos mx * 2 ^ (ex - Z.min ex ey)) (Zpos my * 2 ^ (ey - Z.min ex ey)).
  intros a b H Pa Pb. simpl SFcompare. f_equal.
  destruct sx, sy; simpl cond_Zopp.
  - rewrite Z.compare_opp, (Z.compare_antisym a b), H.
    destruct (ex ?= ey); try reflexivity.
  - symmetry. apply Z.compare_lt_iff. lia.
  - symmetry. apply Z.compare_gt_iff. lia.
  - rewrite H. destruct (ex ?= ey); reflexivity.
Qed.

Lemma SFsub_pos x y :
  valid_binary x = true -> valid_binary y = true ->
  SFltb (S754_zero false) (SF64sub x y) = SFltb y x.
Proof.
  intros Vx Vy.
  destruct x as [sx|sx| |sx mx ex], y as [sy|sy| |sy my ey];
    try (destruct sx; try destruct sy; reflexivity);
    try (destruct sy; reflexivity); try reflexivity.
  unfold SF64sub, SFsub. simpl in Vx, Vy.
  pose proof (bounded_inv _ _ Vx) as (Hex & _).
  pose proof (bounded_inv _ _ Vy) as (Hey & _).
  rewrite binary_normalize_pos by lia.
  unfold SFltb. rewrite (SFcompare_aligned sy my ey sx mx ex Vy Vx).
  rewrite (Z.min_comm ey ex). fold (aligned sx mx ex (Z.min ex ey)).
  fold (aligned sy my ey (Z.min ex ey)).
  generalize (aligned sx mx ex (Z.min ex ey)) (aligned sy my ey (Z.min ex ey)).
  intros a b. destruct (Z.compare_spec b a); destruct (Z.ltb_spec 0 (a - b)); try reflexivity; lia.
Qed.

(** *** Sums and halves of numbers are numbers *)


Definition sf_finite (x : spec_float) : bool :=
  match x with S754_zero _ | S754_finite _ _ _ => true | _ => false end.

Lemma SFadd_not_nan x y :
  sf_nan x = false -> sf_finite y = true -> sf_nan (SF64add x y) = false.
Proof.
  intros Hx Hy.
  destruct x as [sx|sx| |sx mx ex], y as [sy|sy| |sy my ey]; try discriminate;
    try (destruct sx; try destruct sy; reflexivity); try reflexivity.
  unfold SF64add, SFadd.
  match goal with |- sf_nan ?t = false => pose proof (binary_normalize_not_nan
    (cond_Zopp sx (Zpos (fst (shl_align mx ex (Z.min ex ey)))) +
     cond_Zopp sy (Zpos (fst (shl_align my ey (Z.min ex ey))))) (Z.min ex ey) false) as H;
    destruct t; try reflexivity; congruence end.
Qed.

Lemma SFdiv_core_nonneg m1 e1 m2 e2 :
  0 < m1 -> 0 < m2 ->
  0 <= fst (fst (SFdiv_core_binary prec emax m1 e1 m2 e2)).
Proof.
  intros H1 H2. unfold SFdiv_core_binary.
  set (s := e1 - e2 - _).
  set (m' := match s with Z0 => m1 | Zpos _ => Z.shiftl m1 s | Zneg _ => 0 end).
  assert (Hm' : 0 <= m').
  { subst m'. destruct s; try lia. apply Z.shiftl_nonneg. lia. }
  pose proof (Z.div_pos m' m2 Hm' H2) as Hq. unfold Z.div in Hq.
  destruct (Z.div_eucl m' m2) as [q r]. exact Hq.
Qed.

Lemma SFdiv_finite_not_nan x sy my ey :
  sf_nan x = false -> sf_nan (SF64div x (S754_finite sy my ey)) = false.
Proof.
  intros Hx. destruct x as [sx|sx| |sx mx ex]; try discriminate; try reflexivity.
  unfold SF64div, SFdiv.
  pose proof (SFdiv_core_nonneg (Zpos mx) ex (Zpos my) ey ltac:(lia) ltac:(lia)) as Hq.
  destruct (SFdiv_core_binary prec emax (Z.pos mx) ex (Z.pos my) ey) as [[mz ez] lz].
  simpl in Hq.
  pose proof (binary_round_aux_not_nan (xorb sx sy) mz ez lz Hq) as H.
  destruct (binary_round_aux prec emax (xorb sx sy) mz ez lz); try reflexivity; congruence.
Qed.


(** *** The same facts on binary64 floats *)

Lemma SFcompare_refl x : sf_nan x = false -> SFcompare x x = Some Eq.
Proof.
  destruct x as [s|s| |s m e]; try discriminate; intros _; simpl.
  - reflexivity.
  - destruct s; reflexivity.
  - rewrite Z.compare_refl, compare_cont_Eq, Pos.compare_refl. destruct s; reflexivity.
Qed.

Lemma is_nan_spec x : is_nan x = sf_nan (Prim2SF x).
Proof.
  unfold is_nan. rewrite FloatAxioms.eqb_spec. unfold SFeqb.
  destruct (sf_nan (Prim2SF x)) eqn:E.
  - destruct (Prim2SF x); try discriminate. reflexivity.
  - rewrite SFcompare_refl by assumption. reflexivity.
Qed.

Lemma is_finite_spec x : is_finite x = sf_finite (Prim2SF x).
Proof.
  unfold is_finite, is_infinity. rewrite is_nan_spec, FloatAxioms.eqb_spec, FloatAxioms.abs_spec.
  change (Prim2SF infinity) with (S754_infinity false).
  destruct (Prim2SF x) as [s|s| |s m e]; reflexivity.
Qed.

Local Open Scope float_scope.

Lemma leb_trans x y z : (x <=? y) = true -> (y <=? z) = true -> (x <=? z) = true.
Proof. rewrite !FloatAxioms.leb_spec. apply SFleb_trans. Qed.

Lemma ltb_leb x y : (x <? y) = true -> (x <=? y) = true.
Proof. rewrite FloatAxioms.ltb_spec, FloatAxioms.leb_spec. apply SFltb_leb. Qed.

Lemma leb_not_nan x y : (x <=? y) = true -> is_nan x = false /\ is_nan y = false.
Proof. rewrite FloatAxioms.leb_spec, !is_nan_spec. apply SFleb_not_nan. Qed.

Lemma ltb_not_nan x y : (x <? y) = true -> is_nan x = false /\ is_nan y = false.
Proof. rewrite FloatAxioms.ltb_spec, !is_nan_spec. apply SFltb_not_nan. Qed.

Lemma not_ltb_leb x y :
  is_nan x = false -> is_nan y = false -> (x <? y) = false -> (y <=? x) = true.
Proof.
  rewrite !is_nan_spec, FloatAxioms.ltb_spec, FloatAxioms.leb_spec. intros Hx Hy H.
  rewrite (SFltb_negb_leb _ _ Hx Hy) in H. now destruct (SFleb _ _).
Qed.

Lemma ltb_not_leb x y : (x <? y) = true -> (y <=? x) = false.
Proof.
  intros H. destruct (ltb_not_nan _ _ H) as [Hx Hy].
  rewrite !is_nan_spec in *. rewrite FloatAxioms.ltb_spec in H.
  rewrite FloatAxioms.leb_spec. rewrite (SFltb_negb_leb _ _ Hx Hy) in H.
  now destruct (SFleb _ _).
Qed.

Lemma leb_refl x : is_nan x = false -> (x <=? x) = true.
Proof.
  rewrite is_nan_spec, FloatAxioms.leb_spec. intros H. unfold SFleb.
  now rewrite SFcompare_refl.
Qed.

(** [x - y > 0] says [x > y], for all floats. *)
Lemma sub_pos x y : (0 <? x - y) = (y <? x).
Proof.
  rewrite !FloatAxioms.ltb_spec, FloatAxioms.sub_spec. change (Prim2SF 0) with (S754_zero false).
  apply SFsub_pos; apply Prim2SF_valid.
Qed.

Lemma add_not_nan x y :
  is_nan x = false -> is_finite y = true -> is_nan (x + y) = false.
Proof.
  rewrite !is_nan_spec, is_finite_spec, FloatAxioms.add_spec. apply SFadd_not_nan.
Qed.

Lemma half_not_nan x : is_nan x = false -> is_nan (x / 2) = false.
Proof.
  rewrite !is_nan_spec, FloatAxioms.div_spec.
  change (Prim2SF 2) with (S754_finite false 4503599627370496 (-51)).
  apply SFdiv_finite_not_nan.
Qed.

End Float64.

(** * Bucket addressing *)

Lemma bucketWidth_loop_bounds p :
  0 <= bucketWidth_loop p /\
  2 ^ bucketWidth_loop p <= Zpos p < 2 ^ (bucketWidth_loop p + 1).
Proof.
  induction p as [p [IH0 IH]|p [IH0 IH]|]; simpl bucketWidth_loop.
  - split; [lia|]. rewrite !(Z.add_comm 1), !Z.add_1_r in *.
    rewrite !Z.pow_succ_r in * by lia. lia.
  - split; [lia|]. rewrite !(Z.add_comm 1), !Z.add_1_r in *.
    rewrite !Z.pow_succ_r in * by lia. lia.
  - simpl. lia.
Qed.

(** The loop computes the binary logarithm. *)
Lemma bucketWidthOf_log2 bs : bucketWidthOf bs = Z.log2 bs.
Proof.
  destruct bs as [|p|p]; try reflexivity.
  symmetry. pose proof (bucketWidth_loop_bounds p) as [H0 H].
  apply Z.log2_unique; [exact H0 | exact H].
Qed.

Lemma bucketWidthOf_pow2 w : 0 <= w -> bucketWidthOf (2 ^ w) = w.
Proof. intros H. rewrite bucketWidthOf_log2. apply Z.log2_pow2, H. Qed.

Lemma byte_of_range c : 0 <= byte_of c < 256.
Proof.
  unfold byte_of. pose proof (N_ascii_bounded c). lia.
Qed.

Lemma int32_small z : - 2 ^ 31 <= z < 2 ^ 31 -> int32 z = z.
Proof.
  intros H. unfold int32. rewrite Z.mod_small by lia. lia.
Qed.

Lemma hex_value_range c : 0 <= hex_value c <= 15.
Proof.
  unfold hex_value, in_range.
  repeat match goal with
  | |- context [?a <=? ?b] => destruct (Z.leb_spec a b); simpl
  end; lia.
Qed.

Lemma hexdigit_step_small r c :
  0 <= r < 16 ^ 6 -> hexdigit_step r c = r * 16 + hex_value c.
Proof.
  intros Hr. unfold hexdigit_step.
  pose proof (hex_value_range c) as Hv. revert Hv.
  unfold hex_value.
  change (16 ^ 6) with 16777216 in Hr.
  rewrite (int32_small (r * 16)) by lia.
  destruct (in_range 48 57 c); [intros; rewrite int32_small; lia|].
  destruct (in_range 65 70 c); [intros; rewrite int32_small; lia|].
  destruct (in_range 97 102 c); [intros; rewrite int32_small; lia|].
  intros; lia.
Qed.

(** On at most seven single-byte characters [hextoi] is the base-16
    reading: the 32-bit accumulator does not wrap. *)
Lemma hextoi_loop_ascii bs : forall r m,
  Forall (fun b => 0 <= b < 128) bs ->
  0 <= m -> m + Z.of_nat (length bs) <= 7 ->
  0 <= r < 16 ^ m ->
  hextoi_loop bs 0 r = fold_left (fun acc c => acc * 16 + hex_value c) bs r.
Proof.
  induction bs as [|b bs IH]; intros r m Hb Hm Hlen Hr; [reflexivity|].
  inversion Hb as [|? ? Hb0 Hbs]; subst.
  simpl hextoi_loop. simpl fold_left.
  destruct (Z.ltb_spec b 128) as [_|?]; [|lia].
  simpl Nat.pred. simpl length in Hlen.
  assert (Hpow : 16 ^ m <= 16 ^ 6) by (apply Z.pow_le_mono_r; lia).
  rewrite hexdigit_step_small by lia.
  apply (IH _ (m + 1)); try assumption; try lia.
  pose proof (hex_value_range b). rewrite Z.pow_add_r by lia.
  change (16 ^ 1) with 16. lia.
Qed.

Lemma hextoi_ascii (s : string) :
  Forall (fun b => b < 128) (bytes_of s) -> (String.length s <= 7)%nat ->
  hextoi s = base16 s.
Proof.
  intros Ha Hl. unfold hextoi, base16.
  apply (hextoi_loop_ascii _ 0 0); try lia.
  - unfold bytes_of in *. rewrite Forall_map in *.
    eapply Forall_impl; [exact Ha|]. intros c Hc. simpl in *.
    pose proof (byte_of_range c). lia.
  - unfold bytes_of. rewrite length_map.
    assert (length (list_ascii_of_string s) = String.length s) as ->
      by (clear; induction s as [|c s IH]; simpl; [reflexivity | now rewrite IH]).
    lia.
Qed.

Lemma length_substring n m s :
  (String.length (substring n m s) <= m)%nat.
Proof.
  revert n m. induction s as [|c s IH]; intros [|n] [|m]; simpl; try lia.
  - specialize (IH 0%nat m). lia.
  - apply (IH n 0%nat).
  - apply (IH n (S m)).
Qed.

Lemma shr32_top h w : 0 <= w <= 32 -> w <> 0 ->
  shr32 h (uint64 (32 - w)) = Z.shiftr h (32 - w).
Proof.
  intros Hw Hn. unfold shr32, uint64. rewrite Z.mod_small by lia.
  destruct (Z.ltb_spec (32 - w) 32); [reflexivity | lia].
Qed.

Lemma shr32_zero_width (h : HashMethod) key :
  shr32 (h key) (uint64 32) = Z.shiftr (h key) 32.
Proof.
  unfold shr32, uint64. rewrite Z.mod_small by lia. simpl.
  symmetry. rewrite Z.shiftr_div_pow2 by lia.
  apply Z.div_small. apply hash_range.
Qed.

Lemma shr32_spec (h : HashMethod) key w : 0 <= w <= 32 ->
  shr32 (h key) (uint64 (32 - w)) = Z.shiftr (h key) (32 - w).
Proof.
  intros Hw. destruct (Z.eq_dec w 0) as [->|Hn].
  - apply shr32_zero_width.
  - apply shr32_top; assumption.
Qed.




(** C4, as stated, fails: with 65536 buckets the key ["@05"] has three
    bytes, not more than the four digits of the override, so it is hashed
    like any other key; no hash method whose value on ["@05"] is not in
    bucket 5 gives the hex reading. *)
Lemma getBucketByKey_at05_counterexample :
  ~ (forall hash_func : HashMethod,
       getBucketByKey hash_func 65536 "@05" = hextoi "05").
Proof.
  intros H. specialize (H fnv1a). vm_compute in H. discriminate H.
Qed.

(** C4 (amended). With 65536 buckets (bucketWidth 16), the key ["@05"] is
    too short for the override and resolves by hashing ["@05"]; the key
    ["?@05"] resolves to the same bucket, by hashing ["@05"] after the ['?']
    is stripped; a key with four digits after the ['@'], such as ["@0005"],
    resolves by the hex reading of the digits. *)
Theorem getBucketByKey_at05 (hash_func : HashMethod) :
  getBucketByKey hash_func 65536 "@05" = Z.shiftr (hash_func "@05") 16 /\
  getBucketByKey hash_func 65536 "?@05" = Z.shiftr (hash_func "@05") 16 /\
  getBucketByKey hash_func 65536 "@0005" = 5.
Proof. repeat split; reflexivity. Qed.

(** * The hash ring *)

(** ** Splitting an address *)

Lemma Count_nonneg s sep : 0 <= Count s sep.
Proof. induction s as [|d s IH]; simpl; [lia | destruct (Ascii.eqb d sep); lia]. Qed.

Lemma SplitN_2_no_sep s sep : Count s sep = 0 -> SplitN s sep 2 = [s].
Proof.
  induction s as [|c s IH]; intros H; [reflexivity|].
  pose proof (Count_nonneg s sep) as Hc.
  simpl in H. cbn [SplitN].
  destruct (Ascii.eqb c sep); [lia|].
  rewrite IH by lia. reflexivity.
Qed.

Lemma Count_app s t sep : Count (s ++ t) sep = Count s sep + Count t sep.
Proof. induction s as [|c s IH]; simpl; [reflexivity | rewrite IH; lia]. Qed.

Lemma SplitN_1 s sep : SplitN s sep 1 = [s].
Proof. destruct s; reflexivity. Qed.

Lemma SplitN_2_sep a b sep :
  Count a sep = 0 -> SplitN (a ++ String sep b) sep 2 = [a; b].
Proof.
  induction a as [|c a IH]; intros H.
  - cbn [append SplitN]. rewrite Ascii.eqb_refl, SplitN_1. reflexivity.
  - pose proof (Count_nonneg a sep). simpl in H.
    cbn [append SplitN].
    destruct (Ascii.eqb c sep); [lia|].
    rewrite IH by lia. reflexivity.
Qed.

(** Every string either has no separator or splits at its first one. *)
Lemma split_at_first s sep :
  Count s sep = 0 \/
  exists a b, s = a ++ String sep b /\ Count a sep = 0.
Proof.
  induction s as [|c s IH]; [left; reflexivity|].
  destruct (Ascii.eqb_spec c sep) as [->|Hne].
  - right. exists EmptyString, s. split; reflexivity.
  - destruct IH as [IH|(a & b & -> & Ha)].
    + left. simpl. apply Ascii.eqb_neq in Hne. rewrite Hne. lia.
    + right. exists (String c a), b. split; [reflexivity|].
      simpl. apply Ascii.eqb_neq in Hne. rewrite Hne. lia.
Qed.

(** ** Sorting *)

Lemma insert_sorted_perm x l : Permutation (insert_sorted x l) (x :: l).
Proof.
  induction l as [|y t IH]; simpl; [reflexivity|].
  destruct (x <=? y); [reflexivity|].
  rewrite IH. apply perm_swap.
Qed.

Lemma sort_Sort_perm l : Permutation (sort_Sort l) l.
Proof.
  induction l as [|x l IH]; simpl; [reflexivity|].
  rewrite insert_sorted_perm, IH. reflexivity.
Qed.

Lemma insert_sorted_sorted x l :
  Sorted Z.le l -> Sorted Z.le (insert_sorted x l).
Proof.
  induction 1 as [|y t Ht IH Hhd]; simpl.
  - repeat constructor.
  - destruct (Z.leb_spec x y).
    + constructor; [constructor; assumption | constructor; assumption].
    + constructor; [assumption|].
      destruct t as [|z t]; simpl.
      * constructor. lia.
      * inversion Hhd; subst. destruct (Z.leb_spec x z); constructor; lia.
Qed.

Lemma sort_Sort_sorted l : Sorted Z.le (sort_Sort l).
Proof.
  induction l as [|x l IH]; simpl; [constructor | apply insert_sorted_sorted, IH].
Qed.

Lemma sort_IsSorted_iff l : sort_IsSorted l = true <-> Sorted Z.le l.
Proof.
  induction l as [|x [|y t] IH].
  - split; [constructor | reflexivity].
  - split; [repeat constructor | reflexivity].
  - cbn [sort_IsSorted]. rewrite andb_true_iff, negb_true_iff, Z.ltb_ge, IH.
    split.
    + intros [H1 H2]. constructor; [assumption | constructor; assumption].
    + intros H. inversion H as [|? ? H1 H2]; subst. inversion H2; subst. auto.
Qed.

Lemma sort_Sort_length l : length (sort_Sort l) = length l.
Proof. apply Permutation_length, sort_Sort_perm. Qed.

(** ** Construction of the ring *)

Lemma ring_entry_no_colon hm i h j :
  Count h ":" = 0 -> ring_entry hm i h j = Panic IndexOutOfRange.
Proof.
  intros H. unfold ring_entry. rewrite SplitN_2_no_sep by assumption. reflexivity.
Qed.

Lemma ring_entry_colon hm i p j :
  Count (fst p) ":" = 0 ->
  ring_entry hm i (address p) j = Ok (packed (hm (vnode_name p j)) i).
Proof.
  intros H. unfold ring_entry, address. rewrite SplitN_2_sep by assumption.
  cbn [item lookup list_lookup mbind result_bind]. unfold vnode_name, address.
  destruct (String.eqb (snd p) "11211"); reflexivity.
Qed.

Lemma virtual_nodes_colon hm i p count : forall j,
  Count (fst p) ":" = 0 ->
  virtual_nodes hm i (address p) j count = Ok (host_ring hm i p j count).
Proof.
  induction count as [|count IH]; intros j H; [reflexivity|].
  cbn [virtual_nodes]. rewrite ring_entry_colon by assumption.
  cbn [mbind result_bind]. rewrite IH by assumption. reflexivity.
Qed.

Lemma ring_entries_colon hm ps : forall i,
  Forall (fun p => Count (fst p) ":" = 0) ps ->
  ring_entries hm i (map address ps) = Ok (ring_from hm i ps).
Proof.
  induction ps as [|p ps IH]; intros i H; [reflexivity|].
  inversion H as [|? ? Hp Hps]; subst.
  cbn [map ring_entries ring_from]. rewrite virtual_nodes_colon by assumption.
  cbn [mbind result_bind]. rewrite IH by assumption. reflexivity.
Qed.

(** A list of addresses with colons is a list of [host:port] pairs. *)
Lemma has_colon_pairs hosts :
  Forall has_colon hosts ->
  exists ps, hosts = map address ps /\ Forall (fun p => Count (fst p) ":" = 0) ps.
Proof.
  induction 1 as [|h hosts Hh _ (ps & -> & Hps)].
  - exists []. split; [reflexivity | constructor].
  - destruct (split_at_first h ":") as [H0|(a & b & -> & Ha)].
    + unfold has_colon in Hh. lia.
    + exists ((a, b) :: ps). split; [reflexivity | constructor; assumption].
Qed.

Lemma virtual_nodes_no_colon hm i h j count :
  Count h ":" = 0 -> virtual_nodes hm i h j (S count) = Panic IndexOutOfRange.
Proof.
  intros H. cbn [virtual_nodes]. rewrite ring_entry_no_colon by assumption.
  reflexivity.
Qed.

Lemma ring_entries_no_colon hm hosts : forall i,
  Exists (fun h => Count h ":" = 0) hosts ->
  ring_entries hm i hosts = Panic IndexOutOfRange.
Proof.
  induction hosts as [|h hosts IH]; intros i H; [inversion H|].
  cbn [ring_entries].
  destruct (split_at_first h ":") as [H0|(a & b & -> & Ha)].
  - change VIRTUAL_NODES with (S 99).
    rewrite virtual_nodes_no_colon by assumption. reflexivity.
  - change (a ++ String ":" b) with (address (a, b)).
    rewrite virtual_nodes_colon by assumption. cbn [mbind result_bind].
    rewrite IH; [reflexivity|].
    inversion H as [? ? Hbad|]; subst; [|assumption].
    pose proof (Count_nonneg a ":"). pose proof (Count_nonneg b ":").
    unfold address in Hbad. cbn [fst snd] in Hbad.
    rewrite Count_app in Hbad. simpl in Hbad. lia.
Qed.

Lemma length_ring_from hm ps : forall i,
  length (ring_from hm i ps) = (length ps * VIRTUAL_NODES)%nat.
Proof.
  induction ps as [|p ps IH]; intros i; [reflexivity|].
  cbn [ring_from]. rewrite length_app, IH. unfold host_ring.
  rewrite length_map, length_seq. simpl. lia.
Qed.

(** What construction returns for a list of [host:port] addresses. *)
Lemma NewConsistantHashScheduler_ok hm ps :
  Forall (fun p => Count (fst p) ":" = 0) ps ->
  NewConsistantHashScheduler (map address ps) hm
  = Ok {| ch_hosts := map NewHost (map address ps);
          ch_index := sort_Sort (ring_from hm 0 ps);
          ch_hashMethod := hm |}.
Proof.
  intros H. unfold NewConsistantHashScheduler.
  rewrite ring_entries_colon by assumption. cbn [mbind result_bind].
  rewrite (proj2 (sort_IsSorted_iff _) (sort_Sort_sorted _)). reflexivity.
Qed.

(** C10. Construction splits every address at its first [':'] and reads
    the second piece: a host list with an address that has no [':'] makes
    [NewConsistantHashScheduler] panic with an out-of-range access; when
    every address has a [':'], construction succeeds. *)
Theorem NewConsistantHashScheduler_needs_colon (hm : HashMethod) (hosts : list string) :
  (Exists (fun h => ~ has_colon h) hosts ->
   NewConsistantHashScheduler hosts hm = Panic IndexOutOfRange) /\
  (Forall has_colon hosts ->
   exists c, NewConsistantHashScheduler hosts hm = Ok c).
Proof.
  split.
  - intros H. unfold NewConsistantHashScheduler.
    rewrite ring_entries_no_colon; [reflexivity|].
    eapply Exists_impl; [exact H|]. intros h Hh. simpl in Hh.
    pose proof (Count_nonneg h ":"). unfold has_colon in Hh. lia.
  - intros H. destruct (has_colon_pairs hosts H) as (ps & -> & Hps).
    eexists. apply NewConsistantHashScheduler_ok, Hps.
Qed.

Lemma NewConsistantHashScheduler_needs_colon_witness :
  NewConsistantHashScheduler ["10.0.0.1:11211"; "localhost"] fnv1a
  = Panic IndexOutOfRange /\
  exists c, NewConsistantHashScheduler ["10.0.0.1:11211"; "10.0.0.2:7900"] fnv1a = Ok c.
Proof.
  split.
  - apply (NewConsistantHashScheduler_needs_colon fnv1a ["10.0.0.1:11211"; "localhost"]).
    apply Exists_cons_tl, Exists_cons_hd. unfold has_colon. vm_compute. intros H. discriminate H.
  - apply (NewConsistantHashScheduler_needs_colon fnv1a ["10.0.0.1:11211"; "10.0.0.2:7900"]).
    repeat constructor.
Defined.

(** ** Lookup in the ring *)

Lemma Search_loop_step f i j :
  Search_loop f i j =
  if decide (i < j)%nat then
    match f ((i + j) / 2)%nat with
    | Panic p => Panic p
    | Ok false => Search_loop f ((i + j) / 2 + 1)%nat j
    | Ok true => Search_loop f i ((i + j) / 2)%nat
    end
  else Ok i.
Proof.
  rewrite Search_loop_equation_1.
  destruct (decide (i < j)%nat) as [H|H].
  - rewrite Search_loop_clause_1_equation_1.
    destruct (f ((i + j) / 2)%nat) as [[|]|p].
    + apply Search_loop_clause_1_clause_2_equation_1.
    + apply Search_loop_clause_1_clause_2_equation_2.
    + apply Search_loop_clause_1_clause_2_equation_3.
  - apply Search_loop_clause_1_equation_2.
Qed.

Lemma StronglySorted_lookup (l : list Z) : StronglySorted Z.le l ->
  forall k1 k2 a b, (k1 <= k2)%nat -> l !! k1 = Some a -> l !! k2 = Some b -> a <= b.
Proof.
  induction 1 as [|x l Hl IH Hx]; intros k1 k2 a b Hk H1 H2; [discriminate H1|].
  destruct k1 as [|k1], k2 as [|k2]; simpl in *; try lia.
  - injection H1 as <-. injection H2 as <-. lia.
  - injection H1 as <-. rewrite Forall_forall in Hx. apply Hx.
    eapply list_elem_of_lookup_2. exact H2.
  - eapply IH; [|exact H1|exact H2]. lia.
Qed.

(** On a sorted slice the search returns the boundary between the entries
    below [h] and the entries at or above it. *)
Lemma Search_loop_sorted (l : list Z) (h : Z) :
  StronglySorted Z.le l ->
  forall d i j, (j - i <= d)%nat -> (i <= j <= length l)%nat ->
  (forall k e, (k < i)%nat -> l !! k = Some e -> e < h) ->
  (forall k e, (j <= k)%nat -> l !! k = Some e -> h <= e) ->
  exists m, Search_loop (ring_probe l h) i j = Ok m /\ (i <= m <= j)%nat /\
    (forall k e, (k < m)%nat -> l !! k = Some e -> e < h) /\
    (forall k e, (m <= k)%nat -> l !! k = Some e -> h <= e).
Proof.
  intros Hs. induction d as [|d IH]; intros i j Hd Hij Hlo Hhi;
    rewrite Search_loop_step; destruct (decide (i < j)%nat) as [Hlt|Hge];
    try lia.
  - exists i. repeat split; try lia; try assumption.
    intros k e Hk. apply Hhi. lia.
  - pose proof (Nat.div_mod_eq (i + j) 2) as Hdm.
    pose proof (Nat.mod_upper_bound (i + j) 2 ltac:(lia)) as Hmod.
    set (mid := ((i + j) / 2)%nat) in *.
    assert (Hmid : (i <= mid < j)%nat) by lia.
    destruct (lookup_lt_is_Some_2 l mid ltac:(lia)) as [x Hx].
    unfold ring_probe at 1. unfold item. rewrite Hx. cbn [mbind result_bind].
    destruct (Z.leb_spec h x) as [Hle|Hgt].
    + destruct (IH i mid) as (m & Hm & Hr & H1 & H2); try lia; try assumption.
      { intros k e Hk He. pose proof (StronglySorted_lookup l Hs mid k x e Hk Hx He). lia. }
      exists m. repeat split; try assumption; lia.
    + destruct (IH (mid + 1)%nat j) as (m & Hm & Hr & H1 & H2); try lia; try assumption.
      { intros k e Hk He.
        pose proof (StronglySorted_lookup l Hs k mid e x ltac:(lia) He Hx). lia. }
      exists m. repeat split; try assumption; lia.
  - exists i. repeat split; try lia; try assumption.
    intros k e Hk. apply Hhi. lia.
Qed.

Lemma find_boundary (l : list Z) (h : Z) : forall m,
  (forall k e, (k < m)%nat -> l !! k = Some e -> e < h) ->
  (forall k e, (m <= k)%nat -> l !! k = Some e -> h <= e) ->
  find (fun e => h <=? e) l = l !! m.
Proof.
  induction l as [|x l IH]; intros m Hlo Hhi; [reflexivity|].
  cbn [find]. destruct m as [|m].
  - specialize (Hhi 0%nat x ltac:(lia) eq_refl).
    destruct (Z.leb_spec h x); [reflexivity | lia].
  - pose proof (Hlo 0%nat x ltac:(lia) eq_refl) as H0.
    destruct (Z.leb_spec h x); [lia|].
    cbn [lookup list_lookup]. apply IH.
    + intros k e Hk He. apply (Hlo (S k) e); [lia | exact He].
    + intros k e Hk He. apply (Hhi (S k) e); [lia | exact He].
Qed.

Lemma getHostIndex_sorted (c : ConsistantHashScheduler) (key : string) :
  Sorted Z.le (ch_index c) ->
  getHostIndex c key
  = ring_owner (ch_index c) (uint64 (Z.shiftl (ch_hashMethod c key) 32)).
Proof.
  intros Hs. apply Sorted_StronglySorted in Hs; [|intros x y z; apply Z.le_trans].
  unfold getHostIndex, ring_owner, sort_Search.
  set (h := uint64 _). set (l := ch_index c) in *.
  destruct (Search_loop_sorted l h Hs (length l) 0 (length l))
    as (m & Hm & Hr & Hlo & Hhi); try lia.
  { intros k e Hk He. apply lookup_lt_Some in He. lia. }
  change (fun k => e ← item l k; Ok (h <=? e)) with (ring_probe l h).
  rewrite Hm. cbn [mbind result_bind].
  rewrite (find_boundary l h m Hlo Hhi).
  destruct (decide (m = length l)) as [->|Hne].
  - rewrite (lookup_ge_None_2 l (length l)) by lia. reflexivity.
  - destruct (lookup_lt_is_Some_2 l m ltac:(lia)) as [e He].
    rewrite He. unfold item. rewrite He. reflexivity.
Qed.

(** ** The entries of a constructed ring *)

Lemma packed_low v i : Z.land (packed v i) 4294967295 = Z.of_nat i mod 2 ^ 32.
Proof.
  change 4294967295 with (Z.ones 32). rewrite Z.land_ones by lia.
  unfold packed, uint64. rewrite Z.shiftl_mul_pow2 by lia.
  change (2 ^ 64) with 18446744073709551616.
  change (2 ^ 32) with 4294967296.
  generalize (Z.of_nat i). intros z.
  Z.div_mod_to_equations. lia.
Qed.

Lemma ring_from_entries hm ps : forall i0 e,
  In e (ring_from hm i0 ps) ->
  exists i v, (i0 <= i < i0 + length ps)%nat /\ e = packed v i.
Proof.
  induction ps as [|p ps IH]; intros i0 e He; [destruct He|].
  cbn [ring_from] in He. apply in_app_or in He as [He|He].
  - unfold host_ring in He. apply in_map_iff in He as (j & <- & _).
    exists i0, (hm (vnode_name p j)). split; [simpl; lia | reflexivity].
  - destruct (IH _ _ He) as (i & v & Hi & ->).
    exists i, v. split; [simpl; lia | reflexivity].
Qed.

Lemma ring_owner_in l h r :
  ring_owner l h = Ok r -> exists e, In e l /\ r = Z.land e 4294967295.
Proof.
  unfold ring_owner. destruct (find _ l) as [e|] eqn:E.
  - intros [= <-]. apply find_some in E as [E _]. eauto.
  - destruct l as [|e0 l]; [discriminate|]. intros [= <-].
    exists e0. split; [left; reflexivity | reflexivity].
Qed.

Lemma ring_owner_total l h : l <> [] -> exists r, ring_owner l h = Ok r.
Proof.
  intros Hl. unfold ring_owner. destruct (find _ l); [eauto|].
  destruct l as [|e0 l]; [congruence | eauto].
Qed.

Lemma has_colon_dec h : {has_colon h} + {Count h ":" = 0}.
Proof.
  unfold has_colon. destruct (Z_lt_dec 0 (Count h ":")) as [H|H]; [left; exact H|].
  right. pose proof (Count_nonneg h ":"). lia.
Qed.

(** In a scheduler that construction returned, every key has an owner
    among the hosts. *)
Lemma getHostIndex_constructed hm hosts c key :
  hosts <> [] -> NewConsistantHashScheduler hosts hm = Ok c ->
  exists r, getHostIndex c key = Ok r /\ 0 <= r < Z.of_nat (length hosts) /\
    length (ch_hosts c) = length hosts.
Proof.
  intros Hne Hc.
  assert (Hcol : Forall has_colon hosts).
  { destruct (Forall_Exists_dec has_colon (fun h => Count h ":" = 0)
                has_colon_dec hosts) as [H|H]; [exact H|].
    unfold NewConsistantHashScheduler in Hc.
    rewrite ring_entries_no_colon in Hc by exact H. discriminate Hc. }
  destruct (has_colon_pairs hosts Hcol) as (ps & -> & Hps).
  rewrite NewConsistantHashScheduler_ok in Hc by assumption.
  injection Hc as <-.
  rewrite getHostIndex_sorted by apply sort_Sort_sorted. cbn [ch_index ch_hashMethod ch_hosts].
  set (l := sort_Sort (ring_from hm 0 ps)).
  assert (Hl : l <> []).
  { intros E. apply (f_equal length) in E. subst l.
    rewrite sort_Sort_length, length_ring_from in E.
    destruct ps; [exact (Hne eq_refl)|].
    unfold VIRTUAL_NODES in E. cbn [length] in E. lia. }
  destruct (ring_owner_total l (uint64 (Z.shiftl (hm key) 32)) Hl) as [r Hr].
  exists r. split; [exact Hr|]. rewrite !length_map. split; [|reflexivity].
  destruct (ring_owner_in _ _ _ Hr) as (e & He & ->).
  apply (Permutation_in _ (sort_Sort_perm _)) in He.
  destruct (ring_from_entries _ _ _ _ He) as (i & v & Hi & ->).
  rewrite packed_low. Z.div_mod_to_equations. lia.
Qed.

(** For fewer than 2^32 hosts the sum that packs an entry is the bitwise
    or of the shifted hash and the host index. *)
Lemma packed_lor v i :
  0 <= v < 2 ^ 32 -> Z.of_nat i < 2 ^ 32 ->
  packed v i = Z.lor (Z.shiftl v 32) (Z.of_nat i).
Proof.
  intros Hv Hi. unfold packed, uint64.
  assert (Hs : 0 <= Z.shiftl v 32 <= 18446744069414584320).
  { rewrite Z.shiftl_mul_pow2 by lia.
    change (2 ^ 32) with 4294967296 in *. lia. }
  change (2 ^ 64) with 18446744073709551616.
  assert (Hi' : Z.of_nat i < 4294967296) by exact Hi.
  rewrite (Z.mod_small (Z.shiftl v 32)), (Z.mod_small (Z.of_nat i)) by lia.
  rewrite Z.mod_small by lia.
  assert (Hland : Z.land (Z.shiftl v 32) (Z.of_nat i) = 0).
  { apply Z.bits_inj'. intros n Hn. rewrite Z.land_spec, Z.bits_0.
    destruct (Z.lt_ge_cases n 32) as [Hlt|Hge].
    - rewrite Z.shiftl_spec_low by lia. reflexivity.
    - rewrite <- (Z.mod_small (Z.of_nat i) (2 ^ 32)) by lia.
      rewrite Z.mod_pow2_bits_high by lia. apply andb_false_r. }
  rewrite Z.add_nocarry_lxor by exact Hland.
  apply Z.lxor_lor, Hland.
Qed.

Lemma ring_entries_panic hm hosts p :
  ring_entries hm 0 hosts = Panic p -> p = IndexOutOfRange.
Proof.
  destruct (Forall_Exists_dec has_colon (fun h => Count h ":" = 0)
              has_colon_dec hosts) as [H|H].
  - destruct (has_colon_pairs hosts H) as (ps & -> & Hps).
    rewrite ring_entries_colon by assumption. discriminate.
  - rewrite ring_entries_no_colon by assumption. congruence.
Qed.

(** C6. On a scheduler whose ring is sorted ascending, [getHostIndex]
    returns the low 32 bits of the first entry that is greater than or
    equal to the hash of the key shifted left by 32, and of the entry at
    index 0 when there is no such entry. For a scheduler constructed from a
    non-empty host list, [GetHostsByKey] returns exactly one host, one of
    the scheduler's; it is a function of the scheduler and the key, so
    repeated calls agree. *)
Theorem getHostIndex_spec :
  (forall (c : ConsistantHashScheduler) (key : string),
     Sorted Z.le (ch_index c) ->
     getHostIndex c key
     = ring_owner (ch_index c) (uint64 (Z.shiftl (ch_hashMethod c key) 32))) /\
  (forall (hm : HashMethod) (hosts : list string) c (key : string),
     hosts <> [] -> NewConsistantHashScheduler hosts hm = Ok c ->
     exists host, In host (ch_hosts c) /\
       ConsistantHashScheduler_GetHostsByKey c key = Ok [host]) /\
  (forall (c : ConsistantHashScheduler) (key : string) r1 r2,
     ConsistantHashScheduler_GetHostsByKey c key = r1 ->
     ConsistantHashScheduler_GetHostsByKey c key = r2 -> r1 = r2).
Proof.
  split; [|split].
  - intros c key. apply getHostIndex_sorted.
  - intros hm hosts c key Hne Hc.
    destruct (getHostIndex_constructed hm hosts c key Hne Hc) as (r & Hr & Hrange & Hlen).
    unfold ConsistantHashScheduler_GetHostsByKey. rewrite Hr. cbn [mbind result_bind].
    unfold itemZ. destruct (Z.ltb_spec r 0); [lia|].
    destruct (lookup_lt_is_Some_2 (ch_hosts c) (Z.to_nat r) ltac:(lia)) as [host Hh].
    unfold item. rewrite Hh. exists host. split; [|reflexivity].
    apply list_elem_of_In. eapply list_elem_of_lookup_2. exact Hh.
  - intros c key r1 r2 <- <-. reflexivity.
Qed.

Lemma getHostIndex_spec_witness :
  let c := {| ch_hosts := [NewHost "a:1"; NewHost "b:1"];
              ch_index := [packed 10 0; packed 20 1; packed 30 0];
              ch_hashMethod := const_hash 25 |} in
  getHostIndex c "key" = Ok 0 /\
  exists host, ConsistantHashScheduler_GetHostsByKey
    {| ch_hosts := map NewHost ["a:1"];
       ch_index := sort_Sort (ring_from fnv1a 0 [("a", "1")]);
       ch_hashMethod := fnv1a |} "key" = Ok [host].
Proof.
  split.
  - rewrite (proj1 getHostIndex_spec); [reflexivity|].
    vm_compute. repeat constructor; discriminate.
  - destruct (proj1 (proj2 getHostIndex_spec) fnv1a ["a:1"] _ "key"
                ltac:(discriminate)
                (NewConsistantHashScheduler_ok fnv1a [("a", "1")]
                   ltac:(repeat constructor))) as (host & _ & H).
    exists host. exact H.
Defined.

(** C7. For every list of addresses of the form [host:port], construction
    returns a scheduler whose ring is sorted ascending and is an
    arrangement of the 100 packed entries per host, the entry of virtual
    node [j] of host [i] being [(hash(name-j) << 32) + i] where [name] is
    the bare host name when the port is 11211 and the address otherwise;
    and for no host list at all does construction reach the
    ["sort failed"] panic. *)
Theorem NewConsistantHashScheduler_sorted (hm : HashMethod) :
  (forall hosts, Forall has_colon hosts ->
     exists ps c,
       hosts = map address ps /\
       NewConsistantHashScheduler hosts hm = Ok c /\
       Sorted Z.le (ch_index c) /\
       Permutation (ch_index c) (ring_from hm 0 ps) /\
       length (ch_index c) = (length hosts * VIRTUAL_NODES)%nat) /\
  (forall hosts, NewConsistantHashScheduler hosts hm <> Panic SortFailed).
Proof.
  split.
  - intros hosts H. destruct (has_colon_pairs hosts H) as (ps & -> & Hps).
    eexists ps, _. split; [reflexivity|].
    split; [apply NewConsistantHashScheduler_ok, Hps|]. cbn [ch_index].
    split; [apply sort_Sort_sorted|].
    split; [apply sort_Sort_perm|].
    rewrite sort_Sort_length, length_ring_from, length_map. reflexivity.
  - intros hosts. unfold NewConsistantHashScheduler.
    destruct (ring_entries hm 0 hosts) as [idx|p] eqn:E; cbn [mbind result_bind].
    + rewrite (proj2 (sort_IsSorted_iff _) (sort_Sort_sorted _)). discriminate.
    + apply ring_entries_panic in E. subst p. discriminate.
Qed.

Lemma NewConsistantHashScheduler_sorted_witness :
  exists ps c,
    ["10.0.0.1:11211"; "10.0.0.2:7900"] = map address ps /\
    NewConsistantHashScheduler ["10.0.0.1:11211"; "10.0.0.2:7900"] fnv1a = Ok c /\
    Sorted Z.le (ch_index c) /\
    Permutation (ch_index c) (ring_from fnv1a 0 ps) /\
    length (ch_index c) = (2 * VIRTUAL_NODES)%nat.
Proof.
  apply (proj1 (NewConsistantHashScheduler_sorted fnv1a)
           ["10.0.0.1:11211"; "10.0.0.2:7900"]).
  repeat constructor.
Defined.

(** * Dividing keys among hosts *)

Section Grouping.

Variable owner : string -> result Z.
Variable own : string -> nat.

(** The loop appends every key to the group of its owner, after the keys
    already there. *)
Lemma group_keys_groups (keys : list string) : forall rs : list (list string),
  (forall key, In key keys ->
     owner key = Ok (Z.of_nat (own key)) /\ (own key < length rs)%nat) ->
  exists rs', group_keys owner keys rs = Ok rs' /\ length rs' = length rs /\
    forall i g, rs !! i = Some g ->
      rs' !! i = Some (g ++ filter (fun key => own key = i) keys)%list.
Proof.
  induction keys as [|key keys IH]; intros rs Hown.
  - exists rs. split; [reflexivity|]. split; [reflexivity|].
    intros i g Hg. rewrite app_nil_r. exact Hg.
  - destruct (Hown key (or_introl eq_refl)) as [Ho Hlt].
    destruct (lookup_lt_is_Some_2 rs (own key) Hlt) as [g0 Hg0].
    cbn [group_keys]. rewrite Ho. cbn [mbind result_bind].
    unfold append_key, itemZ, item.
    destruct (Z.ltb_spec (Z.of_nat (own key)) 0); [lia|].
    rewrite Nat2Z.id, Hg0. cbn [mbind result_bind].
    destruct (IH (<[own key := (g0 ++ [key])%list]> rs)) as (rs' & Hrs' & Hlen & Hgroups).
    { intros k Hk. rewrite length_insert. apply Hown. right. exact Hk. }
    exists rs'. split; [exact Hrs'|]. rewrite length_insert in Hlen.
    split; [exact Hlen|].
    intros i g Hg. rewrite filter_cons.
    destruct (decide (own key = i)) as [<-|Hne].
    + rewrite (Hgroups (own key) (g0 ++ [key])%list).
      * rewrite Hg0 in Hg. injection Hg as <-. rewrite <- app_assoc. reflexivity.
      * apply list_lookup_insert_eq. exact Hlt.
    + apply Hgroups. rewrite list_lookup_insert_ne by exact Hne. exact Hg.
Qed.

End Grouping.

Lemma concat_add_one {A} (F : nat -> list A) (x : A) (o : nat) (l : list nat) :
  NoDup l ->
  Permutation
    (concat (map (fun i => if decide (o = i) then x :: F i else F i) l))
    (if decide (o ∈ l) then x :: concat (map F l) else concat (map F l)).
Proof.
  induction 1 as [|a l Ha Hl IH]; [reflexivity|].
  cbn [map concat]. rewrite IH. clear IH.
  destruct (decide (o = a)) as [<-|Hne].
  - rewrite (decide_False (P := o ∈ l)) by exact Ha.
    rewrite (decide_True (P := o ∈ o :: l)) by (left).
    reflexivity.
  - destruct (decide (o ∈ l)) as [Hin|Hnin].
    + rewrite (decide_True (P := o ∈ a :: l)) by (right; exact Hin).
      symmetry. apply Permutation_middle.
    + rewrite (decide_False (P := o ∈ a :: l)); [reflexivity|].
      intros Hin. apply elem_of_cons in Hin as [?|?]; congruence.
Qed.

(** The groups of the keys by owner hold every key once. *)
Lemma groups_partition (own : string -> nat) (n : nat) (keys : list string) :
  (forall key, In key keys -> (own key < n)%nat) ->
  Permutation
    (concat (map (fun i => filter (fun key => own key = i) keys) (seq 0 n)))
    keys.
Proof.
  induction keys as [|key keys IH]; intros Hown.
  - clear. induction (seq 0 n) as [|a l IHl]; [reflexivity | exact IHl].
  - assert (E : map (fun i => filter (fun key0 => own key0 = i) (key :: keys)) (seq 0 n)
              = map (fun i => if decide (own key = i)
                              then key :: filter (fun key0 => own key0 = i) keys
                              else filter (fun key0 => own key0 = i) keys) (seq 0 n)).
    { apply map_ext. intros i. rewrite filter_cons.
      destruct (decide (own key = i)); reflexivity. }
    rewrite E, (concat_add_one (fun i => filter (fun key0 => own key0 = i) keys))
      by apply NoDup_seq.
    rewrite decide_True.
    + constructor. apply IH. intros k Hk. apply Hown. right. exact Hk.
    + apply elem_of_seq. specialize (Hown key (or_introl eq_refl)). lia.
Qed.

(** What [DivideKeysByBucket] returns when every key has an owner below
    [n]. *)
Lemma group_keys_partition owner (own : string -> nat) (n : nat) (keys : list string) :
  (forall key, In key keys ->
     owner key = Ok (Z.of_nat (own key)) /\ (own key < n)%nat) ->
  exists rs, group_keys owner keys (replicate n []) = Ok rs /\
    length rs = n /\ Permutation (concat rs) keys /\
    forall i, (i < n)%nat -> rs !! i = Some (filter (fun key => own key = i) keys).
Proof.
  intros Hown.
  destruct (group_keys_groups owner own keys (replicate n [])) as (rs & Hrs & Hlen & Hg).
  { intros key Hk. rewrite length_replicate. apply Hown, Hk. }
  rewrite length_replicate in Hlen.
  assert (Hi : forall i, (i < n)%nat ->
            rs !! i = Some (filter (fun key => own key = i) keys)).
  { intros i Hlt. apply (Hg i []). apply lookup_replicate_2. exact Hlt. }
  exists rs. repeat split; try assumption.
  assert (E : rs = map (fun i => filter (fun key => own key = i) keys) (seq 0 n)).
  { apply list_eq. intros i. rewrite list_lookup_fmap.
    destruct (decide (i < n)%nat) as [Hlt|Hge].
    - rewrite Hi by exact Hlt. rewrite lookup_seq_lt by exact Hlt. reflexivity.
    - rewrite lookup_ge_None_2 by lia.
      rewrite lookup_seq_ge by lia. reflexivity. }
  rewrite E. apply groups_partition. intros key Hk. apply Hown, Hk.
Qed.

(** The fields of a scheduler that construction returned. *)
Lemma NewConsistantHashScheduler_ring (hm : HashMethod) (hosts : list string) c :
  NewConsistantHashScheduler hosts hm = Ok c ->
  ch_hashMethod c = hm /\ Sorted Z.le (ch_index c).
Proof.
  unfold NewConsistantHashScheduler.
  destruct (ring_entries hm 0 hosts) as [idx|p]; cbn [mbind result_bind]; [|discriminate].
  destruct (negb _); [discriminate|]. intros [= <-].
  split; [reflexivity | apply sort_Sort_sorted].
Qed.

(** C8. For a non-empty host list (of fewer than 2^32 hosts, so that the
    conversion [uint32(len(hosts))] of the modulo scheduler is exact) and
    every list of keys, [DivideKeysByBucket] of the [ModScheduler] and of a
    constructed [ConsistantHashScheduler] returns [len(hosts)] groups whose
    concatenation is a permutation of the keys, and group [i] is the
    subsequence of the keys, in their original order, whose owner is host
    [i]: the host [hash(key) mod len(hosts)] for the modulo scheduler; for
    the consistent-hash scheduler the ring owner [ring_owner], that is the
    host whose index is in the low 32 bits of the first entry of the ring
    at or above [hash(key) << 32], of the entry at index 0 when there is
    none. *)
Theorem DivideKeysByBucket_partition (hm : HashMethod) (hosts keys : list string) :
  hosts <> [] ->
  let n := length hosts in
  (Z.of_nat n < 2 ^ 32 ->
   exists rs,
     ModScheduler_DivideKeysByBucket (NewModScheduler hosts hm) keys = Ok rs /\
     length rs = n /\ Permutation (concat rs) keys /\
     forall i, (i < n)%nat ->
       rs !! i = Some (filter (fun key => hm key mod Z.of_nat n = Z.of_nat i) keys)) /\
  (forall c, NewConsistantHashScheduler hosts hm = Ok c ->
   exists rs,
     ConsistantHashScheduler_DivideKeysByBucket c keys = Ok rs /\
     length rs = n /\ Permutation (concat rs) keys /\
     forall i, (i < n)%nat ->
       rs !! i = Some (filter (fun key =>
                   ring_owner (ch_index c) (uint64 (Z.shiftl (hm key) 32))
                   = Ok (Z.of_nat i)) keys)).
Proof.
  intros Hne n.
  assert (Hn : (0 < n)%nat) by (subst n; destruct hosts; [congruence | simpl; lia]).
  split.
  - intros Hsmall. unfold ModScheduler_DivideKeysByBucket, NewModScheduler.
    cbn [mod_hosts mod_hashMethod]. rewrite length_map. fold n.
    assert (Hu : uint32 (Z.of_nat n) = Z.of_nat n)
      by (unfold uint32; apply Z.mod_small; lia).
    rewrite Hu.
    destruct (group_keys_partition
                (fun key => urem32 (hm key) (Z.of_nat n))
                (fun key => Z.to_nat (hm key mod Z.of_nat n)) n keys)
      as (rs & Hrs & Hlen & Hperm & Hg).
    { intros key _. pose proof (Z.mod_pos_bound (hm key) (Z.of_nat n) ltac:(lia)).
      unfold urem32. destruct (Z.eqb_spec (Z.of_nat n) 0); [lia|].
      rewrite Z2Nat.id by lia. split; [reflexivity | lia]. }
    exists rs. repeat split; try assumption.
    intros i Hi. rewrite (Hg i Hi). f_equal. apply list_filter_iff. intros key.
    pose proof (Z.mod_pos_bound (hm key) (Z.of_nat n) ltac:(lia)). lia.
  - intros c Hc. unfold ConsistantHashScheduler_DivideKeysByBucket.
    destruct (NewConsistantHashScheduler_ring hm hosts c Hc) as [Hhm Hsorted].
    assert (Hidx : forall key, exists r,
              getHostIndex c key = Ok r /\ 0 <= r < Z.of_nat n /\
              length (ch_hosts c) = n)
      by (intros key; apply (getHostIndex_constructed hm hosts c key Hne Hc)).
    assert (Hown : forall key,
              getHostIndex c key
              = ring_owner (ch_index c) (uint64 (Z.shiftl (hm key) 32))).
    { intros key. rewrite (getHostIndex_sorted c key Hsorted), Hhm. reflexivity. }
    destruct (Hidx EmptyString) as (_ & _ & _ & ->).
    destruct (group_keys_partition (getHostIndex c)
                (fun key => match getHostIndex c key with
                            | Ok r => Z.to_nat r
                            | Panic _ => O
                            end) n keys)
      as (rs & Hrs & Hlen & Hperm & Hg).
    { intros key _. destruct (Hidx key) as (r & Hr & Hrange & _).
      rewrite Hr, Z2Nat.id by lia. split; [reflexivity | lia]. }
    exists rs. repeat split; try assumption.
    intros i Hi. rewrite (Hg i Hi). f_equal. apply list_filter_iff. intros key.
    rewrite <- (Hown key).
    destruct (Hidx key) as (r & Hr & Hrange & _). rewrite Hr.
    split; [intros <-; rewrite Z2Nat.id by lia; reflexivity|].
    intros [= ->]. apply Nat2Z.id.
Qed.

Lemma DivideKeysByBucket_partition_witness :
  (exists rs,
     ModScheduler_DivideKeysByBucket (NewModScheduler sample_hosts fnv1a) sample_keys
     = Ok rs /\
     length rs = length sample_hosts /\ Permutation (concat rs) sample_keys /\
     forall i, (i < length sample_hosts)%nat ->
       rs !! i = Some (filter (fun key => fnv1a key mod Z.of_nat (length sample_hosts)
                                          = Z.of_nat i) sample_keys)) /\
  (exists c rs,
     NewConsistantHashScheduler (map address sample_addresses) fnv1a = Ok c /\
     ConsistantHashScheduler_DivideKeysByBucket c sample_keys = Ok rs /\
     length rs = length (map address sample_addresses) /\
     Permutation (concat rs) sample_keys /\
     forall i, (i < length (map address sample_addresses))%nat ->
       rs !! i = Some (filter (fun key =>
                   ring_owner (ch_index c) (uint64 (Z.shiftl (fnv1a key) 32))
                   = Ok (Z.of_nat i)) sample_keys)).
Proof.
  split.
  - refine (proj1 (DivideKeysByBucket_partition fnv1a sample_hosts sample_keys _) _).
    + discriminate.
    + vm_compute. reflexivity.
  - assert (Hc : NewConsistantHashScheduler (map address sample_addresses) fnv1a
                 = Ok {| ch_hosts := map NewHost (map address sample_addresses);
                         ch_index := sort_Sort (ring_from fnv1a 0 sample_addresses);
                         ch_hashMethod := fnv1a |})
      by (apply NewConsistantHashScheduler_ok; repeat constructor).
    destruct (proj2 (DivideKeysByBucket_partition fnv1a (map address sample_addresses)
                       sample_keys ltac:(discriminate)) _ Hc) as (rs & Hrs).
    eexists _, rs. split; [exact Hc | exact Hrs].
Defined.

(** * Feedback and the ranking of hosts *)

Local Open Scope nat_scope.
Local Open Scope list_scope.

Lemma item_weight (stats : list float) (h : nat) :
  h < length stats -> item stats h = Ok (weight stats h).
Proof.
  intros H. unfold item, weight. rewrite nth_lookup.
  destruct (lookup_lt_is_Some_2 stats h H) as [w ->]. reflexivity.
Qed.

Lemma item_lookup {A} (l : list A) (k : nat) (x : A) :
  l !! k = Some x -> item l k = Ok x.
Proof. intros H. unfold item. rewrite H. reflexivity. Qed.

Lemma item_middle {A} (L R : list A) (x : A) : item (L ++ x :: R) (length L) = Ok x.
Proof. unfold item. rewrite list_lookup_middle by reflexivity. reflexivity. Qed.

Lemma weight_insert (stats : list float) (i h : nat) (w : float) :
  i < length stats ->
  weight (<[i := w]> stats) h = if decide (h = i) then w else weight stats h.
Proof.
  intros Hi. unfold weight. rewrite !nth_lookup.
  destruct (decide (h = i)) as [->|Hne].
  - rewrite list_lookup_insert_eq by exact Hi. reflexivity.
  - rewrite list_lookup_insert_ne by congruence. reflexivity.
Qed.

(** ** The loops of [feedback] on a sequence split around host [i] *)

Lemma swap_adjacent (L R : list nat) (x y : nat) :
  swap (L ++ x :: y :: R) (S (length L)) (length L) = Ok (L ++ y :: x :: R) /\
  swap (L ++ x :: y :: R) (length L) (S (length L)) = Ok (L ++ y :: x :: R).
Proof.
  assert (H0 : (L ++ x :: y :: R) !! length L = Some x)
    by (apply list_lookup_middle; reflexivity).
  assert (H1 : (L ++ x :: y :: R) !! S (length L) = Some y).
  { rewrite lookup_app_r by lia. replace (S (length L) - length L) with 1 by lia.
    reflexivity. }
  unfold swap, item. rewrite H0, H1. cbn [mbind result_bind].
  split; f_equal.
  - rewrite insert_app_r_alt by lia. replace (S (length L) - length L) with 1 by lia.
    rewrite insert_app_r_alt by lia.
    rewrite Nat.sub_diag. reflexivity.
  - rewrite insert_app_r_alt by lia. rewrite Nat.sub_diag.
    rewrite insert_app_r_alt by lia.
    replace (S (length L) - length L) with 1 by lia. reflexivity.
Qed.

Lemma find_host_split (L R : list nat) (i : nat) : forall P : list nat,
  i ∉ L ->
  find_host (P ++ L ++ i :: R) i (length P) (length L + S (length R))
  = Ok (length P + length L).
Proof.
  induction L as [|x L IH]; intros P Hni.
  - cbn [app length Nat.add find_host]. rewrite item_middle. cbn [mbind result_bind].
    rewrite decide_True by reflexivity. f_equal. lia.
  - cbn [length Nat.add find_host].
    change (P ++ (x :: L) ++ i :: R) with (P ++ x :: (L ++ i :: R)).
    rewrite item_middle. cbn [mbind result_bind].
    rewrite decide_False by (intros ->; apply Hni; left).
    replace (P ++ x :: L ++ i :: R) with ((P ++ [x]) ++ L ++ i :: R)
      by (rewrite <- app_assoc; reflexivity).
    replace (S (length P)) with (length (P ++ [x])) by (rewrite length_app; simpl; lia).
    rewrite IH by (intros H; apply Hni; right; exact H).
    f_equal. rewrite length_app. simpl. lia.
Qed.

Section Bubble.

Variable stats : list float.
Variable i : nat.

Local Abbreviation w := (weight stats).

(** The left loop moves [i] in front of the hosts to its left whose
    weight is below its own, up to the first one that is not. *)
Lemma bubble_left_split (L : list nat) : forall R : list nat,
  Forall (fun h => h < length stats) (L ++ i :: R) ->
  exists L1 L2, L = (L1 ++ L2)%list /\
    bubble_left stats (L ++ i :: R) (length L)
    = Ok ((L1 ++ i :: L2 ++ R)%list, length L1) /\
    Forall (fun h => (w h <? w i)%float = true) L2 /\
    (forall L1' x, L1 = (L1' ++ [x])%list -> (w x <? w i)%float = false).
Proof.
  induction L as [|x L IH] using rev_ind; intros R Hin.
  - exists [], []. repeat split; try constructor.
    intros [|? ?] ? H; discriminate H.
  - rewrite length_app. cbn [length]. rewrite Nat.add_1_r.
    rewrite <- app_assoc in Hin |- *. cbn [app] in Hin |- *.
    cbn [bubble_left].
    assert (Hi : i < length stats).
    { rewrite Forall_app in Hin. destruct Hin as [_ Hin].
      inversion Hin as [|? ? _ Hin']; subst. inversion Hin'; subst. assumption. }
    assert (Hx : x < length stats).
    { rewrite Forall_app in Hin. destruct Hin as [_ Hin].
      inversion Hin; subst. assumption. }
    assert (E1 : item (L ++ x :: i :: R) (S (length L)) = Ok i).
    { unfold item. rewrite lookup_app_r by lia.
      replace (S (length L) - length L) with 1 by lia. reflexivity. }
    rewrite E1, item_middle. cbn [mbind result_bind].
    rewrite !item_weight by assumption. cbn [mbind result_bind].
    destruct (w x <? w i)%float eqn:Hlt.
    + rewrite (proj1 (swap_adjacent L R x i)). cbn [mbind result_bind].
      destruct (IH (x :: R)) as (L1 & L2 & -> & Hb & HL2 & Hlast).
      { rewrite !Forall_app in *. destruct Hin as [HL Hin].
        split; [exact HL|]. inversion Hin as [|? ? ? Hin']; subst.
        inversion Hin'; subst. repeat constructor; assumption. }
      exists L1, (L2 ++ [x])%list. rewrite Hb. repeat split.
      * rewrite app_assoc. reflexivity.
      * rewrite <- !app_assoc. reflexivity.
      * rewrite Forall_app. split; [exact HL2 | repeat constructor; exact Hlt].
      * exact Hlast.
    + exists (L ++ [x])%list, []. repeat split.
      * rewrite app_nil_r. reflexivity.
      * rewrite <- app_assoc, length_app. cbn [length app]. rewrite Nat.add_1_r.
        reflexivity.
      * constructor.
      * intros L1' y E. apply app_inj_tail in E as [_ ->]. exact Hlt.
Qed.

(** The right loop moves [i] behind the hosts to its right whose weight
    is above its own, up to the first one that is not. *)
Lemma bubble_right_split (R : list nat) : forall L : list nat,
  Forall (fun h => h < length stats) (L ++ i :: R) ->
  exists R1 R2, R = (R1 ++ R2)%list /\
    bubble_right stats (L ++ i :: R) (length L) (length R)
    = Ok ((L ++ R1 ++ i :: R2)%list, length L + length R1) /\
    Forall (fun h => (w i <? w h)%float = true) R1 /\
    (forall y R2', R2 = y :: R2' -> (w i <? w y)%float = false).
Proof.
  induction R as [|y R IH]; intros L Hin.
  - exists [], []. cbn [length bubble_right app]. rewrite Nat.add_0_r.
    repeat split; try constructor. intros ? ? H; discriminate H.
  - cbn [length bubble_right].
    assert (Hi : i < length stats).
    { rewrite Forall_app in Hin. destruct Hin as [_ Hin].
      inversion Hin; subst. assumption. }
    assert (Hy : y < length stats).
    { rewrite Forall_app in Hin. destruct Hin as [_ Hin].
      inversion Hin as [|? ? _ Hin']; subst. inversion Hin'; subst. assumption. }
    assert (E1 : item (L ++ i :: y :: R) (S (length L)) = Ok y).
    { unfold item. rewrite lookup_app_r by lia.
      replace (S (length L) - length L) with 1 by lia. reflexivity. }
    rewrite E1, item_middle. cbn [mbind result_bind].
    rewrite !item_weight by assumption. cbn [mbind result_bind].
    destruct (w i <? w y)%float eqn:Hlt.
    + rewrite (proj2 (swap_adjacent L R i y)). cbn [mbind result_bind].
      destruct (IH (L ++ [y])%list) as (R1 & R2 & -> & Hb & HR1 & Hhead).
      { rewrite <- app_assoc. cbn [app].
        rewrite !Forall_app in *. destruct Hin as [HL Hin].
        split; [exact HL|]. inversion Hin as [|? ? ? Hin']; subst.
        inversion Hin'; subst. repeat constructor; assumption. }
      exists (y :: R1), R2.
      replace (S (length L)) with (length (L ++ [y])%list)
        by (rewrite length_app; simpl; lia).
      replace (L ++ y :: i :: R1 ++ R2)%list with ((L ++ [y]) ++ i :: R1 ++ R2)%list
        by (rewrite <- app_assoc; reflexivity).
      rewrite Hb. repeat split.
      * rewrite <- !app_assoc, length_app. cbn [app length]. f_equal. f_equal. lia.
      * constructor; assumption.
      * exact Hhead.
    + exists [], (y :: R). cbn [app length]. rewrite Nat.add_0_r.
      repeat split; [constructor|].
      intros y' R2' [= <- <-]. exact Hlt.
Qed.

End Bubble.

(** ** One application of [feedback] *)

#[global] Instance outranks_trans stats : Transitive (outranks stats).
Proof. intros a b c Hab Hbc. unfold outranks in *. eapply Float64.leb_trans; eassumption. Qed.

Lemma ranked_sorted stats bucket :
  ranked stats bucket = true <-> StronglySorted (outranks stats) bucket.
Proof.
  unfold ranked. split.
  - intros H. apply Sorted_StronglySorted; [apply outranks_trans|].
    induction bucket as [|a [|b t] IH]; [constructor | repeat constructor |].
    cbn [map descending] in H. apply andb_prop in H as [H1 H2].
    constructor; [apply IH, H2 | constructor; exact H1].
  - intros H. apply StronglySorted_Sorted in H.
    induction H as [|a t Ht IH Hhd]; [reflexivity|].
    destruct t as [|b t]; [reflexivity|].
    cbn [map descending]. inversion Hhd; subst.
    apply andb_true_intro. split; [assumption | apply IH].
Qed.

Lemma well_formed_bucket c index stats0 bucket0 :
  well_formed c ->
  auto_stats c !! index = Some stats0 -> auto_buckets c !! index = Some bucket0 ->
  length stats0 = length (auto_hosts c) /\
  Permutation bucket0 (seq 0 (length (auto_hosts c))).
Proof.
  intros (_ & Hb & Hs) Hs0 Hb0. split.
  - eapply Forall_lookup_1 in Hs; [exact Hs | exact Hs0].
  - eapply Forall_lookup_1 in Hb; [exact Hb | exact Hb0].
Qed.

(** What [feedback] does to a well-formed state. *)
Lemma feedback_shape (c : AutoScheduler) (i index : nat) (adjust : float) :
  well_formed c ->
  i < length (auto_hosts c) -> index < length (auto_buckets c) ->
  exists stats0 L R buckets1,
    auto_stats c !! index = Some stats0 /\
    auto_buckets c !! index = Some (L ++ i :: R) /\
    (i ∉ L) /\ (i ∉ R) /\
    feedback c i index adjust
    = Ok {| auto_n := auto_n c;
            auto_hosts := auto_hosts c;
            auto_buckets := <[index := buckets1]> (auto_buckets c);
            auto_stats :=
              <[index := <[i := update_weight (weight stats0 i) adjust]> stats0]>
                (auto_stats c);
            auto_hashMethod := auto_hashMethod c |} /\
    reranked (<[i := update_weight (weight stats0 i) adjust]> stats0) i L R
      (weight stats0 i <? update_weight (weight stats0 i) adjust)%float buckets1.
Proof.
  intros Hwf Hi Hindex.
  pose proof Hwf as (Hlen & _ & _).
  destruct (lookup_lt_is_Some_2 (auto_stats c) index ltac:(lia)) as [stats0 Hs0].
  destruct (lookup_lt_is_Some_2 (auto_buckets c) index Hindex) as [bucket0 Hb0].
  destruct (well_formed_bucket c index stats0 bucket0 Hwf Hs0 Hb0) as [Hls Hperm].
  assert (Hin : i ∈ bucket0).
  { rewrite Hperm. apply elem_of_seq. lia. }
  destruct (list_elem_of_split _ _ Hin) as (L & R & ->).
  assert (Hnd : NoDup (L ++ i :: R)).
  { rewrite Hperm. apply NoDup_seq. }
  apply NoDup_app in Hnd as (_ & HniL & HndR).
  apply NoDup_cons in HndR as [HniR _].
  assert (HnL : i ∉ L) by (intros H; apply (HniL i H); left).
  assert (Hbound : Forall (fun h => h < length stats0) (L ++ i :: R)).
  { rewrite Hperm, Hls. apply Forall_forall. intros h Hh.
    apply elem_of_seq in Hh. lia. }
  assert (Hn : length (auto_hosts c) = length L + S (length R)).
  { apply Permutation_length in Hperm. rewrite length_seq, length_app in Hperm.
    simpl in Hperm. lia. }
  set (old := weight stats0 i). set (new := update_weight old adjust).
  set (stats1 := <[i := new]> stats0).
  assert (Hbound1 : Forall (fun h => h < length stats1) (L ++ i :: R))
    by (subst stats1; rewrite length_insert; exact Hbound).
  assert (Hnew : weight stats1 i = new).
  { subst stats1. rewrite weight_insert by lia. rewrite decide_True by reflexivity.
    reflexivity. }
  assert (Hfb : forall r : result (list nat * nat),
    (r = (if (old <? new)%float then bubble_left stats1 (L ++ i :: R) (length L)
          else bubble_right stats1 (L ++ i :: R) (length L) (length R))) ->
    feedback c i index adjust =
    ('(buckets, _) ← r;
     Ok {| auto_n := auto_n c; auto_hosts := auto_hosts c;
           auto_buckets := <[index := buckets]> (auto_buckets c);
           auto_stats := <[index := stats1]> (auto_stats c);
           auto_hashMethod := auto_hashMethod c |})).
  { intros r ->. unfold feedback.
    rewrite (item_lookup _ _ _ Hs0). cbn [mbind result_bind].
    rewrite item_weight by lia. cbn [mbind result_bind].
    rewrite (item_lookup _ _ _ Hb0). cbn [mbind result_bind].
    rewrite Hn.
    pose proof (find_host_split L R i [] HnL) as Hfind.
    cbn [app length Nat.add] in Hfind. rewrite Hfind. cbn [mbind result_bind].
    fold old new stats1.
    rewrite item_weight by (subst stats1; rewrite length_insert; lia).
    cbn [mbind result_bind]. rewrite Hnew, Float64.sub_pos.
    replace (length L + S (length R) - 1 - length L) with (length R) by lia.
    reflexivity. }
  destruct (old <? new)%float eqn:Hup.
  - destruct (bubble_left_split stats1 i L R Hbound1) as (L1 & L2 & -> & Hb & HL2 & Hlast).
    exists stats0, (L1 ++ L2), R, (L1 ++ i :: L2 ++ R).
    repeat split; try assumption.
    + rewrite (Hfb _ eq_refl), Hb. reflexivity.
    + fold old new stats1. rewrite Hup. apply moved_left; [reflexivity | assumption..].
  - destruct (bubble_right_split stats1 i R L Hbound1) as (R1 & R2 & -> & Hb & HR1 & Hhead).
    exists stats0, L, (R1 ++ R2), (L ++ R1 ++ i :: R2).
    repeat split; try assumption.
    + rewrite (Hfb _ eq_refl), Hb. reflexivity.
    + fold old new stats1. rewrite Hup. apply moved_right; [reflexivity | assumption..].
Qed.

Section Rerank.

Variable stats0 : list float.
Variable i : nat.
Variable new : float.
Hypothesis Hi : i < length stats0.

Local Abbreviation old := (weight stats0 i).
Local Abbreviation stats1 := (<[i := new]> stats0).

Lemma weight_new : weight stats1 i = new.
Proof. rewrite weight_insert by exact Hi. apply decide_True. reflexivity. Qed.

Lemma weight_other h : h <> i -> weight stats1 h = weight stats0 h.
Proof. intros H. rewrite weight_insert by exact Hi. apply decide_False. exact H. Qed.

Lemma outranks_other a b :
  a <> i -> b <> i -> outranks stats1 a b <-> outranks stats0 a b.
Proof.
  intros Ha Hb. unfold outranks. rewrite !weight_other by assumption. reflexivity.
Qed.

(** The order of the other hosts among themselves is not touched. *)
Lemma sorted_other l :
  i ∉ l -> StronglySorted (outranks stats0) l -> StronglySorted (outranks stats1) l.
Proof.
  intros Hni H. induction H as [|a l Hl IH Ha]; [constructor|].
  apply not_elem_of_cons in Hni as [Hai Hni].
  constructor; [apply IH, Hni|].
  rewrite Forall_forall in *. intros b Hb. apply outranks_other.
  - congruence.
  - intros ->. contradiction.
  - apply Ha, Hb.
Qed.

(** Hosts sorted among themselves, the last of which does not have less
    than [new], all have at least [new]. *)
Lemma above_new (l : list nat) :
  i ∉ l -> StronglySorted (outranks stats0) l ->
  Forall (fun a => is_nan (weight stats0 a) = false) l -> is_nan new = false ->
  (forall l' x, l = l' ++ [x] ->
     (weight stats1 x <? weight stats1 i)%float = false) ->
  Forall (fun a => outranks stats1 a i) l.
Proof.
  intros Hni Hs Hnan Hnew Hlast. revert Hni Hs Hnan Hlast.
  induction l as [|x l' _] using rev_ind; intros Hni Hs Hnan Hlast; [constructor|].
  specialize (Hlast l' x eq_refl).
  assert (Hx : x <> i) by (intros ->; apply Hni, elem_of_app; right; left).
  rewrite weight_new, weight_other in Hlast by exact Hx.
  assert (Hxn : is_nan (weight stats0 x) = false).
  { rewrite Forall_app in Hnan. destruct Hnan as [_ Hnan]. inversion Hnan; assumption. }
  assert (Hle : (new <=? weight stats0 x)%float = true)
    by (apply Float64.not_ltb_leb; assumption).
  apply StronglySorted_app in Hs as (Hcross & _ & _).
  rewrite Forall_app. split.
  - rewrite Forall_forall. intros a Ha.
    assert (Hai : a <> i) by (intros ->; apply Hni, elem_of_app; left; exact Ha).
    unfold outranks. rewrite weight_new, weight_other by exact Hai.
    eapply Float64.leb_trans; [exact Hle|]. apply (Hcross a x Ha). left.
  - repeat constructor. unfold outranks. rewrite weight_new, weight_other by exact Hx.
    exact Hle.
Qed.

(** Hosts sorted among themselves, the first of which does not have more
    than [new], all have at most [new]. *)
Lemma below_new (l : list nat) :
  i ∉ l -> StronglySorted (outranks stats0) l ->
  Forall (fun a => is_nan (weight stats0 a) = false) l -> is_nan new = false ->
  (forall y l', l = y :: l' ->
     (weight stats1 i <? weight stats1 y)%float = false) ->
  Forall (outranks stats1 i) l.
Proof.
  intros Hni Hs Hnan Hnew Hhead.
  destruct l as [|y l']; [constructor|].
  specialize (Hhead y l' eq_refl).
  apply not_elem_of_cons in Hni as [Hy Hni].
  rewrite weight_new, weight_other in Hhead by congruence.
  assert (Hyn : is_nan (weight stats0 y) = false) by (inversion Hnan; assumption).
  assert (Hle : (weight stats0 y <=? new)%float = true)
    by (apply Float64.not_ltb_leb; assumption).
  apply StronglySorted_inv in Hs as [_ Hs].
  constructor.
  - unfold outranks. rewrite weight_new, weight_other by congruence. exact Hle.
  - rewrite Forall_forall in *. intros b Hb.
    assert (Hbi : b <> i) by (intros ->; contradiction).
    unfold outranks. rewrite weight_new, weight_other by exact Hbi.
    eapply Float64.leb_trans; [|exact Hle]. apply Hs, Hb.
Qed.

(** The loops of [feedback] restore the order, provided the weights
    involved are numbers. *)
Lemma reranked_sorted (L R : list nat) (buckets1 : list nat) :
  i ∉ L -> i ∉ R ->
  StronglySorted (outranks stats0) (L ++ i :: R) ->
  Forall (fun a => is_nan (weight stats0 a) = false) (L ++ i :: R) ->
  is_nan new = false ->
  reranked stats1 i L R (old <? new)%float buckets1 ->
  StronglySorted (outranks stats1) buckets1.
Proof.
  intros HnL HnR Hs Hnan Hnew Hre.
  apply StronglySorted_app in Hs as (Hcross & HsL & HsiR).
  apply StronglySorted_inv in HsiR as [HsR HiR].
  rewrite Forall_forall in HiR.
  rewrite Forall_app in Hnan. destruct Hnan as [HnanL HnanR].
  inversion HnanR as [|? ? Hold HnanR']; subst. clear HnanR.
  assert (HLi : forall a, a ∈ L -> outranks stats0 a i)
    by (intros a Ha; apply (Hcross a i Ha); left).
  assert (HLR : forall a b, a ∈ L -> b ∈ R -> outranks stats0 a b)
    by (intros a b Ha Hb; apply (Hcross a b Ha); right; exact Hb).
  inversion Hre as [L1 L2 HL HL2 Hlast Hup|R1 R2 HR HR1 Hhead Hup]; subst.
  - (* the weight went up *)
    symmetry in Hup. pose proof (Float64.ltb_leb _ _ Hup) as Hle.
    apply not_elem_of_app in HnL as [HnL1 HnL2].
    apply StronglySorted_app in HsL as (HcrossL & HsL1 & HsL2).
    rewrite Forall_app in HnanL. destruct HnanL as [HnanL1 HnanL2].
    assert (Habove : Forall (fun a => outranks stats1 a i) L1)
      by (apply above_new; assumption).
    rewrite Forall_forall in Habove.
    apply StronglySorted_app_2.
    + intros a b Ha Hb. apply elem_of_cons in Hb as [->|Hb]; [apply Habove, Ha|].
      assert (Hai : a <> i) by (intros ->; contradiction).
      apply elem_of_app in Hb as [Hb|Hb].
      * apply outranks_other; [exact Hai | intros ->; contradiction|].
        apply HcrossL; assumption.
      * apply outranks_other; [exact Hai | intros ->; contradiction|].
        apply HLR; [apply elem_of_app; left; exact Ha | exact Hb].
    + apply sorted_other; assumption.
    + constructor.
      * apply sorted_other; [apply not_elem_of_app; split; assumption|].
        apply StronglySorted_app_2; try assumption.
        intros a b Ha Hb. apply HLR; [apply elem_of_app; right; exact Ha | exact Hb].
      * rewrite Forall_app. split.
        -- eapply Forall_impl; [exact HL2|]. intros b Hb. simpl in Hb.
           unfold outranks. apply Float64.ltb_leb, Hb.
        -- rewrite Forall_forall. intros b Hb.
           assert (Hbi : b <> i) by (intros ->; contradiction).
           unfold outranks. rewrite weight_new, weight_other by exact Hbi.
           eapply Float64.leb_trans; [apply HiR, Hb | exact Hle].
  - (* the weight did not go up *)
    symmetry in Hup.
    assert (Hle : (new <=? old)%float = true)
      by (apply Float64.not_ltb_leb; assumption).
    apply not_elem_of_app in HnR as [HnR1 HnR2].
    apply StronglySorted_app in HsR as (HcrossR & HsR1 & HsR2).
    rewrite Forall_app in HnanR'. destruct HnanR' as [HnanR1 HnanR2].
    assert (Hbelow : Forall (outranks stats1 i) R2)
      by (apply below_new; assumption).
    apply StronglySorted_app_2.
    + intros a b Ha Hb.
      assert (Hai : a <> i) by (intros ->; contradiction).
      apply elem_of_app in Hb as [Hb|Hb].
      * apply outranks_other; [exact Hai | intros ->; contradiction|].
        apply HLR; [exact Ha | apply elem_of_app; left; exact Hb].
      * apply elem_of_cons in Hb as [->|Hb].
        -- unfold outranks. rewrite weight_new, weight_other by exact Hai.
           eapply Float64.leb_trans; [exact Hle | apply HLi, Ha].
        -- apply outranks_other; [exact Hai | intros ->; contradiction|].
           apply HLR; [exact Ha | apply elem_of_app; right; exact Hb].
    + apply sorted_other; assumption.
    + apply StronglySorted_app_2.
      * intros a b Ha Hb.
        assert (Hai : a <> i) by (intros ->; contradiction).
        apply elem_of_cons in Hb as [->|Hb].
        -- rewrite Forall_forall in HR1. unfold outranks.
           apply Float64.ltb_leb, HR1, Ha.
        -- apply outranks_other; [exact Hai | intros ->; contradiction|].
           apply HcrossR; assumption.
      * apply sorted_other; assumption.
      * constructor; [apply sorted_other; assumption | exact Hbelow].
Qed.

End Rerank.

Lemma reranked_perm stats i L R up buckets1 :
  reranked stats i L R up buckets1 -> Permutation buckets1 (L ++ i :: R).
Proof.
  intros [L1 L2 -> _ _|R1 R2 -> _ _].
  - rewrite <- app_assoc. apply Permutation_app_head.
    apply Permutation_middle.
  - apply Permutation_app_head. symmetry. apply Permutation_middle.
Qed.

Lemma update_weight_not_nan old adjust :
  is_nan old = false -> is_finite adjust = true ->
  is_nan (update_weight old adjust) = false.
Proof.
  intros Hold Hadj. unfold update_weight.
  destruct (0 <=? adjust)%float.
  - apply Float64.half_not_nan, Float64.add_not_nan; assumption.
  - apply Float64.add_not_nan; assumption.
Qed.

Lemma nan_free_weight stats h :
  nan_free stats -> h < length stats -> is_nan (weight stats h) = false.
Proof.
  intros Hn Hh. unfold weight. rewrite nth_lookup.
  destruct (lookup_lt_is_Some_2 stats h Hh) as [w Hw]. rewrite Hw. simpl.
  eapply Forall_lookup_1 in Hn; [exact Hn | exact Hw].
Qed.

(** One message keeps the state well formed, every bucket ranked and the
    weights numbers. *)
Lemma feedback_step (c : AutoScheduler) (fb : Feedback) :
  well_formed c -> all_ranked c -> all_nan_free c -> valid_message c fb ->
  exists c', feedback c (hostIndex fb) (bucketIndex fb) (adjust fb) = Ok c' /\
    well_formed c' /\ all_ranked c' /\ all_nan_free c' /\
    length (auto_hosts c') = length (auto_hosts c) /\
    length (auto_buckets c') = length (auto_buckets c).
Proof.
  intros Hwf Hrk Hnan (Hi & Hindex & Hfin).
  destruct fb as [i index adj]. cbn [hostIndex bucketIndex adjust] in *.
  destruct (feedback_shape c i index adj Hwf Hi Hindex)
    as (stats0 & L & R & buckets1 & Hs0 & Hb0 & HnL & HnR & Hfb & Hre).
  destruct (well_formed_bucket c index stats0 _ Hwf Hs0 Hb0) as [Hls Hperm].
  pose proof Hwf as (Hlen & Hbk & Hst).
  assert (Hnf0 : nan_free stats0) by (eapply Forall_lookup_1 in Hnan; eassumption).
  assert (Hnew : is_nan (update_weight (weight stats0 i) adj) = false).
  { apply update_weight_not_nan; [|exact Hfin].
    apply nan_free_weight; [exact Hnf0 | lia]. }
  eexists. split; [exact Hfb|].
  unfold well_formed, all_ranked, all_nan_free.
  cbn [auto_hosts auto_buckets auto_stats].
  repeat split.
  - rewrite !length_insert. exact Hlen.
  - apply Forall_insert; [exact Hbk|].
    rewrite (reranked_perm _ _ _ _ _ _ Hre). exact Hperm.
  - apply Forall_insert; [exact Hst|]. rewrite length_insert. exact Hls.
  - apply Forall2_insert; [exact Hrk|].
    apply ranked_sorted.
    apply (reranked_sorted stats0 i (update_weight (weight stats0 i) adj)
             ltac:(lia) L R buckets1); try assumption.
    + apply ranked_sorted.
      exact (Forall2_lookup_lr _ _ _ index _ _ Hrk Hs0 Hb0).
    + rewrite Forall_forall. intros a Ha. apply nan_free_weight; [exact Hnf0|].
      rewrite Hperm in Ha. apply elem_of_seq in Ha. lia.
  - apply Forall_insert; [exact Hnan|]. apply Forall_insert; assumption.
  - rewrite length_insert. reflexivity.
Qed.

Lemma procFeedback_ranked (msgs : list Feedback) : forall c : AutoScheduler,
  well_formed c -> all_ranked c -> all_nan_free c ->
  Forall (valid_message c) msgs ->
  exists c', procFeedback c msgs = Ok c' /\
    well_formed c' /\ all_ranked c' /\ all_nan_free c'.
Proof.
  induction msgs as [|fb msgs IH]; intros c Hwf Hrk Hnan Hv.
  - exists c. split; [reflexivity|]. split; [assumption|]. split; assumption.
  - inversion Hv as [|? ? Hfb Hmsgs]; subst.
    destruct (feedback_step c fb Hwf Hrk Hnan Hfb)
      as (c1 & Hc1 & Hwf1 & Hrk1 & Hnan1 & Hh & Hb).
    cbn [procFeedback]. rewrite Hc1. cbn [mbind result_bind].
    apply IH; try assumption.
    eapply Forall_impl; [exact Hmsgs|]. intros m (H1 & H2 & H3).
    unfold valid_message. rewrite Hh, Hb. auto.
Qed.

(** The state that construction builds is well formed, ranked (all weights
    are 0) and free of NaN. *)
Lemma NewAutoScheduler_initial fnv1a1 config bs c0 :
  NewAutoScheduler fnv1a1 config bs = Ok c0 ->
  well_formed c0 /\ all_ranked c0 /\ all_nan_free c0.
Proof.
  unfold NewAutoScheduler. destruct (Z.ltb_spec bs 0); [discriminate|].
  intros [= <-]. unfold well_formed, all_ranked, all_nan_free.
  cbn [auto_hosts auto_buckets auto_stats]. rewrite !length_replicate, length_map.
  set (n := length config).
  assert (Hw : forall h, h < n -> weight (replicate n 0%float) h = 0%float).
  { intros h Hh. unfold weight. rewrite nth_lookup.
    rewrite (lookup_replicate_2 n 0%float h Hh). reflexivity. }
  repeat split.
  - apply Forall_replicate. reflexivity.
  - apply Forall_replicate, length_replicate.
  - apply Forall2_replicate. apply ranked_sorted.
    assert (Hall : forall l, Forall (fun h => h < n) l ->
                     StronglySorted (outranks (replicate n 0%float)) l).
    { induction l as [|a l IHl]; [constructor|]. intros Hl.
      inversion Hl; subst. constructor; [apply IHl; assumption|].
      eapply Forall_impl; [eassumption|]. intros b Hb. simpl in Hb.
      unfold outranks. rewrite !Hw by assumption. reflexivity. }
    apply Hall. apply Forall_forall. intros h Hh. apply elem_of_seq in Hh. lia.
  - apply Forall_replicate. apply Forall_replicate. reflexivity.
Qed.

(** C1, as stated, fails when a weight is NaN. A message whose [adjust] is
    NaN (the square root of a negative count, for one) makes the weight of
    its host NaN; every comparison with NaN is false, so that host is never
    moved and no host is moved across it. From the initial state of three
    hosts and one bucket, which is sorted, the message [(1, 0, NaN)] leaves
    the bucket with the weights [0, NaN, 0], which are not in descending
    order, and the message [(2, 0, 4)] after it raises host 2 to weight 2
    and leaves it behind host 0, whose weight is 0. *)
Lemma feedback_nan_counterexample :
  (drained three_hosts 1 [] = Ok ([[0; 1; 2]], [[0; 0; 0]%float]) /\
   ranked [0; 0; 0]%float [0; 1; 2] = true) /\
  (drained three_hosts 1 [message 1 0 nan]
   = Ok ([[0; 1; 2]], [[0; nan; 0]%float]) /\
   ranked [0; nan; 0]%float [0; 1; 2] = false) /\
  (drained three_hosts 1 [message 1 0 nan; message 2 0 4%float]
   = Ok ([[0; 1; 2]], [[0; nan; 2]%float]) /\
   ranked [0; nan; 2]%float [0; 1; 2] = false /\
   (0 <? 2)%float = true).
Proof. vm_compute. repeat split; reflexivity. Qed.

(** C1 (amended). On a well-formed [AutoScheduler] state (every bucket
    lists each host index once and has one weight per host) whose weights
    are numbers (not NaN) and whose buckets are each sorted by descending
    weight, one feedback message for a host and a bucket of the scheduler
    with a finite [adjust] (neither NaN nor an infinity) leaves the state
    well formed, every weight a number and every bucket sorted by
    descending weight again. Hence, after draining any finite sequence of
    such messages from the initial all-zero state, every bucket's
    preference sequence is sorted consistently with the final weights. *)
Theorem feedback_keeps_ranking :
  (forall (c : AutoScheduler) (fb : Feedback),
     well_formed c -> all_ranked c -> all_nan_free c -> valid_message c fb ->
     exists c',
       feedback c (hostIndex fb) (bucketIndex fb) (adjust fb) = Ok c' /\
       well_formed c' /\ all_ranked c' /\ all_nan_free c') /\
  (forall (fnv1a1 : HashMethod) (config : list string) (bs : Z)
          (msgs : list Feedback) (c0 : AutoScheduler),
     NewAutoScheduler fnv1a1 config bs = Ok c0 ->
     Forall (valid_message c0) msgs ->
     exists c', procFeedback c0 msgs = Ok c' /\ all_ranked c').
Proof.
  split.
  - intros c fb Hwf Hrk Hnan Hv.
    destruct (feedback_step c fb Hwf Hrk Hnan Hv) as (c' & H1 & H2 & H3 & H4 & _).
    exists c'. auto.
  - intros fnv1a1 config bs msgs c0 Hc0 Hv.
    destruct (NewAutoScheduler_initial _ _ _ _ Hc0) as (Hwf & Hrk & Hnan).
    destruct (procFeedback_ranked msgs c0 Hwf Hrk Hnan Hv) as (c' & H1 & _ & H3 & _).
    exists c'. auto.
Qed.

Lemma feedback_keeps_ranking_witness :
  exists c', procFeedback sample_state sample_messages = Ok c' /\ all_ranked c'.
Proof.
  apply (proj2 feedback_keeps_ranking fnv1a three_hosts 2%Z sample_messages
           sample_state eq_refl).
  unfold valid_message. repeat constructor.
Defined.

(** C2, as stated, fails: a positive [adjust] below the current weight
    lowers the weight, and can move the host toward the back. With two
    hosts, after the messages [(1, 0, 16)] and [(0, 0, 20)] host 0 has
    weight 10 and is ranked first, before host 1 of weight 8; the positive
    feedback [(0, 0, 2)] sets its weight to (10 + 2) / 2 = 6 and ranks it
    behind host 1. *)
Lemma positive_feedback_counterexample :
  drained two_hosts 1 [message 1 0 16%float; message 0 0 20%float]
  = Ok ([[0; 1]], [[10; 8]%float]) /\
  (0 <? 2)%float = true /\
  drained two_hosts 1
    [message 1 0 16%float; message 0 0 20%float; message 0 0 2%float]
  = Ok ([[1; 0]], [[6; 8]%float]) /\
  (6 <? 10)%float = true.
Proof. vm_compute. repeat split; reflexivity. Qed.

(** C2 (amended). On a well-formed state, a feedback message for host [i]
    in bucket [index] sets the weight of the host to [(weight + adjust) / 2]
    if [adjust >= 0] and to [weight + adjust] otherwise (a positive
    [adjust] below the weight lowers it). Whenever the application
    strictly increases the weight, the position of the host in the
    preference sequence of the bucket does not move toward the back; and
    whenever it leaves the weight below that of the host [j] ranked
    directly behind (a sufficiently negative [adjust]), the host ends
    behind [j], which takes its place, in that one application. *)
Theorem feedback_weight_and_position (c : AutoScheduler) (i index : nat) (adj : float) :
  well_formed c ->
  i < length (auto_hosts c) -> index < length (auto_buckets c) ->
  exists stats0 buckets0 stats1 buckets1 c',
    auto_stats c !! index = Some stats0 /\
    auto_buckets c !! index = Some buckets0 /\
    feedback c i index adj = Ok c' /\
    auto_stats c' !! index = Some stats1 /\
    auto_buckets c' !! index = Some buckets1 /\
    weight stats1 i
    = (if (0 <=? adj)%float then ((weight stats0 i + adj) / 2)%float
       else (weight stats0 i + adj)%float) /\
    (forall p p', buckets0 !! p = Some i -> buckets1 !! p' = Some i ->
       (weight stats0 i <? weight stats1 i)%float = true -> p' <= p) /\
    (forall p p' j,
       buckets0 !! p = Some i -> buckets0 !! S p = Some j ->
       buckets1 !! p' = Some i ->
       (weight stats0 j <=? weight stats0 i)%float = true ->
       (weight stats1 i <? weight stats0 j)%float = true ->
       p < p' /\ buckets1 !! p = Some j).
Proof.
  intros Hwf Hi Hindex.
  destruct (feedback_shape c i index adj Hwf Hi Hindex)
    as (stats0 & L & R & buckets1 & Hs0 & Hb0 & HnL & HnR & Hfb & Hre).
  destruct (well_formed_bucket c index stats0 _ Hwf Hs0 Hb0) as [Hls Hperm].
  pose proof Hwf as (Hlen & _ & _).
  set (new := update_weight (weight stats0 i) adj) in *.
  set (stats1 := <[i := new]> stats0) in *.
  assert (Hw1 : weight stats1 i = new) by (apply weight_new; lia).
  assert (Hnd0 : NoDup (L ++ i :: R)) by (rewrite Hperm; apply NoDup_seq).
  assert (Hnd1 : NoDup buckets1).
  { rewrite (reranked_perm _ _ _ _ _ _ Hre). exact Hnd0. }
  assert (Hpos : forall p, (L ++ i :: R) !! p = Some i -> p = length L).
  { intros p Hp. eapply NoDup_lookup; [exact Hnd0 | exact Hp |].
    apply list_lookup_middle. reflexivity. }
  eexists stats0, (L ++ i :: R), stats1, buckets1, _.
  split; [exact Hs0|]. split; [exact Hb0|]. split; [exact Hfb|].
  cbn [auto_stats auto_buckets].
  split; [apply list_lookup_insert_eq; lia|].
  split; [apply list_lookup_insert_eq; lia|].
  split; [rewrite Hw1; reflexivity|].
  rewrite Hw1. split.
  - intros p p' Hp Hp' Hup. apply Hpos in Hp. subst p.
    rewrite Hup in Hre. inversion Hre as [L1 L2 HL HL2 Hlast|]; subst.
    assert (p' = length L1).
    { eapply NoDup_lookup; [exact Hnd1 | exact Hp' |].
      apply list_lookup_middle. reflexivity. }
    subst p'. rewrite length_app. lia.
  - intros p p' j Hp Hj Hp' Hji Hnj. apply Hpos in Hp. subst p.
    assert (HR : exists R', R = j :: R').
    { rewrite lookup_app_r in Hj by lia.
      replace (S (length L) - length L) with 1 in Hj by lia.
      destruct R as [|j' R']; [discriminate Hj|].
      injection Hj as ->. eauto. }
    destruct HR as [R' ->].
    assert (Hjne : j <> i) by (intros ->; apply HnR; left).
    assert (Hup : (weight stats0 i <? new)%float = false).
    { destruct (weight stats0 i <? new)%float eqn:E; [|reflexivity].
      apply Float64.ltb_leb in E.
      pose proof (Float64.leb_trans _ _ _ Hji E) as Hjn.
      rewrite (Float64.ltb_not_leb _ _ Hnj) in Hjn. discriminate Hjn. }
    rewrite Hup in Hre. inversion Hre as [|R1 R2 HR HR1 Hhead]; subst.
    destruct R1 as [|j1 R1'].
    + cbn [app] in HR. subst R2. specialize (Hhead j R' eq_refl).
      rewrite Hw1 in Hhead. unfold stats1 in Hhead.
      rewrite weight_other in Hhead by (lia || exact Hjne).
      rewrite Hnj in Hhead. discriminate Hhead.
    + cbn [app] in HR. injection HR as <- ->.
      assert (p' = length (L ++ j :: R1')).
      { eapply NoDup_lookup; [exact Hnd1 | exact Hp' |].
        replace (L ++ (j :: R1') ++ i :: R2) with ((L ++ j :: R1') ++ i :: R2)
          by (rewrite <- app_assoc; reflexivity).
        apply list_lookup_middle. reflexivity. }
      subst p'. rewrite length_app. cbn [length]. split; [lia|].
      cbn [app]. apply list_lookup_middle. reflexivity.
Qed.

Lemma feedback_weight_and_position_witness :
  exists stats0 buckets0 stats1 buckets1 c',
    auto_stats sample_state !! 0 = Some stats0 /\
    auto_buckets sample_state !! 0 = Some buckets0 /\
    feedback sample_state 0 0 (-5)%float = Ok c' /\
    auto_stats c' !! 0 = Some stats1 /\
    auto_buckets c' !! 0 = Some buckets1 /\
    weight stats1 0
    = (if (0 <=? -5)%float then ((weight stats0 0 + -5) / 2)%float
       else (weight stats0 0 + -5)%float) /\
    (forall p p', buckets0 !! p = Some 0 -> buckets1 !! p' = Some 0 ->
       (weight stats0 0 <? weight stats1 0)%float = true -> p' <= p) /\
    (forall p p' j,
       buckets0 !! p = Some 0 -> buckets0 !! S p = Some j ->
       buckets1 !! p' = Some 0 ->
       (weight stats0 j <=? weight stats0 0)%float = true ->
       (weight stats1 0 <? weight stats0 j)%float = true ->
       p < p' /\ buckets1 !! p = Some j).
Proof.
  apply (feedback_weight_and_position sample_state 0 0 (-5)%float).
  - apply (NewAutoScheduler_initial fnv1a three_hosts 2 sample_state eq_refl).
  - simpl. lia.
  - simpl. lia.
Defined.

(** * The manual scheduler on a bucket without hosts *)

(** C5 (the code departs from it). The configuration [{"a:11211": [1]}]
    gives two buckets, of which bucket 0 has no host. The key ["@"] is in
    bucket 0 (the override with no digit), and [GetHostsByKey] computes
    [hash(key) % uint32(0)]: it panics with a division by zero instead of
    returning a host, whatever the hash method is. *)
Theorem ManualScheduler_GetHostsByKey_empty_bucket (fnv1a1 : HashMethod) :
  exists c,
    NewManualScheduler fnv1a1 [("a:11211", [1%Z])] = Ok c /\
    man_buckets c = [[]; ["a:11211"]] /\
    getBucketByKey (man_hashMethod c) (Z.of_nat (length (man_buckets c))) "@" = 0%Z /\
    ManualScheduler_GetHostsByKey c "@" = Panic DivideByZero.
Proof. eexists. repeat split; reflexivity. Qed.

(** The other schedulers do return a host: the modulo scheduler for every
    key, when it has hosts (fewer than 2^32). *)
Lemma ModScheduler_GetHostsByKey_one (hm : HashMethod) (hosts : list string) (key : string) :
  hosts <> [] -> (Z.of_nat (length hosts) < 2 ^ 32)%Z ->
  exists host,
    map NewHost hosts !! Z.to_nat (hm key mod Z.of_nat (length hosts)) = Some host /\
    ModScheduler_GetHostsByKey (NewModScheduler hosts hm) key = Ok [host].
Proof.
  intros Hne Hsmall. unfold ModScheduler_GetHostsByKey, NewModScheduler.
  cbn [mod_hosts mod_hashMethod]. rewrite length_map.
  assert (Hn : (0 < Z.of_nat (length hosts))%Z)
    by (destruct hosts; [congruence | simpl; lia]).
  assert (Hu : uint32 (Z.of_nat (length hosts)) = Z.of_nat (length hosts))
    by (unfold uint32; apply Z.mod_small; lia).
  rewrite Hu. unfold urem32.
  destruct (Z.eqb_spec (Z.of_nat (length hosts)) 0); [lia|]. cbn [mbind result_bind].
  pose proof (Z.mod_pos_bound (hm key) (Z.of_nat (length hosts)) Hn) as Hb.
  unfold itemZ. destruct (Z.ltb_spec (hm key mod Z.of_nat (length hosts)) 0); [lia|].
  destruct (lookup_lt_is_Some_2 (map NewHost hosts)
              (Z.to_nat (hm key mod Z.of_nat (length hosts)))) as [host Hh].
  { rewrite length_map. lia. }
  exists host. split; [exact Hh|]. rewrite (item_lookup _ _ _ Hh). reflexivity.
Qed.

(** * Probe responses *)

Lemma SplitN_sep a b sep n :
  Count a sep = 0%Z ->
  SplitN (a ++ String sep b)%string sep (S (S n)) = a :: SplitN b sep (S n).
Proof.
  induction a as [|c a IH]; intros H.
  - cbn [append SplitN]. rewrite Ascii.eqb_refl. reflexivity.
  - pose proof (Count_nonneg a sep). simpl in H.
    cbn [append SplitN].
    destruct (Ascii.eqb c sep); [lia|].
    rewrite IH by lia. reflexivity.
Qed.

Lemma SplitN_no_sep s sep n : Count s sep = 0%Z -> SplitN s sep (S n) = [s].
Proof.
  destruct n as [|n]; [intros _; apply SplitN_1|].
  induction s as [|c s IH]; intros H; [reflexivity|].
  pose proof (Count_nonneg s sep). simpl in H. cbn [SplitN].
  destruct (Ascii.eqb c sep); [lia|].
  rewrite IH by lia. reflexivity.
Qed.

(** A body of at most [n] lines splits into its lines. *)
Lemma SplitN_join_lines (ls : list string) : forall n,
  ls <> [] -> Forall (fun l => Count l "010" = 0%Z) ls -> length ls <= S n ->
  SplitN (join_lines ls) "010" (S n) = ls.
Proof.
  induction ls as [|l ls IH]; intros n Hne Hls Hlen; [congruence|].
  inversion Hls as [|? ? Hl Hls']; subst.
  destruct ls as [|l' ls].
  - cbn [join_lines]. apply SplitN_no_sep, Hl.
  - destruct n as [|n]; [simpl in Hlen; lia|].
    change (join_lines (l :: l' :: ls))
      with (l ++ String "010" (join_lines (l' :: ls)))%string.
    rewrite SplitN_sep by exact Hl. f_equal.
    apply IH; [discriminate | exact Hls' | simpl in *; lia].
Qed.

(** A record line gives one call of [Feedback], whatever [ParseFloat]
    reports about the count. *)
Lemma listHost_line_record (ParseFloat : ParseFloatFn) (dir name flags count : string) :
  Count name " " = 0%Z -> Count flags " " = 0%Z ->
  second_byte (record name flags count) = Ok 47%Z ->
  listHost_line ParseFloat dir (record name flags count)
  = Ok [((dir ++ name)%string, PrimFloat.sqrt (fst (ParseFloat count)))].
Proof.
  intros Hn Hf Hs. unfold listHost_line. rewrite Hs.
  assert (Hc : (2 <= Count (record name flags count) " ")%Z).
  { unfold record. rewrite Count_app. cbn [Count]. rewrite Count_app. cbn [Count].
    rewrite Ascii.eqb_refl. pose proof (Count_nonneg count " "). lia. }
  destruct (Z.ltb_spec (Count (record name flags count) " ") 2); [lia|].
  cbn [mbind result_bind]. change (47 =? 47)%Z with true. cbn [negb].
  unfold record. rewrite SplitN_sep by exact Hn. rewrite SplitN_2_sep by exact Hf.
  reflexivity.
Qed.

Lemma Count_le_length s sep : (Count s sep <= Z.of_nat (String.length s))%Z.
Proof.
  induction s as [|c s IH]; [reflexivity|].
  cbn [Count String.length]. destruct (Ascii.eqb c sep); lia.
Qed.

Lemma second_byte_total s :
  (2 <= Count s " ")%Z -> exists c, second_byte s = Ok c.
Proof.
  intros H. pose proof (Count_le_length s " ") as Hl.
  destruct s as [|c1 [|c2 s]]; cbn [String.length] in Hl; try lia.
  eexists. reflexivity.
Qed.

(** A line with two spaces is a record. *)
Lemma two_spaces_record line :
  (2 <= Count line " ")%Z ->
  exists name flags count,
    line = record name flags count /\
    Count name " " = 0%Z /\ Count flags " " = 0%Z.
Proof.
  intros H.
  destruct (split_at_first line " ") as [H0|(name & rest & -> & Hn)]; [lia|].
  rewrite Count_app in H. cbn [Count] in H. rewrite Ascii.eqb_refl in H.
  destruct (split_at_first rest " ") as [H0|(flags & count & -> & Hf)]; [lia|].
  exists name, flags, count. repeat split; assumption.
Qed.

(** Any other line gives none. *)
Lemma listHost_line_skipped (ParseFloat : ParseFloatFn) (dir line : string) :
  (Count line " " < 2)%Z \/ second_byte line <> Ok 47%Z ->
  listHost_line ParseFloat dir line = Ok [].
Proof.
  intros H. unfold listHost_line.
  destruct (Z.ltb_spec (Count line " ") 2) as [Hlt|Hge]; [reflexivity|].
  destruct H as [H|H]; [lia|].
  destruct (second_byte_total line Hge) as [c1 Hc1]. rewrite Hc1 in *.
  cbn [mbind result_bind]. destruct (Z.eqb_spec c1 47%Z) as [->|Hne]; [congruence|].
  reflexivity.
Qed.

(** No line makes [listHost] panic. *)
Lemma listHost_line_total (ParseFloat : ParseFloatFn) (dir line : string) :
  exists calls, listHost_line ParseFloat dir line = Ok calls.
Proof.
  destruct (Z.lt_ge_cases (Count line " ") 2) as [Hlt|Hge].
  - exists []. apply listHost_line_skipped. left. exact Hlt.
  - destruct (second_byte_total line Hge) as [c1 Hc1].
    destruct (Z.eq_dec c1 47%Z) as [->|Hne].
    + destruct (two_spaces_record line Hge) as (name & flags & count & -> & Hn & Hf).
      eexists. apply listHost_line_record; assumption.
    + exists []. apply listHost_line_skipped. right. congruence.
Qed.

Lemma listHost_lines_total (ParseFloat : ParseFloatFn) (dir : string) (ls : list string) :
  exists calls,
    Forall2 (fun line cs => listHost_line ParseFloat dir line = Ok cs) ls calls /\
    listHost_lines ParseFloat dir ls = Ok (concat calls).
Proof.
  induction ls as [|l ls (calls & Hall & Hcalls)].
  - exists []. split; [constructor | reflexivity].
  - destruct (listHost_line_total ParseFloat dir l) as [cs Hcs].
    exists (cs :: calls). split; [constructor; assumption|].
    cbn [listHost_lines concat]. rewrite Hcs, Hcalls. reflexivity.
Qed.

(** C9, as stated, fails: the error of [strconv.ParseFloat] is discarded,
    so a record whose count does not parse is not skipped; it gives a
    feedback with the value that [ParseFloat] returned with the error, 0
    for a syntax error, hence [adjust = sqrt(0) = 0]. Besides, the body is
    cut into at most 17 pieces, so of 18 well-formed records the last two
    are read as one record with an unparseable count. *)
Lemma listHost_unparseable_counterexample :
  snd (parseDecimal "abc") = true /\
  listHost parseDecimal (Some "0/ 1 abc"%string) "@"
  = Ok [("@0/"%string, 0%float)] /\
  listHost parseDecimal (Some sample_body) "@"
  = Ok [("@0/"%string, 4%float); ("@1/"%string, 0%float); ("@2/"%string, 5%float)] /\
  listHost parseDecimal (Some (join_lines (replicate 18 "0/ 1 4"%string))) "@"
  = Ok (replicate 16 ("@0/"%string, 2%float) ++ [("@0/"%string, 0%float)]).
Proof. vm_compute. repeat split; reflexivity. Qed.

(** C9 (amended). [listHost] handles each of the lines of a response body
    of at most 17 lines on its own and never aborts: a record line
    [name flags count] (two spaces, ['/'] as second byte) produces exactly
    one feedback, for the key [dir ++ name] with [adjust = sqrt(v)], where
    [v] is the value that [ParseFloat] returns for [count], with or without
    an error (0 for unparseable text); a line with fewer than two spaces or
    another second byte produces none; and the feedbacks of the response
    are those of its lines, in order. *)
Theorem listHost_feedbacks (ParseFloat : ParseFloatFn) (dir : string) :
  (forall name flags count : string,
     Count name " " = 0%Z -> Count flags " " = 0%Z ->
     second_byte (record name flags count) = Ok 47%Z ->
     listHost_line ParseFloat dir (record name flags count)
     = Ok [((dir ++ name)%string, PrimFloat.sqrt (fst (ParseFloat count)))]) /\
  (forall line : string,
     (Count line " " < 2)%Z \/ second_byte line <> Ok 47%Z ->
     listHost_line ParseFloat dir line = Ok []) /\
  (forall ls : list string,
     ls <> [] -> Forall (fun l => Count l "010" = 0%Z) ls -> length ls <= 17 ->
     exists calls,
       Forall2 (fun line cs => listHost_line ParseFloat dir line = Ok cs) ls calls /\
       listHost ParseFloat (Some (join_lines ls)) dir = Ok (concat calls)).
Proof.
  split; [|split].
  - intros name flags count. apply listHost_line_record.
  - intros line. apply listHost_line_skipped.
  - intros ls Hne Hnl Hlen. unfold listHost.
    rewrite SplitN_join_lines by (assumption || lia).
    apply listHost_lines_total.
Qed.

Lemma listHost_feedbacks_witness :
  listHost_line parseDecimal "@" (record "2/" "4" "25")
  = Ok [("@2/"%string, PrimFloat.sqrt (fst (parseDecimal "25")))] /\
  listHost_line parseDecimal "@" (record "1/" "3" "x")
  = Ok [("@1/"%string, PrimFloat.sqrt (fst (parseDecimal "x")))] /\
  exists calls,
    Forall2 (fun line cs => listHost_line parseDecimal "@" line = Ok cs)
      ["0/ 1 16"; "1/ 3 x"; "short"; "2/ 4 25"]%string calls /\
    listHost parseDecimal (Some sample_body) "@" = Ok (concat calls).
Proof.
  split; [|split].
  - apply (proj1 (listHost_feedbacks parseDecimal "@") "2/" "4" "25"); reflexivity.
  - apply (proj1 (listHost_feedbacks parseDecimal "@") "1/" "3" "x"); reflexivity.
  - apply (proj2 (proj2 (listHost_feedbacks parseDecimal "@"))
             ["0/ 1 16"; "1/ 3 x"; "short"; "2/ 4 25"]%string).
    + discriminate.
    + repeat constructor.
    + simpl. lia.
Defined.

(** * The range of the bucket index *)

Section BucketRange.

Local Open Scope Z_scope.

(** Whatever the bytes are, [hextoi] reads at most one digit per byte, so
    up to seven bytes give a number below [16 ^ 7] and the accumulator
    does not wrap. *)
Lemma hextoi_loop_bound (bs : list Z) : forall (skip : nat) (r m : Z),
  0 <= m -> m + Z.of_nat (length bs) <= 7 -> 0 <= r < 16 ^ m ->
  0 <= hextoi_loop bs skip r < 16 ^ (m + Z.of_nat (length bs)).
Proof.
  induction bs as [|b bs IH]; intros skip r m Hm Hlen Hr.
  - cbn [hextoi_loop length]. rewrite Z.add_0_r. exact Hr.
  - cbn [length] in *. rewrite Nat2Z.inj_succ in *.
    assert (Hmono : 16 ^ (m + Z.of_nat (length bs)) <= 16 ^ (m + Z.succ (Z.of_nat (length bs))))
      by (apply Z.pow_le_mono_r; lia).
    cbn [hextoi_loop]. destruct skip as [|k].
    + destruct (decodeRune (b :: bs)) as [c width].
      assert (Hpow : 16 ^ m <= 16 ^ 6) by (apply Z.pow_le_mono_r; lia).
      pose proof (hexdigit_step_small r c ltac:(lia)) as Hstep.
      pose proof (hex_value_range c) as Hv.
      replace (m + Z.succ (Z.of_nat (length bs))) with ((m + 1) + Z.of_nat (length bs)) by lia.
      apply IH; [lia | lia |].
      rewrite Hstep, Z.pow_add_r by lia. change (16 ^ 1) with 16. lia.
    + specialize (IH k r m Hm ltac:(lia) Hr). lia.
Qed.

Lemma hextoi_bound (s : string) :
  (String.length s <= 7)%nat -> 0 <= hextoi s < 16 ^ Z.of_nat (String.length s).
Proof.
  intros Hl. unfold hextoi.
  assert (E : length (bytes_of s) = String.length s).
  { unfold bytes_of. rewrite length_map.
    clear. induction s as [|c s IH]; simpl; [reflexivity | now rewrite IH]. }
  pose proof (hextoi_loop_bound (bytes_of s) 0 0 0 ltac:(lia) ltac:(lia) ltac:(lia)) as Hb.
  rewrite E in Hb. exact Hb.
Qed.

Lemma log2_bucket_count (bs : Z) :
  1 <= bs < 2 ^ 32 -> 0 <= Z.log2 bs <= 31 /\ 2 ^ Z.log2 bs <= bs.
Proof.
  intros Hbs. pose proof (Z.log2_nonneg bs).
  destruct (Z.log2_spec bs ltac:(lia)) as [Hlo Hhi].
  repeat split; try lia.
  assert (Z.log2 bs < 32); [|lia].
  apply Z.log2_lt_pow2; lia.
Qed.

Lemma getBucketByKey_below (hash_func : HashMethod) (bs : Z) (key : string) :
  1 <= bs < 2 ^ 32 -> 0 <= getBucketByKey hash_func bs key < 2 ^ Z.log2 bs.
Proof.
  intros Hbs. destruct (log2_bucket_count bs Hbs) as [Hw Hpow].
  unfold getBucketByKey. rewrite bucketWidthOf_log2.
  set (w := Z.log2 bs) in *.
  destruct (_ && _).
  - pose proof (length_substring 1 (Z.to_nat (w / 4)) key) as Hl.
    assert (Hq : 0 <= w / 4 <= 7) by (Z.div_mod_to_equations; lia).
    pose proof (hextoi_bound (substring 1 (Z.to_nat (w / 4)) key) ltac:(lia)) as Hb.
    split; [lia|]. eapply Z.lt_le_trans; [apply Hb|].
    transitivity (16 ^ (w / 4)).
    + apply Z.pow_le_mono_r; lia.
    + change 16 with (2 ^ 4). rewrite <- Z.pow_mul_r by lia.
      apply Z.pow_le_mono_r; [lia|]. Z.div_mod_to_equations; lia.
  - match goal with |- context [hash_fn hash_func ?k] => set (key' := k) end.
    rewrite shr32_spec by lia.
    pose proof (hash_range hash_func key') as Hh.
    rewrite Z.shiftr_div_pow2 by lia. split.
    + apply Z.div_pos; [lia|]. apply Z.pow_pos_nonneg; lia.
    + apply Z.div_lt_upper_bound; [apply Z.pow_pos_nonneg; lia|].
      rewrite <- Z.pow_add_r by lia. replace (32 - w + w) with 32 by lia. lia.
Qed.

(** X1. For every hash method, every bucket count [bs] from 1 to 2^32 - 1
    and every key, the index that [getBucketByKey] returns is at least 0
    and below [2 ^ log2 bs], hence below [bs]: it is an index of a slice of
    [bs] buckets, whatever bytes follow an ['@']. *)
Theorem getBucketByKey_in_range (hash_func : HashMethod) (bs : Z) (key : string) :
  1 <= bs < 2 ^ 32 ->
  0 <= getBucketByKey hash_func bs key < 2 ^ Z.log2 bs /\ 2 ^ Z.log2 bs <= bs.
Proof.
  intros Hbs. split.
  - apply getBucketByKey_below, Hbs.
  - apply log2_bucket_count, Hbs.
Qed.

Lemma getBucketByKey_in_range_witness :
  0 <= getBucketByKey fnv1a 300 two_byte_key < 2 ^ Z.log2 300 /\ 2 ^ Z.log2 300 <= 300.
Proof. apply (getBucketByKey_in_range fnv1a 300 two_byte_key). lia. Defined.

End BucketRange.

(** * Dividing keys among buckets *)

Lemma divideKeysByBucket_groups (hash_func : HashMethod) (bs : Z) (keys : list string) :
  (1 <= bs < 2 ^ 32)%Z ->
  exists rs, divideKeysByBucket hash_func bs keys = Ok rs /\
    length rs = Z.to_nat bs /\ Permutation (concat rs) keys /\
    forall b, b < Z.to_nat bs ->
      rs !! b = Some (filter (fun key => getBucketByKey hash_func bs key = Z.of_nat b) keys).
Proof.
  intros Hbs. unfold divideKeysByBucket.
  destruct (Z.ltb_spec bs 0); [lia|].
  assert (Hin : forall key, (0 <= getBucketByKey hash_func bs key < bs)%Z).
  { intros key. pose proof (getBucketByKey_below hash_func bs key Hbs).
    pose proof (log2_bucket_count bs Hbs). lia. }
  destruct (group_keys_partition
              (fun key => Ok (getBucketByKey hash_func bs key))
              (fun key => Z.to_nat (getBucketByKey hash_func bs key))
              (Z.to_nat bs) keys) as (rs & Hrs & Hlen & Hperm & Hg).
  { intros key _. specialize (Hin key). rewrite Z2Nat.id by lia. split; [reflexivity | lia]. }
  exists rs. repeat split; try assumption.
  intros b Hb. rewrite (Hg b Hb). f_equal. apply list_filter_iff. intros key.
  specialize (Hin key). lia.
Qed.

(** X2. [DivideKeysByBucket] of a manual and of an auto scheduler with
    between 1 and 2^32 - 1 buckets never fails: for every list of keys it
    returns one group per bucket, the groups together are a permutation of
    the keys, and group [b] is the subsequence of the keys, in their
    original order, whose bucket [getBucketByKey] is [b]. *)
Theorem DivideKeysByBucket_by_bucket (keys : list string) :
  (forall c : ManualScheduler,
     let bs := length (man_buckets c) in
     1 <= bs -> (Z.of_nat bs < 2 ^ 32)%Z ->
     exists rs, ManualScheduler_DivideKeysByBucket c keys = Ok rs /\
       length rs = bs /\ Permutation (concat rs) keys /\
       forall b, b < bs ->
         rs !! b = Some (filter (fun key =>
                     getBucketByKey (man_hashMethod c) (Z.of_nat bs) key = Z.of_nat b) keys)) /\
  (forall c : AutoScheduler,
     let bs := length (auto_buckets c) in
     1 <= bs -> (Z.of_nat bs < 2 ^ 32)%Z ->
     exists rs, AutoScheduler_DivideKeysByBucket c keys = Ok rs /\
       length rs = bs /\ Permutation (concat rs) keys /\
       forall b, b < bs ->
         rs !! b = Some (filter (fun key =>
                     getBucketByKey (auto_hashMethod c) (Z.of_nat bs) key = Z.of_nat b) keys)).
Proof.
  split; intros c bs H1 H2.
  - destruct (divideKeysByBucket_groups (man_hashMethod c) (Z.of_nat bs) keys ltac:(lia))
      as (rs & Hrs & Hlen & Hperm & Hg).
    rewrite Nat2Z.id in Hlen, Hg. exists rs. repeat split; assumption.
  - destruct (divideKeysByBucket_groups (auto_hashMethod c) (Z.of_nat bs) keys ltac:(lia))
      as (rs & Hrs & Hlen & Hperm & Hg).
    rewrite Nat2Z.id in Hlen, Hg. exists rs. repeat split; assumption.
Qed.

Lemma DivideKeysByBucket_by_bucket_witness :
  exists rs, AutoScheduler_DivideKeysByBucket sample_state sample_keys = Ok rs /\
    length rs = 2 /\ Permutation (concat rs) sample_keys /\
    forall b, b < 2 ->
      rs !! b = Some (filter (fun key => getBucketByKey fnv1a 2%Z key = Z.of_nat b)
                        sample_keys).
Proof.
  refine (proj2 (DivideKeysByBucket_by_bucket sample_keys) sample_state _ _).
  - simpl. lia.
  - simpl. lia.
Defined.

(** With no bucket at all every key is in bucket 0, which does not exist. *)
Lemma getBucketByKey_no_bucket (hash_func : HashMethod) (key : string) :
  getBucketByKey hash_func 0 key = 0%Z.
Proof.
  unfold getBucketByKey. cbn [bucketWidthOf]. change (0 / 4)%Z with 0%Z.
  destruct (_ && _).
  - cbn [Z.to_nat]. destruct key as [|c [|c' key]]; reflexivity.
  - match goal with |- context [hash_fn hash_func ?k] => set (key' := k) end.
    change (32 - 0)%Z with 32%Z. rewrite shr32_zero_width.
    rewrite Z.shiftr_div_pow2 by lia. apply Z.div_small, hash_range.
Qed.

(** X3. An auto scheduler can be constructed with no bucket
    ([bs = 0]), and then every routing call fails: [GetHostsByKey] panics
    with an index out of range for every key when there is a host, and
    [DivideKeysByBucket] panics for every non-empty list of keys (it
    returns no group for the empty list). A negative [bs] makes the
    construction itself panic. *)
Theorem AutoScheduler_without_buckets (fnv1a1 : HashMethod) (config : list string) :
  (exists c, NewAutoScheduler fnv1a1 config 0 = Ok c /\
     (config <> [] -> forall key,
        AutoScheduler_GetHostsByKey c key = Panic IndexOutOfRange) /\
     (forall key keys,
        AutoScheduler_DivideKeysByBucket c (key :: keys) = Panic IndexOutOfRange) /\
     AutoScheduler_DivideKeysByBucket c [] = Ok []) /\
  (forall bs, (bs < 0)%Z -> NewAutoScheduler fnv1a1 config bs = Panic MakeSliceLen).
Proof.
  split.
  - eexists. split; [reflexivity|].
    unfold AutoScheduler_GetHostsByKey, AutoScheduler_DivideKeysByBucket, divideKeysByBucket.
    cbn [auto_buckets auto_hosts auto_hashMethod Z.to_nat replicate length Z.of_nat Z.ltb Z.compare].
    repeat split.
    + intros Hne key. rewrite getBucketByKey_no_bucket.
      destruct config as [|a config]; [congruence|]. reflexivity.
    + intros key keys. cbn [group_keys mbind result_bind].
      rewrite getBucketByKey_no_bucket. reflexivity.
  - intros bs Hbs. unfold NewAutoScheduler.
    destruct (Z.ltb_spec bs 0); [reflexivity | lia].
Qed.

Lemma AutoScheduler_without_buckets_witness :
  (exists c, NewAutoScheduler fnv1a two_hosts 0 = Ok c /\
     AutoScheduler_GetHostsByKey c "k1" = Panic IndexOutOfRange) /\
  NewAutoScheduler fnv1a two_hosts (-1) = Panic MakeSliceLen.
Proof.
  split.
  - destruct (proj1 (AutoScheduler_without_buckets fnv1a two_hosts)) as (c & Hc & Hg & _).
    exists c. split; [exact Hc|]. apply Hg. discriminate.
  - apply (proj2 (AutoScheduler_without_buckets fnv1a two_hosts)). lia.
Defined.

(** * Routing one key and routing many keys agree *)

Lemma NewConsistantHashScheduler_hosts (hm : HashMethod) (hosts : list string) c :
  NewConsistantHashScheduler hosts hm = Ok c -> ch_hosts c = map NewHost hosts.
Proof.
  unfold NewConsistantHashScheduler.
  destruct (ring_entries hm 0 hosts) as [idx|p]; cbn [mbind result_bind]; [|discriminate].
  destruct (negb _); [discriminate|]. intros [= <-]. reflexivity.
Qed.

(** X4. The two routing methods agree. For a non-empty host list (of
    fewer than 2^32 hosts for the modulo scheduler): when
    [DivideKeysByBucket] puts a key into group [i], [GetHostsByKey] of that
    key returns exactly the host at index [i] of the host list. This holds
    for the [ModScheduler] and for every constructed
    [ConsistantHashScheduler]. *)
Theorem DivideKeysByBucket_matches_GetHostsByKey
    (hm : HashMethod) (hosts keys : list string) :
  hosts <> [] ->
  ((Z.of_nat (length hosts) < 2 ^ 32)%Z ->
   exists rs,
     ModScheduler_DivideKeysByBucket (NewModScheduler hosts hm) keys = Ok rs /\
     forall i g h key, rs !! i = Some g -> key ∈ g -> hosts !! i = Some h ->
       ModScheduler_GetHostsByKey (NewModScheduler hosts hm) key = Ok [NewHost h]) /\
  (forall c, NewConsistantHashScheduler hosts hm = Ok c ->
   exists rs,
     ConsistantHashScheduler_DivideKeysByBucket c keys = Ok rs /\
     forall i g h key, rs !! i = Some g -> key ∈ g -> hosts !! i = Some h ->
       ConsistantHashScheduler_GetHostsByKey c key = Ok [NewHost h]).
Proof.
  intros Hne. set (n := length hosts).
  assert (Hn : 0 < n) by (subst n; destruct hosts; [congruence | simpl; lia]).
  split.
  - intros Hsmall.
    assert (Hu : uint32 (Z.of_nat n) = Z.of_nat n)
      by (unfold uint32; apply Z.mod_small; lia).
    pose proof (fun key => ModScheduler_GetHostsByKey_one hm hosts key Hne Hsmall) as Hget.
    revert Hget. generalize (ModScheduler_GetHostsByKey (NewModScheduler hosts hm)).
    intros get Hget.
    unfold ModScheduler_DivideKeysByBucket, NewModScheduler.
    cbn [mod_hosts mod_hashMethod]. rewrite length_map. fold n. rewrite Hu.
    destruct (group_keys_partition
                (fun key => urem32 (hm key) (Z.of_nat n))
                (fun key => Z.to_nat (hm key mod Z.of_nat n)) n keys)
      as (rs & Hrs & Hlen & Hperm & Hg).
    { intros key _. pose proof (Z.mod_pos_bound (hm key) (Z.of_nat n) ltac:(lia)).
      unfold urem32. destruct (Z.eqb_spec (Z.of_nat n) 0); [lia|].
      rewrite Z2Nat.id by lia. split; [reflexivity | lia]. }
    exists rs. split; [exact Hrs|].
    intros i g h key Hi Hkey Hh.
    assert (Hlt : i < n) by (apply lookup_lt_Some in Hh; exact Hh).
    rewrite (Hg i Hlt) in Hi. injection Hi as <-.
    apply list_elem_of_filter in Hkey as [Hown _].
    destruct (Hget key) as (host & Hhost & ->).
    fold n in Hhost. rewrite Hown in Hhost.
    rewrite list_lookup_fmap, Hh in Hhost. injection Hhost as <-. reflexivity.
  - intros c Hc.
    assert (Hidx : forall key, exists r,
              getHostIndex c key = Ok r /\ (0 <= r < Z.of_nat n)%Z /\
              length (ch_hosts c) = n)
      by (intros key; apply (getHostIndex_constructed hm hosts c key Hne Hc)).
    unfold ConsistantHashScheduler_DivideKeysByBucket.
    destruct (Hidx EmptyString) as (_ & _ & _ & ->).
    destruct (group_keys_partition (getHostIndex c)
                (fun key => match getHostIndex c key with
                            | Ok r => Z.to_nat r
                            | Panic _ => O
                            end) n keys)
      as (rs & Hrs & Hlen & Hperm & Hg).
    { intros key _. destruct (Hidx key) as (r & Hr & Hrange & _).
      rewrite Hr, Z2Nat.id by lia. split; [reflexivity | lia]. }
    exists rs. split; [exact Hrs|].
    intros i g h key Hi Hkey Hh.
    assert (Hlt : i < n) by (apply lookup_lt_Some in Hh; exact Hh).
    rewrite (Hg i Hlt) in Hi. injection Hi as <-.
    apply list_elem_of_filter in Hkey as [Hown _].
    destruct (Hidx key) as (r & Hr & Hrange & _). rewrite Hr in Hown.
    unfold ConsistantHashScheduler_GetHostsByKey. rewrite Hr. cbn [mbind result_bind].
    unfold itemZ. destruct (Z.ltb_spec r 0); [lia|]. rewrite Hown.
    rewrite (NewConsistantHashScheduler_hosts hm hosts c Hc).
    unfold item. rewrite list_lookup_fmap, Hh. reflexivity.
Qed.

Lemma DivideKeysByBucket_matches_GetHostsByKey_witness :
  exists rs,
    ModScheduler_DivideKeysByBucket (NewModScheduler sample_hosts fnv1a) sample_keys = Ok rs /\
    forall i g h key, rs !! i = Some g -> key ∈ g -> sample_hosts !! i = Some h ->
      ModScheduler_GetHostsByKey (NewModScheduler sample_hosts fnv1a) key = Ok [NewHost h].
Proof.
  refine (proj1 (DivideKeysByBucket_matches_GetHostsByKey fnv1a sample_hosts sample_keys _) _).
  - discriminate.
  - vm_compute. reflexivity.
Defined.

(** * Schedulers without hosts *)

(** X5. What the four schedulers do when they are built from no host at
    all. The modulo scheduler panics with a division by zero in
    [GetHostsByKey] for every key; the consistent-hash scheduler is
    constructed with an empty ring and panics with an index out of range;
    the manual scheduler of the empty configuration has one bucket without
    hosts and panics with a division by zero; the auto scheduler returns
    the empty sequence of hosts, for any number of buckets. *)
Theorem GetHostsByKey_without_hosts (hm : HashMethod) (key : string) :
  ModScheduler_GetHostsByKey (NewModScheduler [] hm) key = Panic DivideByZero /\
  (exists c, NewConsistantHashScheduler [] hm = Ok c /\
     ConsistantHashScheduler_GetHostsByKey c key = Panic IndexOutOfRange) /\
  (exists c, NewManualScheduler hm [] = Ok c /\ man_buckets c = [[]] /\
     ManualScheduler_GetHostsByKey c key = Panic DivideByZero) /\
  (forall bs, (0 <= bs)%Z ->
     exists c, NewAutoScheduler hm [] bs = Ok c /\
       AutoScheduler_GetHostsByKey c key = Ok []).
Proof.
  split; [reflexivity|]. split; [|split].
  - eexists. split; [reflexivity|].
    unfold ConsistantHashScheduler_GetHostsByKey, getHostIndex, sort_Search.
    cbn [ch_index ch_hosts ch_hashMethod sort_Sort foldr length].
    rewrite Search_loop_step. reflexivity.
  - exists {| man_hosts := []; man_buckets := [[]]; man_hashMethod := hm |}.
    split; [reflexivity|]. split; [reflexivity|].
    unfold ManualScheduler_GetHostsByKey. cbn [man_buckets man_hashMethod].
    change (Z.of_nat (length [[]])) with 1%Z.
    pose proof (getBucketByKey_below hm 1 key ltac:(lia)) as Hb.
    change (2 ^ Z.log2 1)%Z with 1%Z in Hb.
    replace (getBucketByKey hm 1 key) with 0%Z by lia. reflexivity.
  - intros bs Hbs. unfold NewAutoScheduler. destruct (Z.ltb_spec bs 0); [lia|].
    eexists. split; reflexivity.
Qed.

Lemma GetHostsByKey_without_hosts_witness :
  exists c, NewAutoScheduler fnv1a [] 4 = Ok c /\
    AutoScheduler_GetHostsByKey c "k1" = Ok [].
Proof.
  apply (proj2 (proj2 (proj2 (GetHostsByKey_without_hosts fnv1a "k1"))) 4%Z). lia.
Defined.

(** * The buckets of a manual scheduler *)

Section ManualBuckets.

Local Open Scope Z_scope.

Lemma itemZ_lookup {A} (l : list A) (i : Z) (x : A) :
  0 <= i -> l !! Z.to_nat i = Some x -> itemZ l i = Ok x.
Proof.
  intros Hi H. unfold itemZ. destruct (Z.ltb_spec i 0); [lia|].
  apply item_lookup, H.
Qed.

Lemma itemZ_negative {A} (l : list A) (i : Z) : i < 0 -> itemZ l i = Panic IndexOutOfRange.
Proof. intros H. unfold itemZ. destruct (Z.ltb_spec i 0); [reflexivity | lia]. Qed.

(** The inner loop of the dispatch appends [addr] to the bucket of every
    number of the entry. *)
Lemma dispatch_host_spec (addr : string) (bs : list Z) :
  forall buckets : list (list string),
  Forall (fun bi => 0 <= bi < Z.of_nat (length buckets)) bs ->
  exists buckets', dispatch_host addr bs buckets = Ok buckets' /\
    length buckets' = length buckets /\
    forall (b : nat) g, buckets !! b = Some g ->
      buckets' !! b
      = Some (g ++ map (fun _ => addr) (filter (fun bi => bi = Z.of_nat b) bs))%list.
Proof.
  induction bs as [|bi bs IH]; intros buckets Hbs.
  - exists buckets. split; [reflexivity|]. split; [reflexivity|].
    intros b g Hg. rewrite app_nil_r. exact Hg.
  - inversion Hbs as [|? ? Hbi Hbs']; subst.
    destruct (lookup_lt_is_Some_2 buckets (Z.to_nat bi) ltac:(lia)) as [g0 Hg0].
    cbn [dispatch_host]. unfold append_key.
    rewrite (itemZ_lookup buckets bi g0 ltac:(lia) Hg0).
    cbn [mbind result_bind].
    destruct (IH (<[Z.to_nat bi := (g0 ++ [addr])%list]> buckets))
      as (buckets' & Hd & Hlen & Hg).
    { rewrite length_insert. exact Hbs'. }
    exists buckets'. split; [exact Hd|]. rewrite length_insert in Hlen.
    split; [exact Hlen|].
    intros b g Hb. rewrite filter_cons.
    destruct (decide (bi = Z.of_nat b)) as [->|Hne].
    + rewrite Nat2Z.id in *. rewrite Hb in Hg0. injection Hg0 as <-.
      rewrite (Hg b (g ++ [addr])%list).
      * rewrite <- app_assoc. reflexivity.
      * apply list_lookup_insert_eq. apply lookup_lt_Some in Hb. exact Hb.
    + apply Hg. rewrite list_lookup_insert_ne by lia. exact Hb.
Qed.

Lemma dispatch_spec (config : list (string * list Z)) :
  forall buckets : list (list string),
  Forall (fun bi => 0 <= bi < Z.of_nat (length buckets)) (bucket_numbers config) ->
  exists buckets', dispatch config buckets = Ok buckets' /\
    length buckets' = length buckets /\
    forall (b : nat) g, buckets !! b = Some g ->
      buckets' !! b = Some (g ++ assigned config (Z.of_nat b))%list.
Proof.
  induction config as [|[addr bs] config IH]; intros buckets Hbs.
  - exists buckets. split; [reflexivity|]. split; [reflexivity|].
    intros b g Hg. cbn. rewrite app_nil_r. exact Hg.
  - unfold bucket_numbers in Hbs. cbn [flat_map snd] in Hbs.
    apply Forall_app in Hbs as [Hbs Hrest].
    destruct (dispatch_host_spec addr bs buckets Hbs) as (buckets1 & Hd1 & Hlen1 & Hg1).
    cbn [dispatch]. rewrite Hd1. cbn [mbind result_bind].
    destruct (IH buckets1) as (buckets' & Hd & Hlen & Hg).
    { rewrite Hlen1. exact Hrest. }
    exists buckets'. split; [exact Hd|]. split; [lia|].
    intros b g Hb. rewrite (Hg b _ (Hg1 b g Hb)).
    unfold assigned. cbn [flat_map fst snd]. rewrite <- app_assoc. reflexivity.
Qed.

(** A negative bucket number stops the dispatch with a panic. *)
Lemma dispatch_host_negative (addr : string) (bs : list Z) :
  forall buckets : list (list string),
  Forall (fun bi => bi < Z.of_nat (length buckets)) bs ->
  Exists (fun bi => bi < 0) bs ->
  dispatch_host addr bs buckets = Panic IndexOutOfRange.
Proof.
  induction bs as [|bi bs IH]; intros buckets Hlt Hex; [inversion Hex|].
  inversion Hlt as [|? ? Hbi Hlt']; subst.
  cbn [dispatch_host]. unfold append_key.
  destruct (Z_lt_dec bi 0) as [Hneg|Hpos].
  - rewrite itemZ_negative by exact Hneg. reflexivity.
  - destruct (lookup_lt_is_Some_2 buckets (Z.to_nat bi) ltac:(lia)) as [g0 Hg0].
    rewrite (itemZ_lookup buckets bi g0 ltac:(lia) Hg0).
    cbn [mbind result_bind]. apply IH.
    + rewrite length_insert. exact Hlt'.
    + inversion Hex; subst; [lia | assumption].
Qed.

Lemma dispatch_negative (config : list (string * list Z)) :
  forall buckets : list (list string),
  Forall (fun bi => bi < Z.of_nat (length buckets)) (bucket_numbers config) ->
  Exists (fun bi => bi < 0) (bucket_numbers config) ->
  dispatch config buckets = Panic IndexOutOfRange.
Proof.
  induction config as [|[addr bs] config IH]; intros buckets Hlt Hex; [inversion Hex|].
  unfold bucket_numbers in Hlt, Hex. cbn [flat_map snd] in Hlt, Hex.
  apply Forall_app in Hlt as [Hlt Hrest]. cbn [dispatch].
  destruct (decide (Exists (fun bi => bi < 0) bs)) as [Hneg|Hpos].
  - rewrite dispatch_host_negative by assumption. reflexivity.
  - destruct (dispatch_host_spec addr bs buckets) as (buckets1 & Hd1 & Hlen1 & _).
    { apply Forall_forall. intros bi Hbi. split.
      - destruct (Z_lt_dec bi 0) as [Hn|Hn]; [|lia].
        exfalso. apply Hpos. apply Exists_exists. exists bi. split; assumption.
      - rewrite Forall_forall in Hlt. apply Hlt, Hbi. }
    rewrite Hd1. cbn [mbind result_bind]. apply IH.
    + rewrite Hlen1. exact Hrest.
    + apply Exists_app in Hex as [Hex|Hex]; [contradiction | exact Hex].
Qed.

(** The number of buckets is one more than the largest configured number,
    and at least 1. *)
Lemma count_step_spec (l : list Z) : forall count : Z,
  let r := fold_left (fun count b => if count <=? b then b + 1 else count) l count in
  count <= r /\ Forall (fun b => b < r) l /\ (r = count \/ r - 1 ∈ l).
Proof.
  induction l as [|b l IH]; intros count; cbn [fold_left].
  - split; [lia|]. split; [constructor | left; reflexivity].
  - specialize (IH (if count <=? b then b + 1 else count)).
    cbn zeta in IH. destruct IH as (Hle & Hall & Hmax).
    destruct (Z.leb_spec count b).
    + split; [lia|]. split; [constructor; [lia | exact Hall]|].
      right. destruct Hmax as [->|Hin].
      * replace (b + 1 - 1) with b by lia. left.
      * right. exact Hin.
    + split; [lia|]. split; [constructor; [lia | exact Hall]|].
      destruct Hmax as [->|Hin]; [left; reflexivity | right; right; exact Hin].
Qed.

Lemma bucket_count_fold (config : list (string * list Z)) : forall count : Z,
  fold_left
    (fun count entry =>
       fold_left (fun count b => if count <=? b then b + 1 else count) (snd entry) count)
    config count
  = fold_left (fun count b => if count <=? b then b + 1 else count)
      (bucket_numbers config) count.
Proof.
  induction config as [|entry config IH]; intros count; [reflexivity|].
  unfold bucket_numbers. cbn [fold_left flat_map]. rewrite fold_left_app.
  apply IH.
Qed.

Lemma bucket_count_spec (config : list (string * list Z)) :
  1 <= bucket_count config /\
  Forall (fun b => b < bucket_count config) (bucket_numbers config) /\
  (bucket_count config = 1 \/ bucket_count config - 1 ∈ bucket_numbers config).
Proof.
  unfold bucket_count. rewrite bucket_count_fold. apply count_step_spec.
Qed.

Lemma NewManualScheduler_ok (fnv1a1 : HashMethod) (config : list (string * list Z)) :
  Forall (fun b => 0 <= b) (bucket_numbers config) ->
  exists buckets,
    NewManualScheduler fnv1a1 config
    = Ok {| man_hosts := map (fun entry => (fst entry, NewHost (fst entry))) config;
            man_buckets := buckets; man_hashMethod := fnv1a1 |} /\
    Z.of_nat (length buckets) = bucket_count config /\
    forall b : nat, (b < length buckets)%nat ->
      buckets !! b = Some (assigned config (Z.of_nat b)).
Proof.
  intros Hpos. destruct (bucket_count_spec config) as (H1 & Hlt & _).
  destruct (dispatch_spec config (replicate (Z.to_nat (bucket_count config)) []))
    as (buckets & Hd & Hlen & Hg).
  { rewrite length_replicate, Z2Nat.id by lia.
    rewrite Forall_forall in *. intros b Hb. split; [apply Hpos, Hb | apply Hlt, Hb]. }
  rewrite length_replicate in Hlen.
  exists buckets. unfold NewManualScheduler. rewrite Hd. cbn [mbind result_bind].
  split; [reflexivity|]. split; [lia|].
  intros b Hb. apply (Hg b []). apply lookup_replicate_2. lia.
Qed.

(** X6. For a configuration whose bucket numbers are [int] values below
    [2 ^ 63 - 1], so that [b + 1] does not wrap: [NewManualScheduler]
    succeeds exactly when no bucket number is negative; a negative number
    makes it panic with an index out of range. It builds
    [max(1, 1 + largest number)] buckets, a number that fits an [int], and
    bucket [b] holds, in the order of the dispatch loop, the address of
    every entry once for each occurrence of [b] among the numbers of that
    entry. *)
Theorem NewManualScheduler_buckets (fnv1a1 : HashMethod) (config : list (string * list Z)) :
  Forall (fun b => - 2 ^ 63 <= b < 2 ^ 63 - 1) (bucket_numbers config) ->
  (Forall (fun b => 0 <= b) (bucket_numbers config) ->
   exists c, NewManualScheduler fnv1a1 config = Ok c /\
     Z.of_nat (length (man_buckets c)) = bucket_count config /\
     forall b : nat, (b < length (man_buckets c))%nat ->
       man_buckets c !! b = Some (assigned config (Z.of_nat b))) /\
  (Exists (fun b => b < 0) (bucket_numbers config) ->
   NewManualScheduler fnv1a1 config = Panic IndexOutOfRange) /\
  (1 <= bucket_count config < 2 ^ 63 /\
   Forall (fun b => b < bucket_count config) (bucket_numbers config) /\
   (bucket_count config = 1 \/ bucket_count config - 1 ∈ bucket_numbers config)).
Proof.
  intros Hint. split; [|split].
  - intros Hpos. destruct (NewManualScheduler_ok fnv1a1 config Hpos) as (buckets & Hc & Hlen & Hg).
    eexists. split; [exact Hc|]. split; assumption.
  - intros Hneg. destruct (bucket_count_spec config) as (H1 & Hlt & _).
    unfold NewManualScheduler. rewrite dispatch_negative; [reflexivity | | exact Hneg].
    rewrite length_replicate, Z2Nat.id by lia. exact Hlt.
  - destruct (bucket_count_spec config) as (H1 & Hlt & Hmax).
    split; [|split; assumption]. split; [exact H1|].
    destruct Hmax as [->|Hin]; [lia|].
    rewrite Forall_forall in Hint. specialize (Hint _ Hin). lia.
Qed.

Lemma NewManualScheduler_buckets_witness :
  (exists c, NewManualScheduler fnv1a [("a:1", [0; 2]); ("b:1", [2; 2])] = Ok c /\
     Z.of_nat (length (man_buckets c)) = 3 /\
     forall b : nat, (b < length (man_buckets c))%nat ->
       man_buckets c !! b
       = Some (assigned [("a:1", [0; 2]); ("b:1", [2; 2])] (Z.of_nat b))) /\
  NewManualScheduler fnv1a [("a:1", [0; -1])] = Panic IndexOutOfRange.
Proof.
  split.
  - apply (proj1 (NewManualScheduler_buckets fnv1a [("a:1", [0; 2]); ("b:1", [2; 2])]
                    ltac:(repeat constructor; lia))).
    repeat constructor; lia.
  - apply (proj1 (proj2 (NewManualScheduler_buckets fnv1a [("a:1", [0; -1])]
                           ltac:(repeat constructor; lia)))).
    right. left. lia.
Defined.

End ManualBuckets.

(** * The hosts of a bucket of a manual scheduler *)

Section ManualHosts.

Local Open Scope Z_scope.

Lemma elem_of_assigned (config : list (string * list Z)) (b : Z) (a : string) :
  a ∈ assigned config b <-> exists bs, (a, bs) ∈ config /\ b ∈ bs.
Proof.
  unfold assigned. rewrite list_elem_of_In, in_flat_map. split.
  - intros ([a' bs] & Hin & Ha). cbn [fst snd] in Ha.
    apply in_map_iff in Ha as (bi & <- & Hbi).
    apply list_elem_of_In, list_elem_of_filter in Hbi as [-> Hbi].
    exists bs. split; [apply list_elem_of_In, Hin | exact Hbi].
  - intros (bs & Hin & Hb). exists (a, bs). split; [apply list_elem_of_In, Hin|].
    cbn [fst snd]. apply in_map_iff. exists b. split; [reflexivity|].
    apply list_elem_of_In, list_elem_of_filter. split; [reflexivity | exact Hb].
Qed.

(** The host map of a constructed scheduler has a host for every address
    of the configuration. *)
Lemma host_of_config (config : list (string * list Z)) (a : string) :
  host_of (map (fun entry => (fst entry, NewHost (fst entry))) config) a
  = if decide (a ∈ map fst config) then Some (NewHost a) else None.
Proof.
  induction config as [|[a' bs] config IH]; cbn [map host_of fst].
  - rewrite decide_False; [reflexivity | apply not_elem_of_nil].
  - destruct (String.eqb_spec a' a) as [->|Hne].
    + rewrite decide_True; [reflexivity | left].
    + rewrite IH. destruct (decide (a ∈ map fst config)) as [Hin|Hnin].
      * rewrite decide_True; [reflexivity | right; exact Hin].
      * rewrite decide_False; [reflexivity|].
        intros Hin. apply elem_of_cons in Hin as [?|?]; congruence.
Qed.

(** Two positions of the bucket are never placed in the same slot. *)
Lemma slots_differ (N rnd a b : Z) :
  0 <= a < b -> b < N -> 0 <= rnd -> (a + rnd) mod N <> (b + rnd) mod N.
Proof.
  intros Hab Hb Hr E.
  pose proof (Z.div_mod (a + rnd) N ltac:(lia)) as Ea.
  pose proof (Z.div_mod (b + rnd) N ltac:(lia)) as Eb.
  rewrite E in Ea.
  assert (Hd : b - a = N * ((b + rnd) / N - (a + rnd) / N)) by lia.
  assert (Hq : (a + rnd) / N <= (b + rnd) / N) by (apply Z.div_le_mono; lia).
  revert Hd Hq. generalize ((b + rnd) / N) ((a + rnd) / N). intros q2 q1 Hd Hq.
  destruct (Z.eq_dec q2 q1) as [->|Hne].
  - rewrite Z.sub_diag, Z.mul_0_r in Hd. lia.
  - assert (N * 1 <= N * (q2 - q1)) by (apply Z.mul_le_mono_nonneg_l; lia). lia.
Qed.

(** The placing loop writes the host of position [j] of the bucket into
    the slot [(j + rnd) % N] and leaves the other slots as they were. *)
Lemma place_hosts_spec (hosts : list (string * Host)) (rnd : Z) (addrs : list string) :
  forall (j : nat) (hs : list (option Host)),
  0 <= rnd ->
  (j + length addrs <= length hs)%nat ->
  let N := Z.of_nat (length hs) in
  exists hs', place_hosts hosts N rnd j addrs hs = Ok hs' /\
    length hs' = length hs /\
    (forall (k : nat) addr, addrs !! k = Some addr ->
       hs' !! Z.to_nat ((Z.of_nat (j + k) + rnd) mod N) = Some (host_of hosts addr)) /\
    (forall p : nat,
       (forall k : nat, (k < length addrs)%nat ->
          p <> Z.to_nat ((Z.of_nat (j + k) + rnd) mod N)) ->
       hs' !! p = hs !! p).
Proof.
  induction addrs as [|addr addrs IH]; intros j hs Hr Hlen N.
  - exists hs. split; [reflexivity|]. split; [reflexivity|].
    split; [intros k a Hk; discriminate Hk | reflexivity].
  - cbn [length] in Hlen.
    assert (HN : 0 < N) by (subst N; lia).
    pose proof (Z.mod_pos_bound (Z.of_nat j + rnd) N HN) as Hslot.
    cbn [place_hosts]. unfold store.
    rewrite Z.rem_mod_nonneg by lia. fold N.
    destruct (Z.ltb_spec ((Z.of_nat j + rnd) mod N) 0); [lia|].
    destruct (Z.leb_spec N ((Z.of_nat j + rnd) mod N)); [lia|].
    cbn [orb mbind result_bind].
    set (slot := Z.to_nat ((Z.of_nat j + rnd) mod N)).
    destruct (IH (S j) (<[slot := host_of hosts addr]> hs) Hr) as (hs' & Hp & Hl & Hset & Hkeep).
    { rewrite length_insert. lia. }
    rewrite length_insert in Hp, Hl, Hset, Hkeep. fold N in Hp, Hset, Hkeep.
    exists hs'. split; [exact Hp|]. split; [exact Hl|]. split.
    + intros [|k] a Hk.
      * injection Hk as <-. rewrite Nat.add_0_r. fold slot.
        rewrite Hkeep.
        -- apply list_lookup_insert_eq. subst slot. lia.
        -- intros k Hk. subst slot. intros E. apply Z2Nat.inj in E; try lia.
           ++ revert E. apply slots_differ; lia.
           ++ apply Z.mod_pos_bound; lia.
      * replace (j + S k)%nat with (S j + k)%nat by lia. apply Hset. exact Hk.
    + intros p Hp'. rewrite Hkeep.
      * apply list_lookup_insert_ne. specialize (Hp' 0%nat ltac:(simpl; lia)).
        rewrite Nat.add_0_r in Hp'. subst slot. congruence.
      * intros k Hk. replace (S j + k)%nat with (j + S k)%nat by lia.
        apply Hp'. simpl. lia.
Qed.

(** X7. In a scheduler that [NewManualScheduler] returned (with fewer than
    2^32 buckets), [GetHostsByKey] looks at the bucket of the key, which
    holds the [N] addresses that the configuration assigns to it. When
    [N = 0] it panics with a division by zero. When [0 < N < 2^32] it
    returns [N] hosts, none of them nil: the host of position [j] of the
    bucket is at position [(j + hash(key) % N) % N] of the result, so the
    result is the bucket rotated by [hash(key) % N] and holds every host of
    the bucket. *)
Theorem ManualScheduler_GetHostsByKey_rotation
    (fnv1a1 : HashMethod) (config : list (string * list Z)) (c : ManualScheduler)
    (key : string) :
  NewManualScheduler fnv1a1 config = Ok c ->
  Z.of_nat (length (man_buckets c)) < 2 ^ 32 ->
  let b := getBucketByKey fnv1a1 (Z.of_nat (length (man_buckets c))) key in
  let bucket := assigned config b in
  let N := Z.of_nat (length bucket) in
  man_buckets c !! Z.to_nat b = Some bucket /\
  (N = 0 -> ManualScheduler_GetHostsByKey c key = Panic DivideByZero) /\
  (0 < N < 2 ^ 32 ->
   exists hs, ManualScheduler_GetHostsByKey c key = Ok hs /\
     length hs = length bucket /\
     (forall (j : nat) addr, bucket !! j = Some addr ->
        hs !! Z.to_nat ((Z.of_nat j + fnv1a1 key mod N) mod N)
        = Some (Some (NewHost addr))) /\
     Forall (fun h => exists addr, addr ∈ bucket /\ h = Some (NewHost addr)) hs).
Proof.
  intros Hc Hsmall b bucket N.
  destruct (decide (Exists (fun bi => bi < 0) (bucket_numbers config))) as [Hneg|Hpos].
  { destruct (bucket_count_spec config) as (H1 & Hlt & _).
    unfold NewManualScheduler in Hc. rewrite dispatch_negative in Hc; [discriminate | | exact Hneg].
    rewrite length_replicate, Z2Nat.id by lia. exact Hlt. }
  assert (Hall : Forall (fun bi => 0 <= bi) (bucket_numbers config)).
  { apply Forall_forall. intros bi Hbi. destruct (Z_lt_dec bi 0) as [Hn|Hn]; [|lia].
    exfalso. apply Hpos, Exists_exists. exists bi. split; assumption. }
  destruct (NewManualScheduler_ok fnv1a1 config Hall) as (buckets & Hok & Hcount & Hg).
  rewrite Hok in Hc. injection Hc as <-.
  cbn [man_buckets] in *. destruct (bucket_count_spec config) as (H1 & _ & _).
  pose proof (getBucketByKey_below fnv1a1 (Z.of_nat (length buckets)) key ltac:(lia)) as Hb.
  pose proof (log2_bucket_count (Z.of_nat (length buckets)) ltac:(lia)) as [_ Hpow].
  fold b in Hb.
  assert (Hbucket : buckets !! Z.to_nat b = Some bucket).
  { rewrite Hg by lia. subst bucket. rewrite Z2Nat.id by lia. reflexivity. }
  split; [exact Hbucket|].
  unfold ManualScheduler_GetHostsByKey. cbn [man_buckets man_hashMethod man_hosts].
  fold b. rewrite (itemZ_lookup buckets b bucket ltac:(lia) Hbucket).
  cbn [mbind result_bind]. fold N. split.
  { intros ->. reflexivity. }
  intros HN.
  assert (Hu : uint32 N = N) by (unfold uint32; apply Z.mod_small; lia).
  rewrite Hu. unfold urem32. destruct (Z.eqb_spec N 0); [lia|].
  cbn [mbind result_bind].
  pose proof (Z.mod_pos_bound (fnv1a1 key) N ltac:(lia)) as Hrnd.
  set (rnd := fnv1a1 key mod N) in *.
  destruct (place_hosts_spec
              (map (fun entry => (fst entry, NewHost (fst entry))) config)
              rnd bucket 0 (replicate (length bucket) None) ltac:(lia))
    as (hs & Hp & Hl & Hset & _).
  { rewrite length_replicate. lia. }
  rewrite length_replicate in Hp, Hl, Hset. fold N in Hp, Hset.
  assert (Hhost : forall addr, addr ∈ bucket ->
            host_of (map (fun entry => (fst entry, NewHost (fst entry))) config) addr
            = Some (NewHost addr)).
  { intros addr Ha. rewrite host_of_config. rewrite decide_True; [reflexivity|].
    apply elem_of_assigned in Ha as (bs & Hin & _).
    apply list_elem_of_fmap. exists (addr, bs). split; [reflexivity | exact Hin]. }
  assert (Hat : forall (j : nat) addr, bucket !! j = Some addr ->
            hs !! Z.to_nat ((Z.of_nat j + rnd) mod N) = Some (Some (NewHost addr))).
  { intros j addr Hj. rewrite <- (Hhost addr) by (eapply list_elem_of_lookup_2; exact Hj).
    apply (Hset j addr Hj). }
  exists hs. split; [exact Hp|]. split; [exact Hl|].
  split; [exact Hat|].
  apply Forall_lookup. intros p h Hph.
  assert (Hplt : (p < length bucket)%nat) by (apply lookup_lt_Some in Hph; lia).
  set (j := Z.to_nat ((Z.of_nat p - rnd) mod N)).
  pose proof (Z.mod_pos_bound (Z.of_nat p - rnd) N ltac:(lia)) as Hj.
  destruct (lookup_lt_is_Some_2 bucket j ltac:(subst j N; lia)) as [addr Haddr].
  exists addr. split; [eapply list_elem_of_lookup_2; exact Haddr|].
  specialize (Hat j addr Haddr).
  assert (E : Z.to_nat ((Z.of_nat j + rnd) mod N) = p).
  { subst j. rewrite Z2Nat.id by lia. rewrite Zplus_mod_idemp_l.
    replace (Z.of_nat p - rnd + rnd) with (Z.of_nat p) by lia.
    rewrite Z.mod_small by lia. apply Nat2Z.id. }
  rewrite E in Hat. congruence.
Qed.

Lemma ManualScheduler_GetHostsByKey_rotation_witness :
  exists hs,
    ManualScheduler_GetHostsByKey
      {| man_hosts := [("a:1", NewHost "a:1"); ("b:1", NewHost "b:1")];
         man_buckets := [["a:1"; "b:1"]]; man_hashMethod := fnv1a |} "k1" = Ok hs /\
    length hs = 2%nat /\
    (forall (j : nat) addr, ["a:1"; "b:1"] !! j = Some addr ->
       hs !! Z.to_nat ((Z.of_nat j + fnv1a "k1" mod 2) mod 2) = Some (Some (NewHost addr))) /\
    Forall (fun h => exists addr, addr ∈ ["a:1"; "b:1"] /\ h = Some (NewHost addr)) hs.
Proof.
  refine (proj2 (proj2 (ManualScheduler_GetHostsByKey_rotation fnv1a
                          [("a:1", [0]); ("b:1", [0])] _ "k1" _ _)) _).
  - reflexivity.
  - simpl. lia.
  - vm_compute. split; reflexivity.
Defined.

End ManualHosts.

(** * The [Stats] methods *)

Lemma stats_set_eq (r : StatsMap) (a : string) (v : list float) :
  stats_set r a v a = Some v.
Proof. unfold stats_set. rewrite String.eqb_refl. reflexivity. Qed.

Lemma stats_set_ne (r : StatsMap) (a a' : string) (v : list float) :
  a' <> a -> stats_set r a v a' = r a'.
Proof.
  intros Hne. unfold stats_set. destruct (String.eqb_spec a' a); [congruence | reflexivity].
Qed.

Lemma stats_store_ok (r : StatsMap) (a : string) (i : nat) (w : float) (v : list float) :
  r a = Some v -> i < length v ->
  stats_store r a i w = Ok (stats_set r a (<[i := w]> v)).
Proof.
  intros Hr Hi. unfold stats_store. rewrite Hr.
  destruct (decide (i < length v)); [reflexivity | contradiction].
Qed.

Lemma zero_rows_from (addrs : list string) (n : nat) : forall (r : StatsMap) (a : string),
  foldl (fun r addr => stats_set r addr (replicate n 0%float)) r addrs a
  = if decide (a ∈ addrs) then Some (replicate n 0%float) else r a.
Proof.
  induction addrs as [|addr addrs IH]; intros r a; cbn [foldl].
  - rewrite decide_False; [reflexivity | apply not_elem_of_nil].
  - rewrite IH. destruct (decide (a ∈ addrs)) as [Hin|Hnin].
    + rewrite decide_True; [reflexivity | right; exact Hin].
    + destruct (decide (a = addr)) as [->|Hne].
      * rewrite stats_set_eq. rewrite decide_True; [reflexivity | left].
      * rewrite stats_set_ne by exact Hne.
        rewrite decide_False; [reflexivity|].
        intros Hin. apply elem_of_cons in Hin as [?|?]; congruence.
Qed.

Lemma zero_rows_spec (addrs : list string) (n : nat) (a : string) :
  zero_rows addrs n a = if decide (a ∈ addrs) then Some (replicate n 0%float) else None.
Proof. apply zero_rows_from. Qed.

(** ** The modulo scheduler *)

Lemma ModScheduler_Stats_loop_spec (n : nat) (hosts : list Host) :
  forall (i : nat) (r : StatsMap), i + length hosts <= n ->
  exists r', ModScheduler_Stats_loop n hosts i r = Ok r' /\
    (forall a, a ∉ map Addr hosts -> r' a = r a) /\
    (forall k h, hosts !! k = Some h ->
       (forall k' h', k < k' -> hosts !! k' = Some h' -> Addr h' <> Addr h) ->
       r' (Addr h) = Some (<[i + k := 1%float]> (replicate n 0%float))).
Proof.
  induction hosts as [|h0 hosts IH]; intros i r Hlen.
  - exists r. split; [reflexivity|]. split; [reflexivity|]. intros k h Hk. discriminate Hk.
  - cbn [length] in Hlen. cbn [ModScheduler_Stats_loop].
    rewrite (stats_store_ok _ _ _ _ (replicate n 0%float));
      [|apply stats_set_eq | rewrite length_replicate; lia].
    cbn [mbind result_bind].
    match goal with |- context [ModScheduler_Stats_loop n hosts (S i) ?x] =>
      set (r1 := x) end.
    destruct (IH (S i) r1 ltac:(lia)) as (r' & Hr' & Hout & Hin).
    exists r'. split; [exact Hr'|]. split.
    + intros a Ha. cbn [map] in Ha. rewrite not_elem_of_cons in Ha. destruct Ha as [Hne Ha].
      rewrite (Hout a Ha). subst r1. rewrite !stats_set_ne by exact Hne. reflexivity.
    + intros [|k] h Hk Hlast.
      * injection Hk as <-. rewrite Nat.add_0_r. rewrite Hout.
        -- subst r1. apply stats_set_eq.
        -- intros Hmem. apply list_elem_of_fmap in Hmem as (h' & E & Hh').
           apply list_elem_of_lookup_1 in Hh' as [k' Hk'].
           apply (Hlast (S k') h' ltac:(lia) Hk'). symmetry. exact E.
      * replace (i + S k) with (S i + k) by lia. apply Hin; [exact Hk|].
        intros k' h' Hlt Hk'. apply (Hlast (S k') h' ltac:(lia) Hk').
Qed.

(** X8. [Stats] of a [ModScheduler] never fails. The map has no entry for
    an address that no host has; the entry of an address is the vector of
    [len(hosts)] zeros with a single 1 at the index of the last host that
    has this address. With pairwise distinct addresses the entry of host
    [k] is therefore the [k]-th unit vector; a host that shares its address
    with a later host has no 1 of its own. *)
Theorem ModScheduler_Stats_unit (c : ModScheduler) :
  exists r, ModScheduler_Stats c = Ok r /\
    (forall a, a ∉ map Addr (mod_hosts c) -> r a = None) /\
    (forall k h, mod_hosts c !! k = Some h ->
       (forall k' h', k < k' -> mod_hosts c !! k' = Some h' -> Addr h' <> Addr h) ->
       r (Addr h)
       = Some (<[k := 1%float]> (replicate (length (mod_hosts c)) 0%float))).
Proof.
  destruct (ModScheduler_Stats_loop_spec (length (mod_hosts c)) (mod_hosts c) 0 stats_empty
              ltac:(lia)) as (r & Hr & Hout & Hin).
  exists r. split; [exact Hr|]. split.
  - intros a Ha. rewrite (Hout a Ha). reflexivity.
  - intros k h Hk Hlast. apply (Hin k h Hk Hlast).
Qed.

Lemma ModScheduler_Stats_unit_witness :
  exists r, ModScheduler_Stats (NewModScheduler sample_hosts fnv1a) = Ok r /\
    r "b:11211"%string = Some [0; 1; 0]%float.
Proof.
  destruct (ModScheduler_Stats_unit (NewModScheduler sample_hosts fnv1a))
    as (r & Hr & _ & Hin).
  exists r. split; [exact Hr|].
  apply (Hin 1 (NewHost "b:11211") eq_refl).
  intros [|[|[|k']]] h' Hlt Hk'; try lia; try discriminate Hk'.
  injection Hk' as <-. discriminate.
Defined.

(** ** The manual scheduler *)

Lemma mark_hosts_spec (i : nat) (hs : list string) : forall r : StatsMap,
  (forall h, h ∈ hs -> exists v, r h = Some v /\ i < length v) ->
  exists r', mark_hosts i hs r = Ok r' /\
    forall a, r' a = (fun v => if decide (a ∈ hs) then <[i := 1%float]> v else v) <$> r a.
Proof.
  induction hs as [|h hs IH]; intros r Hpre.
  - exists r. split; [reflexivity|]. intros a.
    destruct (r a); cbn; [rewrite decide_False by apply not_elem_of_nil|]; reflexivity.
  - destruct (Hpre h ltac:(left)) as (v & Hv & Hi).
    cbn [mark_hosts]. rewrite (stats_store_ok _ _ _ _ v Hv Hi). cbn [mbind result_bind].
    destruct (IH (stats_set r h (<[i := 1%float]> v))) as (r' & Hr' & Hspec).
    { intros h' Hh'. destruct (decide (h' = h)) as [->|Hne].
      - rewrite stats_set_eq. eexists. split; [reflexivity|]. rewrite length_insert. exact Hi.
      - rewrite stats_set_ne by exact Hne. apply Hpre. right. exact Hh'. }
    exists r'. split; [exact Hr'|]. intros a. rewrite Hspec.
    destruct (decide (a = h)) as [->|Hne].
    + rewrite stats_set_eq, Hv. cbn. f_equal.
      rewrite (decide_True (P := h ∈ h :: hs)) by left.
      destruct (decide (h ∈ hs)); [apply list_insert_insert_eq | reflexivity].
    + rewrite stats_set_ne by exact Hne. destruct (r a) as [va|]; cbn; [|reflexivity].
      f_equal. destruct (decide (a ∈ hs)) as [Hin|Hnin].
      * rewrite decide_True; [reflexivity | right; exact Hin].
      * rewrite decide_False; [reflexivity|].
        intros Hin. apply elem_of_cons in Hin as [?|?]; congruence.
Qed.

Lemma mark_buckets_spec (buckets : list (list string)) : forall (i : nat) (r : StatsMap),
  (forall k hs h, buckets !! k = Some hs -> h ∈ hs ->
     exists v, r h = Some v /\ i + k < length v) ->
  exists r', mark_buckets buckets i r = Ok r' /\
    forall a,
      match r a with
      | None => r' a = None
      | Some v =>
        exists v', r' a = Some v' /\ length v' = length v /\
          (forall k hs, buckets !! k = Some hs -> a ∈ hs -> v' !! (i + k) = Some 1%float) /\
          (forall p, (forall k hs, buckets !! k = Some hs -> a ∈ hs -> p <> i + k) ->
             v' !! p = v !! p)
      end.
Proof.
  induction buckets as [|hs buckets IH]; intros i r Hpre.
  - exists r. split; [reflexivity|]. intros a. destruct (r a) as [v|]; [|reflexivity].
    exists v. repeat split; try reflexivity. intros k hs' Hk. discriminate Hk.
  - destruct (mark_hosts_spec i hs r) as (r1 & Hr1 & Hspec1).
    { intros h Hh. destruct (Hpre 0 hs h eq_refl Hh) as (v & Hv & Hlt).
      exists v. split; [exact Hv | lia]. }
    cbn [mark_buckets]. rewrite Hr1. cbn [mbind result_bind].
    destruct (IH (S i) r1) as (r' & Hr' & Hspec).
    { intros k hs' h Hk Hh. destruct (Hpre (S k) hs' h Hk Hh) as (v & Hv & Hlt).
      rewrite Hspec1, Hv. cbn. eexists. split; [reflexivity|].
      destruct (decide (h ∈ hs)); rewrite ?length_insert; lia. }
    exists r'. split; [exact Hr'|]. intros a. specialize (Hspec a).
    rewrite Hspec1 in Hspec. destruct (r a) as [v|] eqn:Hv; cbn in Hspec; [|exact Hspec].
    destruct Hspec as (v' & Hv' & Hlen & Hmark & Hkeep).
    exists v'. split; [exact Hv'|]. split.
    { rewrite Hlen. destruct (decide (a ∈ hs)); rewrite ?length_insert; reflexivity. }
    split.
    + intros [|k] hs' Hk Ha.
      * injection Hk as <-. rewrite Nat.add_0_r. rewrite Hkeep by (intros; lia).
        rewrite decide_True by exact Ha. apply list_lookup_insert_eq.
        destruct (Hpre 0 hs a eq_refl Ha) as (v0 & Hv0 & Hlt). rewrite Hv in Hv0.
        injection Hv0 as <-. lia.
      * replace (i + S k) with (S i + k) by lia. apply (Hmark k hs' Hk Ha).
    + intros p Hp. rewrite Hkeep.
      * destruct (decide (a ∈ hs)) as [Ha|Ha]; [|reflexivity].
        apply list_lookup_insert_ne. specialize (Hp 0 hs eq_refl Ha). lia.
      * intros k hs' Hk Ha. specialize (Hp (S k) hs' Hk Ha). lia.
Qed.

(** X9. [Stats] of a constructed manual scheduler gives the configuration
    back. It never fails; the map has an entry exactly for the addresses
    of the configuration, each a vector with one number per bucket, and the
    number for bucket [b] is 1 when the configuration assigns the address
    to [b] and 0 otherwise. *)
Theorem ManualScheduler_Stats_config
    (fnv1a1 : HashMethod) (config : list (string * list Z)) (c : ManualScheduler) :
  NewManualScheduler fnv1a1 config = Ok c ->
  exists r, ManualScheduler_Stats c = Ok r /\
    (forall a, a ∉ map fst config -> r a = None) /\
    (forall a, a ∈ map fst config ->
       exists v, r a = Some v /\ length v = length (man_buckets c) /\
         forall b, b < length (man_buckets c) ->
           v !! b = Some (if decide (a ∈ assigned config (Z.of_nat b))
                          then 1%float else 0%float)).
Proof.
  intros Hc.
  destruct (decide (Exists (fun bi => (bi < 0)%Z) (bucket_numbers config))) as [Hneg|Hpos].
  { destruct (bucket_count_spec config) as (H1 & Hlt & _).
    unfold NewManualScheduler in Hc. rewrite dispatch_negative in Hc; [discriminate | | exact Hneg].
    rewrite length_replicate, Z2Nat.id by lia. exact Hlt. }
  assert (Hall : Forall (fun bi => (0 <= bi)%Z) (bucket_numbers config)).
  { apply Forall_forall. intros bi Hbi. destruct (Z_lt_dec bi 0) as [Hn|Hn]; [|lia].
    exfalso. apply Hpos, Exists_exists. exists bi. split; assumption. }
  destruct (NewManualScheduler_ok fnv1a1 config Hall) as (buckets & Hok & Hcount & Hg).
  rewrite Hok in Hc. injection Hc as <-.
  unfold ManualScheduler_Stats. cbn [man_buckets man_hosts].
  rewrite map_map. cbn [fst]. fold (@fst string (list Z)).
  set (n := length buckets) in *.
  assert (Hrow : forall a, zero_rows (map fst config) n a
                 = if decide (a ∈ map fst config) then Some (replicate n 0%float) else None)
    by (intros a; apply zero_rows_spec).
  assert (Hmem : forall k hs h, buckets !! k = Some hs -> h ∈ hs ->
            h ∈ assigned config (Z.of_nat k) /\ k < n /\ h ∈ map fst config).
  { intros k hs h Hk Hh. assert (Hlt : k < n) by (apply lookup_lt_Some in Hk; exact Hk).
    rewrite (Hg k Hlt) in Hk. injection Hk as <-. split; [exact Hh|]. split; [exact Hlt|].
    apply elem_of_assigned in Hh as (bs & Hin & _).
    apply list_elem_of_fmap. exists (h, bs). split; [reflexivity | exact Hin]. }
  destruct (mark_buckets_spec buckets 0 (zero_rows (map fst config) n))
    as (r & Hr & Hspec).
  { intros k hs h Hk Hh. destruct (Hmem k hs h Hk Hh) as (_ & Hlt & Hin).
    rewrite Hrow, decide_True by exact Hin. eexists. split; [reflexivity|].
    rewrite length_replicate. lia. }
  exists r. split; [exact Hr|]. split.
  - intros a Ha. specialize (Hspec a). rewrite Hrow, decide_False in Hspec by exact Ha.
    exact Hspec.
  - intros a Ha. specialize (Hspec a). rewrite Hrow, decide_True in Hspec by exact Ha.
    destruct Hspec as (v & Hv & Hlen & Hmark & Hkeep).
    rewrite length_replicate in Hlen.
    exists v. split; [exact Hv|]. split; [exact Hlen|].
    intros b Hb. destruct (decide (a ∈ assigned config (Z.of_nat b))) as [Hin|Hnin].
    + apply (Hmark b (assigned config (Z.of_nat b))); [apply Hg, Hb | exact Hin].
    + rewrite Hkeep.
      * apply lookup_replicate_2, Hb.
      * intros k hs Hk Hh E. cbn in E. subst k.
        destruct (Hmem b hs a Hk Hh) as (Hin & _ & _). contradiction.
Qed.

Lemma ManualScheduler_Stats_config_witness :
  exists r,
    ManualScheduler_Stats
      {| man_hosts := [("a:1", NewHost "a:1"); ("b:1", NewHost "b:1")]%string;
         man_buckets := [["a:1"]; []; ["a:1"; "b:1"; "b:1"]]%string;
         man_hashMethod := fnv1a |} = Ok r /\
    (forall a, a ∉ ["a:1"; "b:1"]%string -> r a = None) /\
    (forall a, a ∈ ["a:1"; "b:1"]%string ->
       exists v, r a = Some v /\ length v = 3 /\
         forall b, b < 3 ->
           v !! b = Some (if decide (a ∈ assigned [("a:1", [0; 2]); ("b:1", [2; 2])]%string%Z
                                          (Z.of_nat b))
                          then 1%float else 0%float)).
Proof.
  apply (ManualScheduler_Stats_config fnv1a [("a:1", [0; 2]); ("b:1", [2; 2])]%string%Z).
  reflexivity.
Defined.

(** ** The auto scheduler *)

Lemma distinct_addresses (hosts : list Host) (x y : nat) (h1 h2 : Host) :
  NoDup (map Addr hosts) ->
  hosts !! x = Some h1 -> hosts !! y = Some h2 -> Addr h1 = Addr h2 -> x = y.
Proof.
  intros Hnd Hx Hy E.
  apply (NoDup_lookup (map Addr hosts) x y (Addr h1)); [exact Hnd | |].
  - rewrite list_lookup_fmap, Hx. reflexivity.
  - rewrite list_lookup_fmap, Hy, E. reflexivity.
Qed.

(** The inner loop of [Stats] writes the weight of every host of the row
    into entry [i] of the vector of its address. *)
Lemma copy_weights_spec (hosts : list Host) (i : nat) (st : list float) :
  forall (j : nat) (r : StatsMap),
  NoDup (map Addr hosts) ->
  j + length st <= length hosts ->
  (forall h, h ∈ hosts -> exists v, r (Addr h) = Some v /\ i < length v) ->
  exists r', copy_weights hosts i st j r = Ok r' /\
    forall a,
      match r a with
      | None => r' a = None
      | Some v =>
        exists v', r' a = Some v' /\ length v' = length v /\
          (forall p, p <> i -> v' !! p = v !! p) /\
          (forall k h, hosts !! (j + k) = Some h -> Addr h = a -> k < length st ->
             v' !! i = st !! k) /\
          ((forall k h, k < length st -> hosts !! (j + k) = Some h -> Addr h <> a) ->
             v' !! i = v !! i)
      end.
Proof.
  induction st as [|w st IH]; intros j r Hnd Hlen Hpre.
  - exists r. split; [reflexivity|]. intros a. destruct (r a) as [v|]; [|reflexivity].
    exists v. repeat split; try reflexivity. intros k h _ _ Hk. cbn in Hk. lia.
  - cbn [length] in Hlen.
    destruct (lookup_lt_is_Some_2 hosts j ltac:(lia)) as [h0 Hh0].
    destruct (Hpre h0 ltac:(eapply list_elem_of_lookup_2; exact Hh0)) as (v0 & Hv0 & Hi).
    cbn [copy_weights]. rewrite (item_lookup _ _ _ Hh0). cbn [mbind result_bind].
    rewrite (stats_store_ok _ _ _ _ v0 Hv0 Hi). cbn [mbind result_bind].
    destruct (IH (S j) (stats_set r (Addr h0) (<[i := w]> v0)) Hnd ltac:(lia))
      as (r' & Hr' & Hspec).
    { intros h Hh. destruct (decide (Addr h = Addr h0)) as [E|Hne].
      - rewrite E, stats_set_eq. eexists. split; [reflexivity|].
        rewrite length_insert. exact Hi.
      - rewrite stats_set_ne by exact Hne. apply Hpre, Hh. }
    exists r'. split; [exact Hr'|]. intros a. specialize (Hspec a).
    destruct (decide (a = Addr h0)) as [->|Hne].
    + rewrite stats_set_eq in Hspec. rewrite Hv0.
      destruct Hspec as (v' & Hv' & Hl & Hother & _ & Hkeep).
      rewrite length_insert in Hl.
      assert (Hnew : v' !! i = Some w).
      { rewrite Hkeep; [apply list_lookup_insert_eq, Hi|].
        intros k h Hk Hh E.
        pose proof (distinct_addresses hosts _ _ _ _ Hnd Hh Hh0 E). lia. }
      exists v'. split; [exact Hv'|]. split; [exact Hl|]. split; [|split].
      * intros p Hp. rewrite (Hother p Hp). apply list_lookup_insert_ne. congruence.
      * intros k h Hh E Hk.
        pose proof (distinct_addresses hosts _ _ _ _ Hnd Hh Hh0 E) as Ek.
        assert (k = 0) as -> by lia. exact Hnew.
      * intros Hnone. exfalso. apply (Hnone 0 h0); [cbn; lia | | reflexivity].
        rewrite Nat.add_0_r. exact Hh0.
    + rewrite stats_set_ne in Hspec by exact Hne.
      destruct (r a) as [v|]; [|exact Hspec].
      destruct Hspec as (v' & Hv' & Hl & Hother & Hset & Hkeep).
      exists v'. split; [exact Hv'|]. split; [exact Hl|]. split; [exact Hother|]. split.
      * intros [|k] h Hh E Hk.
        -- rewrite Nat.add_0_r, Hh0 in Hh. injection Hh as <-. congruence.
        -- replace (j + S k) with (S j + k) in Hh by lia.
           apply (Hset k h Hh E). cbn in Hk. lia.
      * intros Hnone. apply Hkeep. intros k h Hk Hh.
        apply (Hnone (S k) h); [cbn; lia|].
        replace (j + S k) with (S j + k) by lia. exact Hh.
Qed.

Lemma copy_stats_spec (hosts : list Host) (stats : list (list float)) :
  forall (i : nat) (r : StatsMap),
  NoDup (map Addr hosts) ->
  Forall (fun st => length st = length hosts) stats ->
  (forall h, h ∈ hosts -> exists v, r (Addr h) = Some v /\ i + length stats <= length v) ->
  exists r', copy_stats hosts stats i r = Ok r' /\
    forall a,
      match r a with
      | None => r' a = None
      | Some v =>
        exists v', r' a = Some v' /\ length v' = length v /\
          (forall p, p < i -> v' !! p = v !! p) /\
          forall b st j h, stats !! b = Some st -> hosts !! j = Some h -> Addr h = a ->
            v' !! (i + b) = st !! j
      end.
Proof.
  induction stats as [|st0 stats IH]; intros i r Hnd Hrows Hpre.
  - exists r. split; [reflexivity|]. intros a. destruct (r a) as [v|]; [|reflexivity].
    exists v. repeat split. intros b st j h Hb. discriminate Hb.
  - inversion Hrows as [|? ? Hst0 Hrows']; subst. cbn [length] in Hpre.
    destruct (copy_weights_spec hosts i st0 0 r Hnd ltac:(lia)) as (r1 & Hr1 & Hspec1).
    { intros h Hh. destruct (Hpre h Hh) as (v & Hv & Hl). exists v. split; [exact Hv | lia]. }
    cbn [copy_stats]. rewrite Hr1. cbn [mbind result_bind].
    destruct (IH (S i) r1 Hnd Hrows') as (r' & Hr' & Hspec).
    { intros h Hh. destruct (Hpre h Hh) as (v & Hv & Hl).
      specialize (Hspec1 (Addr h)). rewrite Hv in Hspec1.
      destruct Hspec1 as (v1 & Hv1 & Hl1 & _). exists v1. split; [exact Hv1 | lia]. }
    exists r'. split; [exact Hr'|]. intros a.
    specialize (Hspec a). specialize (Hspec1 a).
    destruct (r a) as [v|].
    + destruct Hspec1 as (v1 & Hv1 & Hl1 & Hother1 & Hset1 & _). rewrite Hv1 in Hspec.
      destruct Hspec as (v' & Hv' & Hl' & Hkeep & Hcol).
      exists v'. split; [exact Hv'|]. split; [lia|]. split.
      * intros p Hp. rewrite Hkeep by lia. apply Hother1. lia.
      * intros [|b] st j h Hb Hj Ha.
        -- injection Hb as <-. rewrite Nat.add_0_r.
           rewrite Hkeep by lia. apply (Hset1 j h); [exact Hj | exact Ha|].
           apply lookup_lt_Some in Hj. lia.
        -- replace (i + S b) with (S i + b) by lia. apply (Hcol b st j h Hb Hj Ha).
    + rewrite Hspec1 in Hspec. exact Hspec.
Qed.

(** X10. [Stats] of an auto scheduler in a well-formed state whose hosts
    have pairwise distinct addresses never fails and gives the weights by
    host: the map has an entry exactly for the addresses of the hosts, the
    entry of host [j] has one number per bucket, and the number for bucket
    [b] is the weight [stats[b][j]] of the host in that bucket. *)
Theorem AutoScheduler_Stats_weights (c : AutoScheduler) :
  well_formed c -> NoDup (map Addr (auto_hosts c)) ->
  exists r, AutoScheduler_Stats c = Ok r /\
    (forall a, a ∉ map Addr (auto_hosts c) -> r a = None) /\
    (forall j h, auto_hosts c !! j = Some h ->
       exists v, r (Addr h) = Some v /\ length v = length (auto_buckets c) /\
         forall b st, auto_stats c !! b = Some st -> v !! b = st !! j).
Proof.
  intros (Hlen & _ & Hrows) Hnd. unfold AutoScheduler_Stats.
  set (n := length (auto_buckets c)) in *.
  assert (Hrow : forall a, zero_rows (map Addr (auto_hosts c)) n a
                 = if decide (a ∈ map Addr (auto_hosts c))
                   then Some (replicate n 0%float) else None)
    by (intros a; apply zero_rows_spec).
  destruct (copy_stats_spec (auto_hosts c) (auto_stats c) 0
              (zero_rows (map Addr (auto_hosts c)) n) Hnd Hrows) as (r & Hr & Hspec).
  { intros h Hh. rewrite Hrow, decide_True by (apply list_elem_of_fmap; eauto).
    eexists. split; [reflexivity|]. rewrite length_replicate. lia. }
  exists r. split; [exact Hr|]. split.
  - intros a Ha. specialize (Hspec a). rewrite Hrow, decide_False in Hspec by exact Ha.
    exact Hspec.
  - intros j h Hj. specialize (Hspec (Addr h)).
    rewrite Hrow, decide_True in Hspec
      by (apply list_elem_of_fmap; exists h; split;
          [reflexivity | eapply list_elem_of_lookup_2; exact Hj]).
    destruct Hspec as (v & Hv & Hl & _ & Hcol). rewrite length_replicate in Hl.
    exists v. split; [exact Hv|]. split; [exact Hl|].
    intros b st Hb. apply (Hcol b st j h Hb Hj eq_refl).
Qed.

Lemma AutoScheduler_Stats_weights_witness :
  exists r, AutoScheduler_Stats sample_state = Ok r /\
    (forall a, a ∉ map Addr (auto_hosts sample_state) -> r a = None) /\
    (forall j h, auto_hosts sample_state !! j = Some h ->
       exists v, r (Addr h) = Some v /\ length v = 2 /\
         forall b st, auto_stats sample_state !! b = Some st -> v !! b = st !! j).
Proof.
  apply (AutoScheduler_Stats_weights sample_state).
  - unfold well_formed. cbn. repeat split; repeat constructor.
  - apply (bool_decide_unpack _). vm_compute. exact I.
Defined.

(** * What [feedback] changes and what it leaves alone *)

(** In a well-formed state a message for a host and a bucket of the
    scheduler is applied without a panic, whatever its adjustment, and the
    state stays well formed. *)
Lemma feedback_well_formed (c : AutoScheduler) (i index : nat) (adj : float) :
  well_formed c ->
  i < length (auto_hosts c) -> index < length (auto_buckets c) ->
  exists stats0 bucket0 bucket1,
    auto_stats c !! index = Some stats0 /\
    auto_buckets c !! index = Some bucket0 /\
    Permutation bucket1 bucket0 /\
    feedback c i index adj
    = Ok {| auto_n := auto_n c;
            auto_hosts := auto_hosts c;
            auto_buckets := <[index := bucket1]> (auto_buckets c);
            auto_stats :=
              <[index := <[i := update_weight (weight stats0 i) adj]> stats0]>
                (auto_stats c);
            auto_hashMethod := auto_hashMethod c |} /\
    well_formed {| auto_n := auto_n c;
            auto_hosts := auto_hosts c;
            auto_buckets := <[index := bucket1]> (auto_buckets c);
            auto_stats :=
              <[index := <[i := update_weight (weight stats0 i) adj]> stats0]>
                (auto_stats c);
            auto_hashMethod := auto_hashMethod c |}.
Proof.
  intros Hwf Hi Hindex.
  destruct (feedback_shape c i index adj Hwf Hi Hindex)
    as (stats0 & L & R & buckets1 & Hs0 & Hb0 & _ & _ & Hfb & Hre).
  destruct (well_formed_bucket c index stats0 _ Hwf Hs0 Hb0) as [Hls Hperm].
  pose proof Hwf as (Hlen & Hbk & Hst).
  pose proof (reranked_perm _ _ _ _ _ _ Hre) as Hp1.
  exists stats0, (L ++ i :: R), buckets1.
  split; [exact Hs0|]. split; [exact Hb0|]. split; [exact Hp1|]. split; [exact Hfb|].
  unfold well_formed. cbn [auto_hosts auto_buckets auto_stats].
  split; [|split].
  - rewrite !length_insert. exact Hlen.
  - apply Forall_insert; [exact Hbk|]. rewrite Hp1. exact Hperm.
  - apply Forall_insert; [exact Hst|]. rewrite length_insert. exact Hls.
Qed.

Lemma feedback_out_of_range (c : AutoScheduler) (i index : nat) (adj : float) :
  well_formed c ->
  ~ (i < length (auto_hosts c) /\ index < length (auto_buckets c)) ->
  feedback c i index adj = Panic IndexOutOfRange.
Proof.
  intros (Hlen & _ & Hst) Hout. unfold feedback, item.
  destruct (auto_stats c !! index) as [stats0|] eqn:Hs0; [|reflexivity].
  cbn [mbind result_bind].
  assert (Hindex : index < length (auto_buckets c))
    by (rewrite Hlen; apply lookup_lt_Some in Hs0; exact Hs0).
  eapply Forall_lookup_1 in Hst; [|exact Hs0]. cbn beta in Hst.
  rewrite (lookup_ge_None_2 stats0 i) by lia. reflexivity.
Qed.

(** X11. In a well-formed state of an auto scheduler, [feedback(i, index,
    adjust)] succeeds exactly when [i] is the index of a host and [index]
    the index of a bucket; otherwise it panics with an index out of range.
    This does not depend on [adjust], which may be NaN or infinite. When
    it succeeds, the hosts and every other bucket are unchanged, the
    preference sequence of bucket [index] is a permutation of what it was,
    only the weight of host [i] in that bucket may have changed, and the
    state is well formed again. *)
Theorem feedback_total_and_local (c : AutoScheduler) (i index : nat) (adj : float) :
  well_formed c ->
  (i < length (auto_hosts c) -> index < length (auto_buckets c) ->
   exists c', feedback c i index adj = Ok c' /\ well_formed c' /\
     auto_hosts c' = auto_hosts c /\
     (forall b, b <> index ->
        auto_buckets c' !! b = auto_buckets c !! b /\
        auto_stats c' !! b = auto_stats c !! b) /\
     (exists bucket bucket' stats stats',
        auto_buckets c !! index = Some bucket /\
        auto_buckets c' !! index = Some bucket' /\
        Permutation bucket' bucket /\
        auto_stats c !! index = Some stats /\
        auto_stats c' !! index = Some stats' /\
        length stats' = length stats /\
        forall h, h <> i -> stats' !! h = stats !! h)) /\
  (~ (i < length (auto_hosts c) /\ index < length (auto_buckets c)) ->
   feedback c i index adj = Panic IndexOutOfRange).
Proof.
  intros Hwf. split; [|apply feedback_out_of_range, Hwf].
  intros Hi Hindex.
  destruct (feedback_well_formed c i index adj Hwf Hi Hindex)
    as (stats0 & bucket0 & bucket1 & Hs0 & Hb0 & Hperm & Hfb & Hwf').
  eexists. split; [exact Hfb|]. split; [exact Hwf'|].
  cbn [auto_hosts auto_buckets auto_stats]. split; [reflexivity|]. split.
  - intros b Hb. rewrite !list_lookup_insert_ne by congruence. split; reflexivity.
  - exists bucket0, bucket1, stats0, (<[i := update_weight (weight stats0 i) adj]> stats0).
    split; [exact Hb0|]. split.
    { apply list_lookup_insert_eq. exact Hindex. }
    split; [exact Hperm|]. split; [exact Hs0|]. split.
    { apply list_lookup_insert_eq. apply lookup_lt_Some in Hs0. exact Hs0. }
    split; [apply length_insert|].
    intros h Hh. apply list_lookup_insert_ne. congruence.
Qed.

Lemma feedback_total_and_local_witness :
  feedback sample_state 3 0 nan = Panic IndexOutOfRange /\
  exists c', feedback sample_state 1 0 nan = Ok c' /\ well_formed c'.
Proof.
  assert (Hwf : well_formed sample_state)
    by (unfold well_formed; cbn; repeat split; repeat constructor).
  split.
  - apply (proj2 (feedback_total_and_local sample_state 3 0 nan Hwf)). cbn. lia.
  - destruct (proj1 (feedback_total_and_local sample_state 1 0 nan Hwf)) as (c' & Hc' & Hw & _).
    + cbn. lia.
    + cbn. lia.
    + exists c'. split; assumption.
Defined.

(** Draining messages: the worker gets through a sequence of messages
    exactly when each of them names a host and a bucket. *)
Lemma procFeedback_well_formed (msgs : list Feedback) : forall c c' : AutoScheduler,
  well_formed c -> procFeedback c msgs = Ok c' ->
  well_formed c' /\ auto_hosts c' = auto_hosts c /\
  length (auto_buckets c') = length (auto_buckets c) /\
  auto_hashMethod c' = auto_hashMethod c.
Proof.
  induction msgs as [|fb msgs IH]; intros c c' Hwf Hp.
  - injection Hp as <-. split; [exact Hwf|]. repeat split.
  - cbn [procFeedback] in Hp.
    destruct (decide (hostIndex fb < length (auto_hosts c) /\
                      bucketIndex fb < length (auto_buckets c))) as [[Hi Hindex]|Hout].
    + destruct (feedback_well_formed c _ _ (adjust fb) Hwf Hi Hindex)
        as (stats0 & bucket0 & bucket1 & _ & _ & _ & Hfb & Hwf1).
      rewrite Hfb in Hp. cbn [mbind result_bind] in Hp.
      destruct (IH _ _ Hwf1 Hp) as (Hwf' & Hh & Hb & Hm).
      cbn [auto_hosts auto_buckets auto_hashMethod] in Hh, Hb, Hm.
      rewrite length_insert in Hb.
      split; [exact Hwf'|]. split; [exact Hh|]. split; [exact Hb | exact Hm].
    + rewrite feedback_out_of_range in Hp by assumption. discriminate Hp.
Qed.

Lemma procFeedback_in_range (msgs : list Feedback) : forall c : AutoScheduler,
  well_formed c ->
  Forall (fun fb => hostIndex fb < length (auto_hosts c) /\
                    bucketIndex fb < length (auto_buckets c)) msgs ->
  exists c', procFeedback c msgs = Ok c'.
Proof.
  induction msgs as [|fb msgs IH]; intros c Hwf Hall.
  - exists c. reflexivity.
  - inversion Hall as [|? ? [Hi Hindex] Hrest]; subst.
    destruct (feedback_well_formed c _ _ (adjust fb) Hwf Hi Hindex)
      as (stats0 & bucket0 & bucket1 & _ & _ & _ & Hfb & Hwf1).
    cbn [procFeedback]. rewrite Hfb. cbn [mbind result_bind].
    apply IH; [exact Hwf1|].
    cbn [auto_hosts auto_buckets]. rewrite length_insert. exact Hrest.
Qed.

(** * The hosts that the auto scheduler returns *)

Lemma mapM_Ok {A B} (f : A -> result B) (g : A -> B) (l : list A) :
  (forall x, x ∈ l -> f x = Ok (g x)) -> mapM f l = Ok (map g l).
Proof.
  induction l as [|x l IH]; intros Hf; [reflexivity|].
  cbn [mapM map]. rewrite (Hf x) by left. cbn [mbind result_bind].
  rewrite IH by (intros y Hy; apply Hf; right; exact Hy). reflexivity.
Qed.

Lemma map_nth_seq {A} (d : A) (l : list A) :
  map (fun h => nth h l d) (seq 0 (length l)) = l.
Proof.
  apply list_eq. intros k. rewrite list_lookup_fmap.
  destruct (decide (k < length l)) as [Hlt|Hge].
  - rewrite lookup_seq_lt by exact Hlt. cbn.
    destruct (lookup_lt_is_Some_2 l k Hlt) as [x Hx]. rewrite Hx.
    f_equal. rewrite nth_lookup, Hx. reflexivity.
  - rewrite lookup_seq_ge by lia. rewrite lookup_ge_None_2 by lia. reflexivity.
Qed.

Lemma AutoScheduler_GetHostsByKey_ok (c : AutoScheduler) (key : string) :
  well_formed c ->
  1 <= length (auto_buckets c) -> (Z.of_nat (length (auto_buckets c)) < 2 ^ 32)%Z ->
  let b := getBucketByKey (auto_hashMethod c) (Z.of_nat (length (auto_buckets c))) key in
  exists bucket hs,
    auto_buckets c !! Z.to_nat b = Some bucket /\
    AutoScheduler_GetHostsByKey c key = Ok hs /\
    Forall2 (fun h host => auto_hosts c !! h = Some host) bucket hs /\
    Permutation hs (auto_hosts c).
Proof.
  intros Hwf H1 Hsmall b.
  pose proof (getBucketByKey_below (auto_hashMethod c)
                (Z.of_nat (length (auto_buckets c))) key ltac:(lia)) as Hb.
  pose proof (log2_bucket_count (Z.of_nat (length (auto_buckets c))) ltac:(lia)) as [_ Hpow].
  fold b in Hb.
  destruct (lookup_lt_is_Some_2 (auto_buckets c) (Z.to_nat b) ltac:(lia)) as [bucket Hbucket].
  pose proof Hwf as (_ & Hbk & _).
  eapply Forall_lookup_1 in Hbk; [|exact Hbucket]. cbn beta in Hbk.
  set (d := NewHost EmptyString).
  exists bucket, (map (fun h => nth h (auto_hosts c) d) bucket).
  split; [exact Hbucket|].
  assert (Hin : forall h, h ∈ bucket -> auto_hosts c !! h = Some (nth h (auto_hosts c) d)).
  { intros h Hh. rewrite Hbk in Hh. apply elem_of_seq in Hh.
    destruct (lookup_lt_is_Some_2 (auto_hosts c) h ltac:(lia)) as [x Hx].
    rewrite nth_lookup, Hx. reflexivity. }
  split; [|split].
  - unfold AutoScheduler_GetHostsByKey. fold b.
    assert (Hlb : length bucket = length (auto_hosts c))
      by (apply Permutation_length in Hbk; rewrite length_seq in Hbk; exact Hbk).
    rewrite (mapM_Ok _ (fun j => nth (nth j bucket 0) (auto_hosts c) d)).
    + f_equal.
      assert (E : map (fun h => nth h (auto_hosts c) d) bucket
                  = map (fun h => nth h (auto_hosts c) d)
                      (map (fun j => nth j bucket 0) (seq 0 (length bucket))))
        by (rewrite map_nth_seq; reflexivity).
      rewrite E, map_map, Hlb. reflexivity.
    + intros j Hj. apply elem_of_seq in Hj.
      rewrite (itemZ_lookup _ b bucket ltac:(lia) Hbucket). cbn [mbind result_bind].
      destruct (lookup_lt_is_Some_2 bucket j ltac:(lia)) as [h Hh].
      rewrite (item_lookup _ _ _ Hh). cbn [mbind result_bind].
      rewrite (nth_lookup bucket j 0), Hh. cbn.
      apply item_lookup, Hin. eapply list_elem_of_lookup_2; exact Hh.
  - apply Forall2_fmap_r, Forall_Forall2_diag, Forall_forall. exact Hin.
  - rewrite Hbk. rewrite map_nth_seq. reflexivity.
Qed.

(** X12. [GetHostsByKey] of an auto scheduler returns all hosts. In a
    well-formed state with between 1 and 2^32 - 1 buckets it never fails:
    it returns the hosts in the order of the preference sequence of the
    bucket of the key, which is a permutation of the host list. In
    particular this holds after construction and after any sequence of
    feedback messages that the worker got through, whatever their
    adjustments were: no host is ever lost or returned twice. *)
Theorem AutoScheduler_GetHostsByKey_all_hosts (key : string) :
  (forall c : AutoScheduler,
     well_formed c ->
     1 <= length (auto_buckets c) -> (Z.of_nat (length (auto_buckets c)) < 2 ^ 32)%Z ->
     let b := getBucketByKey (auto_hashMethod c) (Z.of_nat (length (auto_buckets c))) key in
     exists bucket hs,
       auto_buckets c !! Z.to_nat b = Some bucket /\
       AutoScheduler_GetHostsByKey c key = Ok hs /\
       Forall2 (fun h host => auto_hosts c !! h = Some host) bucket hs /\
       Permutation hs (auto_hosts c)) /\
  (forall (fnv1a1 : HashMethod) (config : list string) (bs : Z)
          (msgs : list Feedback) (c0 c : AutoScheduler),
     (1 <= bs < 2 ^ 32)%Z ->
     NewAutoScheduler fnv1a1 config bs = Ok c0 ->
     procFeedback c0 msgs = Ok c ->
     exists hs, AutoScheduler_GetHostsByKey c key = Ok hs /\
       Permutation hs (map NewHost config)).
Proof.
  split.
  - intros c. apply AutoScheduler_GetHostsByKey_ok.
  - intros fnv1a1 config bs msgs c0 c Hbs Hc0 Hc.
    destruct (NewAutoScheduler_initial _ _ _ _ Hc0) as (Hwf0 & _ & _).
    destruct (procFeedback_well_formed msgs c0 c Hwf0 Hc) as (Hwf & Hh & Hb & _).
    unfold NewAutoScheduler in Hc0. destruct (Z.ltb_spec bs 0); [lia|].
    injection Hc0 as <-. cbn [auto_hosts auto_buckets] in Hh, Hb.
    rewrite length_replicate in Hb.
    destruct (AutoScheduler_GetHostsByKey_ok c key Hwf ltac:(lia) ltac:(lia))
      as (bucket & hs & _ & Hhs & _ & Hperm).
    exists hs. split; [exact Hhs|]. rewrite <- Hh. exact Hperm.
Qed.

Lemma AutoScheduler_GetHostsByKey_all_hosts_witness :
  exists hs, AutoScheduler_GetHostsByKey sample_state "k1" = Ok hs /\
    Permutation hs (map NewHost three_hosts).
Proof.
  apply (proj2 (AutoScheduler_GetHostsByKey_all_hosts "k1") fnv1a three_hosts 2%Z []
           sample_state sample_state).
  - lia.
  - reflexivity.
  - reflexivity.
Defined.

(** * From [Feedback] and [check] to the feedback worker *)

Section Sending.

Context {P : Type} `{EqDecision P}.

Local Open Scope Z_scope.

Lemma hostIndex_from_spec (hosts : list P) (host : P) : forall i : Z,
  (host ∉ hosts -> hostIndex_from hosts host i = -1) /\
  (forall k : nat, hosts !! k = Some host ->
     (forall k' : nat, (k' < k)%nat -> hosts !! k' <> Some host) ->
     hostIndex_from hosts host i = i + Z.of_nat k).
Proof.
  induction hosts as [|h hosts IH]; intros i.
  - split; [reflexivity|]. intros k Hk. discriminate Hk.
  - cbn [hostIndex_from]. destruct (decide (h = host)) as [->|Hne].
    + split.
      * intros Hn. exfalso. apply Hn. left.
      * intros [|k] Hk Hfirst; [lia|].
        exfalso. apply (Hfirst 0%nat); [lia | reflexivity].
    + destruct (IH (i + 1)) as [Hnone Hsome]. split.
      * intros Hn. apply Hnone. intros Hin. apply Hn. right. exact Hin.
      * intros [|k] Hk Hfirst.
        -- injection Hk as ->. congruence.
        -- rewrite (Hsome k Hk); [lia|].
           intros k' Hk'. apply (Hfirst (S k')). lia.
Qed.

(** A pointer that occurs in the list has a first occurrence. *)
Lemma first_occurrence (hosts : list P) (host : P) :
  host ∈ hosts ->
  exists k : nat, hosts !! k = Some host /\
    forall k' : nat, (k' < k)%nat -> hosts !! k' <> Some host.
Proof.
  induction hosts as [|h hosts IH]; intros Hin; [inversion Hin|].
  destruct (decide (h = host)) as [->|Hne].
  - exists 0%nat. split; [reflexivity|]. intros k' Hk'. lia.
  - apply elem_of_cons in Hin as [E|Hin]; [congruence|].
    destruct (IH Hin) as (k & Hk & Hfirst).
    exists (S k). split; [exact Hk|].
    intros [|k'] Hk'; [cbn; congruence|]. apply Hfirst. lia.
Qed.

(** X13. [hostIndex] is a search for the first occurrence: it returns -1
    exactly when the pointer is not in [c.hosts], and otherwise the least
    index at which the pointer is stored. When the pointers of [c.hosts]
    are pairwise distinct, as they are when every host was allocated on
    its own, looking a host up by its pointer gives back its index. *)
Theorem AutoScheduler_hostIndex_spec (hosts : list P) (host : P) :
  (host ∉ hosts <-> AutoScheduler_hostIndex hosts host = -1) /\
  (forall k : nat, hosts !! k = Some host ->
     (forall k' : nat, (k' < k)%nat -> hosts !! k' <> Some host) ->
     AutoScheduler_hostIndex hosts host = Z.of_nat k) /\
  (NoDup hosts -> forall k : nat, hosts !! k = Some host ->
     AutoScheduler_hostIndex hosts host = Z.of_nat k).
Proof.
  unfold AutoScheduler_hostIndex.
  destruct (hostIndex_from_spec hosts host 0) as [Hnone Hsome].
  split; [|split].
  - split; [exact Hnone|]. intros E Hin.
    destruct (first_occurrence hosts host Hin) as (k & Hk & Hfirst).
    rewrite (Hsome k Hk Hfirst) in E. lia.
  - intros k Hk Hfirst. rewrite (Hsome k Hk Hfirst). lia.
  - intros Hnd k Hk. rewrite (Hsome k Hk); [lia|].
    intros k' Hk' E. pose proof (NoDup_lookup hosts k' k host Hnd E Hk). lia.
Qed.

(** What [Feedback] sends, for a scheduler whose bucket index is in
    range. *)
Lemma AutoScheduler_Feedback_spec (c : AutoScheduler) (hosts : list P)
    (host : P) (key : string) (adj : float) :
  length hosts = length (auto_hosts c) ->
  1 <= Z.of_nat (length (auto_buckets c)) < 2 ^ 32 ->
  match AutoScheduler_Feedback c hosts host key adj with
  | None => host ∉ hosts
  | Some m =>
    sendable c m /\ snd m = adj /\
    snd (fst m) = getBucketByKey (auto_hashMethod c)
                    (Z.of_nat (length (auto_buckets c))) key /\
    hosts !! Z.to_nat (fst (fst m)) = Some host /\
    forall k' : nat, (k' < Z.to_nat (fst (fst m)))%nat -> hosts !! k' <> Some host
  end.
Proof.
  intros Hlen Hbs. unfold AutoScheduler_Feedback, AutoScheduler_hostIndex.
  destruct (hostIndex_from_spec hosts host 0) as [Hnone Hsome].
  destruct (decide (host ∈ hosts)) as [Hin|Hnin].
  - destruct (first_occurrence hosts host Hin) as (k & Hk & Hfirst).
    rewrite (Hsome k Hk Hfirst). rewrite Z.add_0_l.
    destruct (Z.ltb_spec (Z.of_nat k) 0); [lia|].
    unfold sendable. cbn [fst snd]. rewrite Nat2Z.id.
    pose proof (getBucketByKey_below (auto_hashMethod c)
                  (Z.of_nat (length (auto_buckets c))) key Hbs) as Hb.
    pose proof (log2_bucket_count _ Hbs) as [_ Hpow].
    apply lookup_lt_Some in Hk as Hlt.
    repeat split; try assumption; try lia.
  - rewrite (Hnone Hnin). cbn. exact Hnin.
Qed.

(** X14. The [Feedback] method of an auto scheduler with between 1 and
    2^32 - 1 buckets sends nothing for a host that is not one of
    [c.hosts]. For a host of the scheduler it sends one message with the
    given adjustment, the least index of the host and the bucket of the
    key, and this message names a host and a bucket of the scheduler: in a
    well-formed state the worker applies it with [feedback] without a
    panic, whatever the key and the adjustment are. *)
Theorem AutoScheduler_Feedback_applies (c : AutoScheduler) (hosts : list P)
    (host : P) (key : string) (adj : float) :
  well_formed c ->
  length hosts = length (auto_hosts c) ->
  1 <= Z.of_nat (length (auto_buckets c)) < 2 ^ 32 ->
  (host ∉ hosts -> AutoScheduler_Feedback c hosts host key adj = None) /\
  (host ∈ hosts ->
   exists i : nat,
     AutoScheduler_Feedback c hosts host key adj
     = Some (Z.of_nat i,
             getBucketByKey (auto_hashMethod c) (Z.of_nat (length (auto_buckets c))) key,
             adj) /\
     hosts !! i = Some host /\
     (forall k' : nat, (k' < i)%nat -> hosts !! k' <> Some host) /\
     exists c',
       feedback c i
         (Z.to_nat (getBucketByKey (auto_hashMethod c)
                      (Z.of_nat (length (auto_buckets c))) key)) adj = Ok c' /\
       well_formed c').
Proof.
  intros Hwf Hlen Hbs.
  pose proof (AutoScheduler_Feedback_spec c hosts host key adj Hlen Hbs) as Hspec.
  split.
  - intros Hnin. destruct (AutoScheduler_Feedback c hosts host key adj) as [m|] eqn:E;
      [|reflexivity].
    destruct Hspec as (_ & _ & _ & Hk & _). exfalso. apply Hnin.
    eapply list_elem_of_lookup_2. exact Hk.
  - intros Hin. destruct (AutoScheduler_Feedback c hosts host key adj) as [[[i index] a]|] eqn:E;
      [|contradiction].
    cbn [fst snd] in Hspec. destruct Hspec as ([Hi Hindex] & -> & -> & Hk & Hfirst).
    cbn [fst snd] in Hi, Hindex.
    exists (Z.to_nat i). rewrite Z2Nat.id by lia.
    split; [reflexivity|]. split; [exact Hk|]. split; [exact Hfirst|].
    destruct (feedback_well_formed c (Z.to_nat i)
                (Z.to_nat (getBucketByKey (auto_hashMethod c)
                             (Z.of_nat (length (auto_buckets c))) key)) adj Hwf
                ltac:(lia) ltac:(lia))
      as (stats0 & bucket0 & bucket1 & _ & _ & _ & Hfb & Hwf').
    eexists. split; [exact Hfb | exact Hwf'].
Qed.

Lemma listHost_total (ParseFloat : ParseFloatFn) (response : option string) (dir : string) :
  exists calls, listHost ParseFloat response dir = Ok calls.
Proof.
  destruct response as [body|]; [|exists []; reflexivity].
  destruct (listHost_lines_total ParseFloat dir (SplitN body "010"%char 17))
    as (calls & _ & Hcalls).
  exists (concat calls). exact Hcalls.
Qed.

Lemma check_host_sendable (ParseFloat : ParseFloatFn) (c : AutoScheduler)
    (hosts : list P) (host : P) (Get : string -> option string) (dirs : list string) :
  length hosts = length (auto_hosts c) ->
  1 <= Z.of_nat (length (auto_buckets c)) < 2 ^ 32 ->
  exists msgs, check_host ParseFloat c hosts host Get dirs = Ok msgs /\
    Forall (sendable c) msgs.
Proof.
  intros Hlen Hbs. induction dirs as [|dir dirs (more & Hmore & Hall)].
  - exists []. split; [reflexivity | constructor].
  - destruct (listHost_total ParseFloat (Get dir) dir) as [calls Hcalls].
    cbn [check_host]. rewrite Hcalls, Hmore. cbn [mbind result_bind].
    eexists. split; [reflexivity|]. apply Forall_app. split; [|exact Hall].
    apply Forall_forall. intros m Hm.
    apply list_elem_of_omap in Hm as ([key adj] & _ & Hm). cbn [fst snd] in Hm.
    pose proof (AutoScheduler_Feedback_spec c hosts host key adj Hlen Hbs) as Hspec.
    rewrite Hm in Hspec. apply Hspec.
Qed.

Lemma check_hosts_sendable (ParseFloat : ParseFloatFn) (c : AutoScheduler)
    (hosts : list P) (Get : nat -> string -> option string) (rest : list P) :
  forall k : nat,
  length hosts = length (auto_hosts c) ->
  1 <= Z.of_nat (length (auto_buckets c)) < 2 ^ 32 ->
  exists msgs, check_hosts ParseFloat c hosts Get k rest = Ok msgs /\
    Forall (sendable c) msgs.
Proof.
  induction rest as [|host rest IH]; intros k Hlen Hbs.
  - exists []. split; [reflexivity | constructor].
  - destruct (check_host_sendable ParseFloat c hosts host (Get k)
                (check_dirs (Z.of_nat (length (auto_buckets c)))) Hlen Hbs)
      as (msgs & Hmsgs & Hall).
    destruct (IH (S k) Hlen Hbs) as (more & Hmore & Hall').
    cbn [check_hosts]. rewrite Hmsgs, Hmore. cbn [mbind result_bind].
    eexists. split; [reflexivity|]. apply Forall_app. split; assumption.
Qed.

(** X15. One run of the probing loop of [check], on a well-formed state
    with between 1 and 2^32 - 1 buckets, never panics, whatever the hosts
    answer: no answer makes [listHost] fail, and every message that is
    sent names a host and a bucket of the scheduler. The feedback worker
    therefore drains all the messages of the run without a panic and is
    left with a well-formed state, even when answers carry counts whose
    square root is NaN. *)
Theorem check_messages_apply (ParseFloat : ParseFloatFn) (c : AutoScheduler)
    (hosts : list P) (Get : nat -> string -> option string) :
  well_formed c ->
  length hosts = length (auto_hosts c) ->
  1 <= Z.of_nat (length (auto_buckets c)) < 2 ^ 32 ->
  exists msgs, check ParseFloat c hosts Get = Ok msgs /\
    Forall (sendable c) msgs /\
    exists c', procFeedback c (map received msgs) = Ok c' /\ well_formed c'.
Proof.
  intros Hwf Hlen Hbs.
  destruct (check_hosts_sendable ParseFloat c hosts Get hosts 0 Hlen Hbs)
    as (msgs & Hmsgs & Hall).
  exists msgs. split; [exact Hmsgs|]. split; [exact Hall|].
  destruct (procFeedback_in_range (map received msgs) c Hwf) as [c' Hc'].
  { apply Forall_fmap. eapply Forall_impl; [exact Hall|].
    intros [[i index] a] [Hi Hindex]. cbn [fst snd received hostIndex bucketIndex] in *.
    cbn. lia. }
  exists c'. split; [exact Hc'|].
  apply (procFeedback_well_formed _ _ _ Hwf Hc').
Qed.

End Sending.

Lemma AutoScheduler_hostIndex_spec_witness :
  AutoScheduler_hostIndex [7; 8; 9; 8] 8 = 1%Z /\ AutoScheduler_hostIndex [7; 8; 9] 9 = 2%Z.
Proof.
  split.
  - apply (proj1 (proj2 (AutoScheduler_hostIndex_spec [7; 8; 9; 8] 8)) 1 eq_refl).
    intros [|k'] Hk'; [discriminate | lia].
  - refine (proj2 (proj2 (AutoScheduler_hostIndex_spec [7; 8; 9] 9)) _ 2 eq_refl).
    apply (bool_decide_unpack _). vm_compute. exact I.
Defined.

Lemma AutoScheduler_Feedback_applies_witness :
  AutoScheduler_Feedback sample_state [7; 8; 9] 5 "k1" 1%float = None.
Proof.
  apply (proj1 (AutoScheduler_Feedback_applies sample_state [7; 8; 9] 5 "k1" 1%float
                  ltac:(unfold well_formed; cbn; repeat split; repeat constructor)
                  eq_refl ltac:(cbn; lia))).
  apply (bool_decide_unpack _). vm_compute. exact I.
Defined.

Lemma check_messages_apply_witness :
  exists msgs,
    check parseDecimal sample_state [7; 8; 9] (fun _ _ => Some sample_body) = Ok msgs /\
    Forall (sendable sample_state) msgs /\
    exists c', procFeedback sample_state (map received msgs) = Ok c' /\ well_formed c'.
Proof.
  apply (check_messages_apply parseDecimal sample_state [7; 8; 9]
           (fun _ _ => Some sample_body)).
  - unfold well_formed. cbn. repeat split; repeat constructor.
  - reflexivity.
  - cbn. lia.
Defined.

(** * The directories that [check] probes *)

Section Probes.

Local Open Scope Z_scope.

Lemma byte_of_hex_digit (d : Z) :
  0 <= d < 16 -> byte_of (hex_digit d) = if d <? 10 then 48 + d else 87 + d.
Proof.
  intros Hd. unfold byte_of, hex_digit. rewrite N_ascii_embedding.
  - rewrite Z2N.id; [reflexivity|]. destruct (d <? 10); lia.
  - destruct (d <? 10) eqn:E; [apply Z.ltb_lt in E | apply Z.ltb_ge in E]; lia.
Qed.

Lemma hex_value_hex_digit (d : Z) :
  0 <= d < 16 -> hex_value (byte_of (hex_digit d)) = d /\ byte_of (hex_digit d) < 128.
Proof.
  intros Hd. rewrite byte_of_hex_digit by exact Hd. unfold hex_value, in_range.
  destruct (Z.ltb_spec d 10).
  - destruct (Z.leb_spec 48 (48 + d)); [|lia].
    destruct (Z.leb_spec (48 + d) 57); [|lia]. cbn [andb]. lia.
  - destruct (Z.leb_spec 48 (87 + d)); [|lia].
    destruct (Z.leb_spec (87 + d) 57); [lia|].
    destruct (Z.leb_spec 65 (87 + d)); [|lia].
    destruct (Z.leb_spec (87 + d) 70); [lia|].
    destruct (Z.leb_spec 97 (87 + d)); [|lia].
    destruct (Z.leb_spec (87 + d) 102); [|lia]. cbn [andb]. lia.
Qed.

Lemma length_append (s t : string) :
  String.length (s ++ t) = (String.length s + String.length t)%nat.
Proof.
  induction s as [|c s IH]; [reflexivity|].
  cbn [append String.length Nat.add]. rewrite IH. reflexivity.
Qed.

Lemma bytes_of_app (s t : string) :
  bytes_of (s ++ t) = (bytes_of s ++ bytes_of t)%list.
Proof.
  unfold bytes_of. induction s as [|c s IH]; [reflexivity|].
  cbn [append list_ascii_of_string map app]. f_equal. exact IH.
Qed.

(** Reading the digits that [%x] writes for [i] continues a reading that
    stands at 0 as one that stands at [i]. *)
Lemma hex_digits_value (fuel : nat) : forall (i : Z) (acc : string),
  0 <= i < 2 ^ Z.of_nat fuel ->
  fold_left (fun r c => r * 16 + hex_value c) (bytes_of (hex_digits fuel i acc)) 0
  = fold_left (fun r c => r * 16 + hex_value c) (bytes_of acc) i.
Proof.
  induction fuel as [|fuel IH]; intros i acc Hi.
  - cbn in Hi. assert (i = 0) as -> by lia. reflexivity.
  - cbn [hex_digits]. rewrite Nat2Z.inj_succ, Z.pow_succ_r in Hi by lia.
    pose proof (Z.mod_pos_bound i 16 ltac:(lia)) as Hm.
    destruct (hex_value_hex_digit (i mod 16) Hm) as [Hv _].
    destruct (Z.ltb_spec i 16).
    + change (bytes_of (String (hex_digit (i mod 16)) acc))
        with (byte_of (hex_digit (i mod 16)) :: bytes_of acc).
      cbn [fold_left]. rewrite Hv, Z.mod_small by lia. reflexivity.
    + rewrite IH by (split; [apply Z.div_pos; lia | apply Z.div_lt_upper_bound; lia]).
      change (bytes_of (String (hex_digit (i mod 16)) acc))
        with (byte_of (hex_digit (i mod 16)) :: bytes_of acc).
      cbn [fold_left]. rewrite Hv. f_equal.
      pose proof (Z.div_mod i 16 ltac:(lia)). lia.
Qed.

Lemma hex_digits_length (fuel : nat) : forall (i m : Z) (acc : string),
  0 <= i < 16 ^ m -> 1 <= m ->
  Z.of_nat (String.length (hex_digits fuel i acc)) <= m + Z.of_nat (String.length acc).
Proof.
  induction fuel as [|fuel IH]; intros i m acc Hi Hm.
  - cbn [hex_digits]. lia.
  - cbn [hex_digits]. destruct (Z.ltb_spec i 16).
    + cbn [String.length]. lia.
    + assert (Hm2 : 2 <= m).
      { destruct (Z.eq_dec m 1) as [->|]; [|lia]. change (16 ^ 1) with 16 in Hi. lia. }
      specialize (IH (i / 16) (m - 1) (String (hex_digit (i mod 16)) acc)).
      cbn [String.length] in IH. rewrite Nat2Z.inj_succ in IH.
      assert (E : 16 ^ m = 16 * 16 ^ (m - 1)).
      { rewrite <- Z.pow_succ_r by lia. f_equal. lia. }
      rewrite E in Hi.
      specialize (IH ltac:(split; [apply Z.div_pos; lia | apply Z.div_lt_upper_bound; lia])
                     ltac:(lia)).
      lia.
Qed.

Lemma hex_digits_ascii (fuel : nat) : forall (i : Z) (acc : string),
  0 <= i -> Forall (fun b => b < 128) (bytes_of acc) ->
  Forall (fun b => b < 128) (bytes_of (hex_digits fuel i acc)).
Proof.
  induction fuel as [|fuel IH]; intros i acc Hi Hacc; [exact Hacc|].
  cbn [hex_digits].
  pose proof (Z.mod_pos_bound i 16 ltac:(lia)) as Hm.
  destruct (hex_value_hex_digit (i mod 16) Hm) as [_ Hb].
  assert (Hacc' : Forall (fun b => b < 128) (bytes_of (String (hex_digit (i mod 16)) acc)))
    by (constructor; assumption).
  destruct (i <? 16); [exact Hacc'|].
  apply IH; [apply Z.div_pos; lia | exact Hacc'].
Qed.

Lemma zeros_spec (n : nat) (s : string) :
  String.length (zeros n s) = (n + String.length s)%nat /\
  (Forall (fun b => b < 128) (bytes_of s) ->
   Forall (fun b => b < 128) (bytes_of (zeros n s))) /\
  fold_left (fun r c => r * 16 + hex_value c) (bytes_of (zeros n s)) 0
  = fold_left (fun r c => r * 16 + hex_value c) (bytes_of s) 0.
Proof.
  induction n as [|n (Hl & Ha & Hv)]; [repeat split; auto|].
  split; [|split].
  - change (zeros (S n) s) with (String "0" (zeros n s)).
    change (String.length (String "0" (zeros n s))) with (S (String.length (zeros n s))).
    rewrite Hl. reflexivity.
  - intros Hs. change (zeros (S n) s) with (String "0" (zeros n s)).
    constructor; [vm_compute; reflexivity | apply Ha, Hs].
  - exact Hv.
Qed.

Lemma substring_prefix (s : string) (c : ascii) (rest : string) :
  substring 0 (S (String.length s)) (s ++ String c rest) = (s ++ String c EmptyString)%string.
Proof.
  induction s as [|a s IH].
  - cbn. destruct rest; reflexivity.
  - cbn [append String.length substring]. f_equal. exact IH.
Qed.

Lemma log2_hex_fuel (i : Z) : 0 <= i -> i < 2 ^ Z.of_nat (S (Z.to_nat (Z.log2 i))).
Proof.
  intros Hi. rewrite Nat2Z.inj_succ, Z2Nat.id by apply Z.log2_nonneg.
  destruct (Z.eq_dec i 0) as [->|Hne]; [cbn; lia|].
  apply Z.log2_spec. lia.
Qed.

(** The name of the probe of directory [i], followed by a record name,
    addresses bucket [16 * i + d], where [d] is the value of the first
    character of the record name. *)
Lemma probe_bucket (hash_func : HashMethod) (w : Z) (i : Z) (ch : ascii) (rest : string) :
  1 <= w <= 6 -> 0 <= i < 16 ^ w -> byte_of ch < 128 ->
  String.length (Sprintf_at_0x w i) = S (Z.to_nat w) /\
  getBucketByKey hash_func (16 ^ (w + 1)) (Sprintf_at_0x w i ++ String ch rest)
  = 16 * i + hex_value (byte_of ch).
Proof.
  intros Hw Hi Hch. unfold Sprintf_at_0x.
  set (digits := hex i).
  assert (Hdl : (String.length digits <= Z.to_nat w)%nat).
  { pose proof (hex_digits_length (S (Z.to_nat (Z.log2 i))) i w EmptyString Hi ltac:(lia)) as H.
    fold (hex i) in H. fold digits in H. cbn [String.length] in H. lia. }
  set (body := zeros (Z.to_nat w - String.length digits) digits).
  destruct (zeros_spec (Z.to_nat w - String.length digits) digits) as (Hl & Ha & Hv).
  fold body in Hl, Ha, Hv.
  assert (Hbl : String.length body = Z.to_nat w) by lia.
  split; [cbn [String.length]; lia|].
  assert (E16 : 16 ^ (w + 1) = 2 ^ (4 * (w + 1))).
  { rewrite Z.pow_mul_r by lia. reflexivity. }
  unfold getBucketByKey. rewrite E16, bucketWidthOf_pow2 by lia.
  replace (4 * (w + 1) / 4) with (w + 1) by (Z.div_mod_to_equations; lia).
  cbn [append first_byte].
  assert (Hlen : len (String "@" (body ++ String ch rest)) = w + 2 + len rest).
  { unfold len. cbn [String.length]. rewrite length_append. cbn [String.length].
    lia. }
  rewrite Hlen.
  destruct (Z.ltb_spec (w + 1) (w + 2 + len rest)) as [_|Hbad];
    [|unfold len in Hbad; lia].
  rewrite bool_decide_true by reflexivity. cbn [andb].
  replace (Z.to_nat (w + 1)) with (S (String.length body)) by lia.
  change (substring 1 (S (String.length body)) (String "@" (body ++ String ch rest)))
    with (substring 0 (S (String.length body)) (body ++ String ch rest)).
  rewrite substring_prefix.
  assert (Hdigits : Forall (fun b => b < 128) (bytes_of digits)).
  { apply hex_digits_ascii; [lia | constructor]. }
  rewrite hextoi_ascii.
  - unfold base16. rewrite bytes_of_app, fold_left_app, Hv.
    subst digits. unfold hex. rewrite hex_digits_value by (split; [lia | apply log2_hex_fuel; lia]).
    cbn. lia.
  - rewrite bytes_of_app. apply Forall_app. split; [apply Ha, Hdigits|].
    constructor; [exact Hch | constructor].
  - rewrite length_append. cbn [String.length]. lia.
Qed.

Lemma check_dirs_power (w : Z) :
  1 <= w <= 6 ->
  check_dirs (16 ^ (w + 1))
  = map (fun i => Sprintf_at_0x w (Z.of_nat i)) (seq 0 (Z.to_nat (16 ^ w))).
Proof.
  intros Hw. unfold check_dirs.
  assert (E16 : 16 ^ (w + 1) = 2 ^ (4 * (w + 1))).
  { rewrite Z.pow_mul_r by lia. reflexivity. }
  rewrite E16, bucketWidthOf_pow2 by lia.
  replace (4 * (w + 1) / 4 - 1) with w by (Z.div_mod_to_equations; lia).
  destruct (Z.ltb_spec w 1); [lia|].
  replace (4 * (w + 1) - 4) with (4 * w) by lia.
  unfold uint64. rewrite Z.mod_small by lia.
  unfold shl1. destruct (Z.ltb_spec (4 * w) 64); [|lia].
  rewrite Z.shiftl_1_l.
  assert (Hp : 2 ^ (4 * w) = 16 ^ w) by (rewrite Z.pow_mul_r by lia; reflexivity).
  rewrite Hp.
  assert (Hb : 0 < 16 ^ w <= 16 ^ 6)
    by (split; [apply Z.pow_pos_nonneg; lia | apply Z.pow_le_mono_r; lia]).
  change (16 ^ 6) with 16777216 in Hb.
  unfold int64. rewrite Z.mod_small by lia.
  replace (16 ^ w + 2 ^ 63 - 2 ^ 63) with (16 ^ w) by lia. reflexivity.
Qed.

Lemma check_dirs_small (bs : Z) : bs < 256 -> check_dirs bs = ["@"%string].
Proof.
  intros Hbs. unfold check_dirs. rewrite bucketWidthOf_log2.
  assert (Hl : Z.log2 bs < 8).
  { destruct (Z_le_gt_dec bs 0) as [Hle|Hgt].
    - rewrite Z.log2_nonpos by exact Hle. lia.
    - apply Z.log2_lt_pow2; lia. }
  pose proof (Z.log2_nonneg bs).
  destruct (Z.ltb_spec (Z.log2 bs / 4 - 1) 1) as [_|Hge]; [reflexivity|].
  exfalso. revert Hge. Z.div_mod_to_equations. lia.
Qed.

(** X16. The probes of [check] address every bucket. With [16 ^ (w + 1)]
    buckets, [1 <= w <= 6], [check] probes [16 ^ w] directories on each
    host, and directory [i] is named by an ['@'] and the [w] lower-case
    hexadecimal digits of [i]; a record of its answer whose name starts
    with the single-byte character [ch] is reported for the key that
    [getBucketByKey] maps to bucket [16 * i + d], [d] being the value of
    [ch] as a hexadecimal digit. With fewer than 256 buckets the only
    probe is ["@"]; with 16 buckets the record is reported for bucket
    [d]. So [hextoi] reads back what [Sprintf] wrote. *)
Theorem check_probes_address_buckets (hash_func : HashMethod) (ch : ascii) (rest : string) :
  byte_of ch < 128 ->
  (forall w : Z, 1 <= w <= 6 ->
     length (check_dirs (16 ^ (w + 1))) = Z.to_nat (16 ^ w) /\
     forall i : nat, Z.of_nat i < 16 ^ w ->
       exists dir, check_dirs (16 ^ (w + 1)) !! i = Some dir /\
         String.length dir = S (Z.to_nat w) /\
         getBucketByKey hash_func (16 ^ (w + 1)) (dir ++ String ch rest)
         = 16 * Z.of_nat i + hex_value (byte_of ch)) /\
  (forall bs : Z, bs < 256 -> check_dirs bs = ["@"%string]) /\
  getBucketByKey hash_func 16 ("@" ++ String ch rest) = hex_value (byte_of ch).
Proof.
  intros Hch. split; [|split].
  - intros w Hw. rewrite check_dirs_power by exact Hw.
    rewrite length_map, length_seq. split; [reflexivity|].
    intros i Hi. exists (Sprintf_at_0x w (Z.of_nat i)). split.
    + rewrite list_lookup_fmap, lookup_seq_lt by lia. reflexivity.
    + apply probe_bucket; [exact Hw | lia | exact Hch].
  - apply check_dirs_small.
  - unfold getBucketByKey. change (bucketWidthOf 16) with 4. change (4 / 4) with 1.
    cbn [append first_byte].
    assert (Hlen : 1 < len (String "@" (String ch rest)))
      by (unfold len; cbn [String.length]; lia).
    destruct (Z.ltb_spec 1 (len (String "@" (String ch rest)))); [|lia].
    rewrite bool_decide_true by reflexivity. cbn [andb].
    assert (E : substring 1 (Z.to_nat 1) (String "@" (String ch rest)) = String ch EmptyString)
      by (cbn; destruct rest; reflexivity).
    rewrite E. rewrite hextoi_ascii.
    + unfold base16. cbn. lia.
    + constructor; [exact Hch | constructor].
    + cbn. lia.
Qed.

Lemma check_probes_address_buckets_witness :
  exists dir, check_dirs (16 ^ (2 + 1)) !! 171%nat = Some dir /\
    String.length dir = 3%nat /\
    getBucketByKey fnv1a (16 ^ (2 + 1)) (dir ++ String "c" "/") = 16 * 171 + 12.
Proof.
  refine (proj2 (proj1 (check_probes_address_buckets fnv1a "c" "/" _) 2 _) 171%nat _).
  - vm_compute. reflexivity.
  - lia.
  - vm_compute. reflexivity.
Defined.

End Probes.

(** * [abs] *)

Lemma abs_SF (x : float) :
  Prim2SF (abs x)
  = match Prim2SF x with
    | S754_zero s => S754_zero s
    | S754_infinity _ => S754_infinity false
    | S754_nan => S754_nan
    | S754_finite _ m e => S754_finite false m e
    end.
Proof.
  unfold abs. rewrite FloatAxioms.ltb_spec. change (Prim2SF 0) with (S754_zero false).
  destruct (Prim2SF x) as [s|s| |s m e] eqn:E; cbn.
  - exact E.
  - destruct s; [rewrite FloatAxioms.opp_spec, E; reflexivity | exact E].
  - exact E.
  - destruct s; [rewrite FloatAxioms.opp_spec, E; reflexivity | exact E].
Qed.

(** X17. [abs] is the IEEE absolute value except on negative zero: it
    returns [-0] for [-0] (the test [x < 0] is false there) and the
    absolute value of every other float, NaN for NaN. Its result never
    compares below zero, and applying it twice is applying it once. *)
Theorem abs_is_magnitude (x : float) :
  (x <> (-0)%float -> abs x = PrimFloat.abs x) /\
  abs (-0)%float = (-0)%float /\
  (abs x <? 0)%float = false /\
  abs (abs x) = abs x.
Proof.
  split; [|split; [reflexivity|split]].
  - intros Hx. apply FloatAxioms.Prim2SF_inj.
    rewrite abs_SF, FloatAxioms.abs_spec.
    destruct (Prim2SF x) as [s|s| |s m e] eqn:E; try reflexivity.
    destruct s; [|reflexivity]. exfalso. apply Hx.
    apply FloatAxioms.Prim2SF_inj. rewrite E. reflexivity.
  - rewrite FloatAxioms.ltb_spec, abs_SF. change (Prim2SF 0) with (S754_zero false).
    destruct (Prim2SF x) as [s|s| |s m e]; reflexivity.
  - apply FloatAxioms.Prim2SF_inj. rewrite !abs_SF.
    destruct (Prim2SF x) as [s|s| |s m e]; reflexivity.
Qed.

Lemma abs_is_magnitude_witness : abs (-3)%float = 3%float.
Proof.
  apply (proj1 (abs_is_magnitude (-3)%float)). intros E.
  apply (f_equal Prim2SF) in E. vm_compute in E. discriminate E.
Defined.

(** * The share of a host in the ring *)

Section RingShare.

Local Open Scope Z_scope.

Lemma filter_all {A} (Q : A -> Prop) `{forall x, Decision (Q x)} (l : list A) :
  Forall Q l -> filter Q l = l.
Proof.
  induction 1 as [|x l Hx _ IH]; [reflexivity|].
  rewrite filter_cons, decide_True by exact Hx. f_equal. exact IH.
Qed.

Lemma filter_none {A} (Q : A -> Prop) `{forall x, Decision (Q x)} (l : list A) :
  Forall (fun x => ~ Q x) l -> filter Q l = [].
Proof.
  induction 1 as [|x l Hx _ IH]; [reflexivity|].
  rewrite filter_cons, decide_False by exact Hx. exact IH.
Qed.

(** The entries of the hosts from index [i0] on that carry the host index
    [i]: the virtual nodes of host [i], when it is one of these hosts. *)
Lemma ring_from_share (hm : HashMethod) (i : nat) (ps : list (string * string)) :
  forall i0 : nat,
  Z.of_nat (i0 + length ps) <= 2 ^ 32 ->
  length (filter (fun e => Z.land e 4294967295 = Z.of_nat i) (ring_from hm i0 ps))
  = if decide (i0 <= i < i0 + length ps)%nat then VIRTUAL_NODES else 0%nat.
Proof.
  induction ps as [|p ps IH]; intros i0 Hsmall.
  - cbn. destruct (decide _); [lia | reflexivity].
  - cbn [length] in Hsmall. cbn [ring_from length]. rewrite filter_app, length_app.
    rewrite IH by lia.
    assert (Hlow : forall e, e ∈ host_ring hm i0 p 0 VIRTUAL_NODES ->
              Z.land e 4294967295 = Z.of_nat i0).
    { intros e He. unfold host_ring in He. apply list_elem_of_fmap in He as (j & -> & _).
      rewrite packed_low. apply Z.mod_small. lia. }
    destruct (decide (i = i0)) as [->|Hne].
    + rewrite filter_all by (apply Forall_forall; exact Hlow).
      unfold host_ring at 1. rewrite length_map, length_seq.
      repeat destruct (decide _); lia.
    + rewrite filter_none.
      2:{ apply Forall_forall. intros e He. rewrite (Hlow e He). lia. }
      cbn [length Nat.add].
      repeat destruct (decide _); lia.
Qed.

(** X18. A consistent-hash scheduler constructed from fewer than 2^32
    addresses of the form [host:port] has [VIRTUAL_NODES * len(hosts)] ring
    entries, and exactly [VIRTUAL_NODES] = 100 of them carry the index of
    each host in their low 32 bits: every host has the same number of
    points on the ring, also when hashes of virtual nodes coincide. *)
Theorem ring_share_per_host (hm : HashMethod) (hosts : list string) :
  Z.of_nat (length hosts) < 2 ^ 32 ->
  Forall has_colon hosts ->
  exists c, NewConsistantHashScheduler hosts hm = Ok c /\
    length (ch_index c) = (VIRTUAL_NODES * length hosts)%nat /\
    forall i : nat, (i < length hosts)%nat ->
      length (filter (fun e => Z.land e 4294967295 = Z.of_nat i) (ch_index c))
      = VIRTUAL_NODES.
Proof.
  intros Hsmall Hcol.
  destruct (has_colon_pairs hosts Hcol) as (ps & -> & Hps).
  eexists. split; [apply NewConsistantHashScheduler_ok, Hps|].
  cbn [ch_index]. rewrite length_map in *. split.
  - rewrite sort_Sort_length, length_ring_from. lia.
  - intros i Hi.
    rewrite (Permutation_length
               (filter_Permutation _ _ _ (sort_Sort_perm (ring_from hm 0 ps)))).
    rewrite ring_from_share by (cbn [Nat.add]; lia).
    rewrite decide_True by lia. reflexivity.
Qed.

Lemma ring_share_per_host_witness :
  exists c, NewConsistantHashScheduler ["10.0.0.1:11211"; "10.0.0.2:7900"] fnv1a = Ok c /\
    length (ch_index c) = (VIRTUAL_NODES * 2)%nat /\
    forall i : nat, (i < 2)%nat ->
      length (filter (fun e => Z.land e 4294967295 = Z.of_nat i) (ch_index c))
      = VIRTUAL_NODES.
Proof.
  apply (ring_share_per_host fnv1a ["10.0.0.1:11211"; "10.0.0.2:7900"]).
  - cbn [length Z.of_nat]. lia.
  - repeat constructor.
Defined.

End RingShare.

(** * Adding a host to the ring *)

Section RingGrowth.

Local Open Scope Z_scope.

Lemma ring_from_app (hm : HashMethod) (ps qs : list (string * string)) : forall i : nat,
  ring_from hm i (ps ++ qs)
  = (ring_from hm i ps ++ ring_from hm (i + length ps) qs)%list.
Proof.
  induction ps as [|p ps IH]; intros i.
  - cbn [app ring_from length]. rewrite Nat.add_0_r. reflexivity.
  - cbn [app ring_from length]. rewrite IH, <- app_assoc.
    replace (S i + length ps)%nat with (i + S (length ps))%nat by lia. reflexivity.
Qed.

(** On a sorted ring the lookup returns the entry that serves the point. *)
Lemma ring_owner_serves (l : list Z) (h : Z) :
  StronglySorted Z.le l -> l <> [] ->
  exists e, serves l h e /\ ring_owner l h = Ok (Z.land e 4294967295).
Proof.
  intros Hs Hne. unfold ring_owner.
  destruct (find (fun e => h <=? e) l) as [e|] eqn:Hf.
  - exists e. split; [|reflexivity].
    clear Hne. induction Hs as [|x l Hl IH Hx]; [discriminate Hf|].
    cbn [find] in Hf. destruct (Z.leb_spec h x) as [Hle|Hgt].
    + injection Hf as <-. split; [left|]. left. split; [exact Hle|].
      intros e' He' _. apply elem_of_cons in He' as [->|He']; [lia|].
      rewrite Forall_forall in Hx. apply Hx, He'.
    + destruct (IH Hf) as (Hin & [[Hle Hmin]|[Hall _]]).
      * split; [right; exact Hin|]. left. split; [exact Hle|].
        intros e' He' Hh. apply elem_of_cons in He' as [->|He']; [lia|].
        apply Hmin; assumption.
      * specialize (Hall e Hin). apply find_some in Hf as [_ Hf].
        apply Z.leb_le in Hf. lia.
  - destruct l as [|e0 l]; [congruence|]. exists e0. split; [|reflexivity].
    split; [left|]. right. split.
    + intros e' He'. apply list_elem_of_In in He'.
      pose proof (find_none _ _ Hf e' He') as Hn. cbn beta in Hn.
      apply Z.leb_gt in Hn. exact Hn.
    + intros e' He'. apply elem_of_cons in He' as [->|He']; [lia|].
      inversion Hs as [|? ? _ Hx]; subst. rewrite Forall_forall in Hx. apply Hx, He'.
Qed.

Lemma serves_unique (l : list Z) (h e1 e2 : Z) :
  serves l h e1 -> serves l h e2 -> e1 = e2.
Proof.
  intros (H1 & [[Hle1 Hmin1]|[Hall1 Hleast1]]) (H2 & [[Hle2 Hmin2]|[Hall2 Hleast2]]).
  - specialize (Hmin1 e2 H2 Hle2). specialize (Hmin2 e1 H1 Hle1). lia.
  - specialize (Hall2 e1 H1). lia.
  - specialize (Hall1 e2 H2). lia.
  - specialize (Hleast1 e2 H2). specialize (Hleast2 e1 H1). lia.
Qed.

(** An entry that serves a point in a ring serves it in every part of the
    ring that holds the entry. *)
Lemma serves_part (l1 l2 : list Z) (h e : Z) :
  (forall x, x ∈ l1 -> x ∈ l2) -> serves l2 h e -> e ∈ l1 -> serves l1 h e.
Proof.
  intros Hsub (_ & [[Hle Hmin]|[Hall Hleast]]) Hin; split; try exact Hin.
  - left. split; [exact Hle|]. intros e' He'. apply Hmin, Hsub, He'.
  - right. split; intros e' He'; [apply Hall | apply Hleast]; apply Hsub, He'.
Qed.

Lemma sorted_ring (l : list Z) : StronglySorted Z.le (sort_Sort l).
Proof.
  apply Sorted_StronglySorted; [intros x y z; apply Z.le_trans | apply sort_Sort_sorted].
Qed.

(** X19. Adding a host at the end of the host list of a consistent-hash
    scheduler moves keys only to the new host. For addresses of the form
    [host:port] (fewer than 2^32 of them before the addition) and every
    key: the scheduler constructed from [hosts ++ [h']] returns either the
    new host [h'] or the host that the scheduler constructed from [hosts]
    returns for the key. *)
Theorem ring_growth_is_consistent (hm : HashMethod) (hosts : list string) (h' : string)
    (key : string) :
  Forall has_colon hosts -> has_colon h' ->
  Z.of_nat (length hosts) < 2 ^ 32 ->
  exists c2, NewConsistantHashScheduler (hosts ++ [h']) hm = Ok c2 /\
    (ConsistantHashScheduler_GetHostsByKey c2 key = Ok [NewHost h'] \/
     exists c1, NewConsistantHashScheduler hosts hm = Ok c1 /\
       ConsistantHashScheduler_GetHostsByKey c2 key
       = ConsistantHashScheduler_GetHostsByKey c1 key).
Proof.
  intros Hcol Hcol' Hsmall.
  destruct (has_colon_pairs hosts Hcol) as (ps & -> & Hps).
  destruct (has_colon_pairs [h'] ltac:(constructor; [exact Hcol' | constructor]))
    as (ps' & Eh & Hps').
  destruct ps' as [|p' [|? ?]]; try discriminate Eh. injection Eh as ->.
  replace (map address ps ++ [address p'])%list with (map address (ps ++ [p']))
    by (rewrite map_app; reflexivity).
  rewrite length_map in Hsmall.
  eexists. split.
  { apply NewConsistantHashScheduler_ok. apply Forall_app. split; assumption. }
  set (n := length ps).
  set (R1 := ring_from hm 0 ps).
  set (Rn := host_ring hm n p' 0 VIRTUAL_NODES).
  assert (ER : ring_from hm 0 (ps ++ [p']) = (R1 ++ Rn)%list).
  { rewrite ring_from_app. cbn [ring_from Nat.add]. rewrite app_nil_r. reflexivity. }
  set (h := uint64 (Z.shiftl (hm key) 32)).
  set (l2 := sort_Sort (R1 ++ Rn)).
  assert (Hl2 : forall x, x ∈ l2 <-> x ∈ R1 \/ x ∈ Rn).
  { intros x. subst l2. rewrite (sort_Sort_perm (R1 ++ Rn)). apply elem_of_app. }
  assert (Hne2 : l2 <> []).
  { intros E. apply (f_equal length) in E. subst l2.
    rewrite sort_Sort_length, length_app in E. subst Rn. unfold host_ring in E.
    rewrite length_map, length_seq in E. unfold VIRTUAL_NODES in E. cbn in E. lia. }
  destruct (ring_owner_serves l2 h (sorted_ring _) Hne2) as (e2 & Hserves2 & Howner2).
  assert (Hget2 : forall c2 : ConsistantHashScheduler,
            c2 = {| ch_hosts := map NewHost (map address (ps ++ [p']));
                    ch_index := sort_Sort (ring_from hm 0 (ps ++ [p']));
                    ch_hashMethod := hm |} ->
            getHostIndex c2 key = Ok (Z.land e2 4294967295)).
  { intros c2 ->. rewrite getHostIndex_sorted by apply sort_Sort_sorted.
    cbn [ch_index ch_hashMethod]. rewrite ER. exact Howner2. }
  unfold ConsistantHashScheduler_GetHostsByKey at 1 2.
  rewrite (Hget2 _ eq_refl). cbn [mbind result_bind ch_hosts].
  destruct (proj1 (Hl2 e2) (proj1 Hserves2)) as [Hold|Hnew].
  - right.
    set (l1 := sort_Sort R1).
    assert (Hl1 : forall x, x ∈ l1 <-> x ∈ R1).
    { intros x. subst l1. rewrite (sort_Sort_perm R1). reflexivity. }
    assert (Hne1 : l1 <> []).
    { intros E. apply Hl1 in Hold. rewrite E in Hold. inversion Hold. }
    destruct (ring_owner_serves l1 h (sorted_ring _) Hne1) as (e1 & Hserves1 & Howner1).
    assert (E12 : e1 = e2).
    { apply (serves_unique l1 h); [exact Hserves1|].
      apply (serves_part l1 l2); [|exact Hserves2 | apply Hl1, Hold].
      intros x Hx. apply Hl2. left. apply Hl1, Hx. }
    subst e1.
    eexists. split; [apply NewConsistantHashScheduler_ok, Hps|].
    unfold ConsistantHashScheduler_GetHostsByKey.
    rewrite getHostIndex_sorted by apply sort_Sort_sorted.
    cbn [ch_index ch_hashMethod ch_hosts]. fold R1 l1 h. rewrite Howner1.
    cbn [mbind result_bind].
    apply list_elem_of_In in Hold.
    destruct (ring_from_entries _ _ _ _ Hold) as (i & v & Hi & ->).
    rewrite packed_low, Z.mod_small by lia.
    unfold itemZ. destruct (Z.ltb_spec (Z.of_nat i) 0); [lia|].
    rewrite Nat2Z.id. unfold item.
    rewrite !map_app.
    rewrite lookup_app_l by (rewrite !length_map; cbn [Nat.add] in Hi; lia).
    reflexivity.
  - left. subst Rn. unfold host_ring in Hnew.
    apply list_elem_of_fmap in Hnew as (j & -> & _).
    rewrite packed_low, Z.mod_small by lia.
    unfold itemZ. destruct (Z.ltb_spec (Z.of_nat n) 0); [lia|].
    rewrite Nat2Z.id. unfold item.
    rewrite !map_app.
    subst n. rewrite lookup_app_r by (rewrite !length_map; lia).
    rewrite !length_map, Nat.sub_diag. reflexivity.
Qed.

Lemma ring_growth_is_consistent_witness :
  exists c2,
    NewConsistantHashScheduler (["10.0.0.1:11211"] ++ ["10.0.0.2:7900"]) fnv1a = Ok c2 /\
    (ConsistantHashScheduler_GetHostsByKey c2 "k1" = Ok [NewHost "10.0.0.2:7900"] \/
     exists c1, NewConsistantHashScheduler ["10.0.0.1:11211"] fnv1a = Ok c1 /\
       ConsistantHashScheduler_GetHostsByKey c2 "k1"
       = ConsistantHashScheduler_GetHostsByKey c1 "k1").
Proof.
  apply (ring_growth_is_consistent fnv1a ["10.0.0.1:11211"] "10.0.0.2:7900" "k1").
  - repeat constructor.
  - constructor.
  - cbn [length Z.of_nat]. lia.
Defined.

End RingGrowth.

(** * The order in which the auto scheduler returns the hosts *)

Lemma StronglySorted_pairs {A} (R : A -> A -> Prop) (l : list A) :
  StronglySorted R l ->
  forall j1 j2 a b, j1 < j2 -> l !! j1 = Some a -> l !! j2 = Some b -> R a b.
Proof.
  induction 1 as [|x l Hl IH Hx]; intros j1 j2 a b Hj H1 H2; [discriminate H1|].
  destruct j2 as [|j2]; [lia|]. cbn in H2. destruct j1 as [|j1].
  - injection H1 as <-. rewrite Forall_forall in Hx. apply Hx.
    eapply list_elem_of_lookup_2. exact H2.
  - cbn in H1. apply (IH j1 j2); [lia | assumption..].
Qed.

(** X20. After construction and after any sequence of feedback messages
    for hosts and buckets of the scheduler with finite adjustments,
    [GetHostsByKey] of an auto scheduler (with between 1 and 2^32 - 1
    buckets) returns the hosts in the order of their weights in the bucket
    of the key: a host is never returned before a host of greater
    weight. *)
Theorem AutoScheduler_GetHostsByKey_by_weight
    (fnv1a1 : HashMethod) (config : list string) (bs : Z) (msgs : list Feedback)
    (c0 : AutoScheduler) (key : string) :
  (1 <= bs < 2 ^ 32)%Z ->
  NewAutoScheduler fnv1a1 config bs = Ok c0 ->
  Forall (valid_message c0) msgs ->
  exists c bucket stats hs,
    procFeedback c0 msgs = Ok c /\
    AutoScheduler_GetHostsByKey c key = Ok hs /\
    auto_buckets c !! Z.to_nat (getBucketByKey fnv1a1 bs key) = Some bucket /\
    auto_stats c !! Z.to_nat (getBucketByKey fnv1a1 bs key) = Some stats /\
    Forall2 (fun h host => auto_hosts c !! h = Some host) bucket hs /\
    forall j1 j2 h1 h2, j1 < j2 -> bucket !! j1 = Some h1 -> bucket !! j2 = Some h2 ->
      (weight stats h2 <=? weight stats h1)%float = true.
Proof.
  intros Hbs Hc0 Hmsgs.
  destruct (NewAutoScheduler_initial _ _ _ _ Hc0) as (Hwf0 & Hrk0 & Hnan0).
  destruct (procFeedback_ranked msgs c0 Hwf0 Hrk0 Hnan0 Hmsgs) as (c & Hc & Hwf & Hrk & _).
  destruct (procFeedback_well_formed msgs c0 c Hwf0 Hc) as (_ & _ & Hb & Hm).
  assert (E0 : length (auto_buckets c0) = Z.to_nat bs /\ auto_hashMethod c0 = fnv1a1).
  { unfold NewAutoScheduler in Hc0. destruct (Z.ltb_spec bs 0); [lia|].
    injection Hc0 as <-. cbn [auto_buckets auto_hashMethod].
    rewrite length_replicate. split; reflexivity. }
  destruct E0 as [El Eh].
  assert (Ebs : Z.of_nat (length (auto_buckets c)) = bs) by lia.
  destruct (AutoScheduler_GetHostsByKey_ok c key Hwf ltac:(lia) ltac:(lia))
    as (bucket & hs & Hbucket & Hhs & Hall & _).
  rewrite Ebs, Hm, Eh in Hbucket.
  pose proof Hwf as (Hlen & _ & _).
  destruct (lookup_lt_is_Some_2 (auto_stats c) (Z.to_nat (getBucketByKey fnv1a1 bs key)))
    as [stats Hstats].
  { rewrite <- Hlen. apply lookup_lt_Some in Hbucket. exact Hbucket. }
  exists c, bucket, stats, hs.
  split; [exact Hc|]. split; [exact Hhs|]. split; [exact Hbucket|].
  split; [exact Hstats|]. split; [exact Hall|].
  pose proof (Forall2_lookup_lr _ _ _ _ _ _ Hrk Hstats Hbucket) as Hranked.
  apply ranked_sorted in Hranked.
  intros j1 j2 h1 h2 Hj H1 H2.
  apply (StronglySorted_pairs _ _ Hranked j1 j2 h1 h2 Hj H1 H2).
Qed.

Lemma AutoScheduler_GetHostsByKey_by_weight_witness :
  exists c bucket stats hs,
    procFeedback sample_state sample_messages = Ok c /\
    AutoScheduler_GetHostsByKey c "k1" = Ok hs /\
    auto_buckets c !! Z.to_nat (getBucketByKey fnv1a 2 "k1") = Some bucket /\
    auto_stats c !! Z.to_nat (getBucketByKey fnv1a 2 "k1") = Some stats /\
    Forall2 (fun h host => auto_hosts c !! h = Some host) bucket hs /\
    forall j1 j2 h1 h2, j1 < j2 -> bucket !! j1 = Some h1 -> bucket !! j2 = Some h2 ->
      (weight stats h2 <=? weight stats h1)%float = true.
Proof.
  apply (AutoScheduler_GetHostsByKey_by_weight fnv1a three_hosts 2 sample_messages
           sample_state "k1").
  - lia.
  - reflexivity.
  - unfold sample_messages, valid_message. cbn.
    repeat constructor; cbn; lia.
Defined.

(** * The number of messages of a probe *)

Lemma SplitN_length (s : string) (sep : ascii) : forall n : nat,
  length (SplitN s sep n) <= n.
Proof.
  induction s as [|c s IH]; intros [|[|n]]; cbn [SplitN length]; try lia.
  destruct (Ascii.eqb c sep).
  - cbn [length]. specialize (IH (S n)). lia.
  - specialize (IH (S (S n))). destruct (SplitN s sep (S (S n))); cbn [length] in *; lia.
Qed.

(** A piece of the body gives no call, or one call for the text of the
    piece before its first space. *)
Lemma listHost_line_calls (ParseFloat : ParseFloatFn) (dir line : string) :
  listHost_line ParseFloat dir line = Ok [] \/
  exists name flags count,
    line = record name flags count /\
    Count name " " = 0%Z /\ Count flags " " = 0%Z /\
    listHost_line ParseFloat dir line
    = Ok [((dir ++ name)%string, PrimFloat.sqrt (fst (ParseFloat count)))].
Proof.
  destruct (Z.lt_ge_cases (Count line " ") 2) as [Hlt|Hge].
  - left. apply listHost_line_skipped. left. exact Hlt.
  - destruct (second_byte_total line Hge) as [c1 Hc1].
    destruct (Z.eq_dec c1 47%Z) as [->|Hne].
    + right. destruct (two_spaces_record line Hge) as (name & flags & count & -> & Hn & Hf).
      exists name, flags, count. split; [reflexivity|]. split; [exact Hn|].
      split; [exact Hf|]. apply listHost_line_record; assumption.
    + left. apply listHost_line_skipped. right. congruence.
Qed.

Lemma listHost_lines_calls (ParseFloat : ParseFloatFn) (dir : string) (ls : list string) :
  exists calls : list (list (string * float)),
    listHost_lines ParseFloat dir ls = Ok (concat calls) /\
    length (concat calls) <= length ls /\
    Forall2 (fun line cs =>
               listHost_line ParseFloat dir line = Ok cs /\
               (cs = [] \/
                exists name flags count,
                  line = record name flags count /\
                  Count name " " = 0%Z /\ Count flags " " = 0%Z /\
                  cs = [((dir ++ name)%string,
                         PrimFloat.sqrt (fst (ParseFloat count)))]))
            ls calls.
Proof.
  induction ls as [|l ls (calls & Hcalls & Hlen & Hall)].
  - exists []. split; [reflexivity|]. split; [cbn; lia | constructor].
  - destruct (listHost_line_calls ParseFloat dir l)
      as [Hnone|(name & flags & count & El & Hn & Hf & Hone)].
    + exists ([] :: calls). cbn [listHost_lines concat app length].
      rewrite Hnone, Hcalls. split; [reflexivity|]. split; [lia|].
      constructor; [|exact Hall]. split; [exact Hnone | left; reflexivity].
    + eexists (_ :: calls). cbn [listHost_lines concat].
      rewrite Hone, Hcalls. split; [reflexivity|]. split.
      * rewrite length_app. cbn [length]. lia.
      * constructor; [|exact Hall]. split; [exact Hone|].
        right. exists name, flags, count. repeat split; assumption.
Qed.

(** X21. One probe makes at most 17 calls of [Feedback], whatever the host
    answers. [listHost] never fails; without an answer it makes no call;
    for a body it goes through the pieces [SplitN(body, "\n", 17)], of
    which there are at most 17, and the calls of the probe are those of
    the pieces, in order. Every piece gives no call or exactly one call:
    one call when the piece is a record [name flags count] ([name] and
    [flags] without a space), and then the key of the call is the probed
    directory followed by [name], the text of the piece before its first
    space, and the adjustment is the square root of the value that
    [ParseFloat] returns for [count]. *)
Theorem listHost_at_most_17 (ParseFloat : ParseFloatFn) (dir : string) :
  listHost ParseFloat None dir = Ok [] /\
  forall body : string,
    exists calls : list (list (string * float)),
      listHost ParseFloat (Some body) dir = Ok (concat calls) /\
      length (SplitN body "010" 17) <= 17 /\
      length (concat calls) <= 17 /\
      Forall2 (fun line cs =>
                 listHost_line ParseFloat dir line = Ok cs /\
                 (cs = [] \/
                  exists name flags count,
                    line = record name flags count /\
                    Count name " " = 0%Z /\ Count flags " " = 0%Z /\
                    cs = [((dir ++ name)%string,
                           PrimFloat.sqrt (fst (ParseFloat count)))]))
              (SplitN body "010" 17) calls.
Proof.
  split; [reflexivity|]. intros body.
  destruct (listHost_lines_calls ParseFloat dir (SplitN body "010"%char 17))
    as (calls & Hcalls & Hlen & Hall).
  pose proof (SplitN_length body "010"%char 17) as Hpieces.
  exists calls. split; [exact Hcalls|]. split; [exact Hpieces|].
  split; [lia | exact Hall].
Qed.

(** * The order of the other hosts, and the order before any feedback *)

(** X22. [feedback] moves one host only: the hosts other than [i] keep
    their relative order in the preference sequence of the bucket,
    whatever the weights and the adjustment are. In a well-formed state,
    for a host [i] and a bucket [index] of the scheduler, the preference
    sequence of the bucket with [i] removed is the same before and after
    [feedback(i, index, adjust)]. *)
Theorem feedback_keeps_order_of_others (c : AutoScheduler) (i index : nat) (adj : float) :
  well_formed c ->
  i < length (auto_hosts c) -> index < length (auto_buckets c) ->
  exists c' bucket bucket',
    feedback c i index adj = Ok c' /\
    auto_buckets c !! index = Some bucket /\
    auto_buckets c' !! index = Some bucket' /\
    filter (fun h => h <> i) bucket' = filter (fun h => h <> i) bucket.
Proof.
  intros Hwf Hi Hindex.
  destruct (feedback_shape c i index adj Hwf Hi Hindex)
    as (stats0 & L & R & buckets1 & Hs0 & Hb0 & _ & _ & Hfb & Hre).
  eexists _, (L ++ i :: R), buckets1.
  split; [exact Hfb|]. split; [exact Hb0|]. cbn [auto_buckets].
  split; [apply list_lookup_insert_eq, Hindex|].
  assert (Hdrop : forall l1 l2 : list nat,
            filter (fun h => h <> i) (l1 ++ i :: l2)
            = filter (fun h => h <> i) l1 ++ filter (fun h => h <> i) l2).
  { intros l1 l2. rewrite filter_app, filter_cons, decide_False by (intros H; apply H; reflexivity).
    reflexivity. }
  destruct Hre as [L1 L2 -> _ _|R1 R2 -> _ _].
  - rewrite !Hdrop, !filter_app, <- app_assoc. reflexivity.
  - rewrite app_assoc, !Hdrop, !filter_app, <- app_assoc. reflexivity.
Qed.

Lemma feedback_keeps_order_of_others_witness :
  exists c' bucket bucket',
    feedback sample_state 2 0 5%float = Ok c' /\
    auto_buckets sample_state !! 0 = Some bucket /\
    auto_buckets c' !! 0 = Some bucket' /\
    filter (fun h => h <> 2) bucket' = filter (fun h => h <> 2) bucket.
Proof.
  apply (feedback_keeps_order_of_others sample_state 2 0 5%float).
  - unfold well_formed. cbn. repeat split; repeat constructor.
  - cbn. lia.
  - cbn. lia.
Defined.

(** X23. Before any feedback an auto scheduler prefers the hosts in the
    order of its configuration: for between 1 and 2^32 - 1 buckets and
    every key, [GetHostsByKey] of the state that [NewAutoScheduler] builds
    returns the hosts of the configuration in their order. *)
Theorem AutoScheduler_initial_order
    (fnv1a1 : HashMethod) (config : list string) (bs : Z) (c0 : AutoScheduler)
    (key : string) :
  (1 <= bs < 2 ^ 32)%Z ->
  NewAutoScheduler fnv1a1 config bs = Ok c0 ->
  AutoScheduler_GetHostsByKey c0 key = Ok (map NewHost config).
Proof.
  intros Hbs Hc0.
  destruct (NewAutoScheduler_initial _ _ _ _ Hc0) as (Hwf0 & _ & _).
  unfold NewAutoScheduler in Hc0. destruct (Z.ltb_spec bs 0); [lia|].
  injection Hc0 as <-.
  match goal with |- AutoScheduler_GetHostsByKey ?c _ = _ => set (c0 := c) in * end.
  assert (Hlen : length (auto_buckets c0) = Z.to_nat bs)
    by (subst c0; cbn [auto_buckets]; apply length_replicate).
  destruct (AutoScheduler_GetHostsByKey_ok c0 key Hwf0 ltac:(lia) ltac:(lia))
    as (bucket & hs & Hbucket & Hhs & Hall & _).
  rewrite Hhs. f_equal.
  assert (Eb : bucket = seq 0 (length config)).
  { subst c0. cbn [auto_buckets] in Hbucket.
    apply lookup_replicate in Hbucket as [-> _]. reflexivity. }
  subst bucket. apply list_eq. intros j.
  destruct (decide (j < length config)) as [Hlt|Hge].
  - destruct (Forall2_lookup_l _ _ _ j j Hall) as (host & Hj & Hhost).
    { apply lookup_seq_lt. exact Hlt. }
    rewrite Hj, <- Hhost. reflexivity.
  - apply Forall2_length in Hall. rewrite length_seq in Hall.
    rewrite (lookup_ge_None_2 hs j) by lia.
    rewrite lookup_ge_None_2 by (rewrite length_map; lia). reflexivity.
Qed.

Lemma AutoScheduler_initial_order_witness :
  AutoScheduler_GetHostsByKey sample_state "k1" = Ok (map NewHost three_hosts).
Proof.
  apply (AutoScheduler_initial_order fnv1a three_hosts 2 sample_state "k1").
  - lia.
  - reflexivity.
Defined.
